(** * echo.py: the stdio-json echo processor

    A shallow embedding of [src/echo.py]

<<
    def main():
        data = json.load(sys.stdin)
        data["echoed_by"] = "python"
        data["ts"] = int(time.time())
        json.dump(data, sys.stdout)
>>

    together with the parts of the Python runtime that [main] calls:
    the [json] decoder and encoder (CPython's [json.decoder],
    [json.scanner] and [json.encoder] with their default arguments),
    item assignment, [time.time] and [int].

    Python strings are sequences of Unicode code points, so text is a list
    of code points.  Python dictionaries keep their keys in insertion order
    and the encoder writes them in that order, so a dictionary is an
    association list without repeated keys.  Python integers are unbounded
    ([Z]); Python floats are IEEE binary64 values ([spec_float]).

    The interpreter's resource limits are not modelled: CPython's scanner
    raises [RecursionError] when the nesting of the input exceeds the
    recursion limit (about a thousand levels by default), and since
    CPython 3.11 [int] and [str] raise [ValueError] for an integer of more
    than 4300 digits.  The decoder and the encoder below have neither
    check, so what is stated of an input is stated for the inputs that
    [json.load] returns a value for, and what is stated of a failure does
    not name the exception [json.load] raises. *)

From Stdlib Require Import String Ascii.
From Stdlib Require Import ZArith NArith Lia Bool.
From Stdlib Require Import DecimalPos DecimalFacts.
From Stdlib Require Import Floats.SpecFloat.
From Stdlib Require Import List.
Import ListNotations.

Set Warnings "-register-all".
Local Open Scope list_scope.

(** ** Text *)

(** A character is a Unicode code point. *)
Definition char := N.
Definition text := list N.

(** The text of an ASCII literal of the source. *)
Definition T (s : string) : text := map N_of_ascii (list_ascii_of_string s).

Definition ch (a : ascii) : N := N_of_ascii a.

(** The same with every apostrophe read as a double quote (code point 34),
    to write JSON texts down. *)
Definition TQ (s : string) : text :=
  map (fun c => if N.eqb c 39 then 34%N else c) (T s).

Fixpoint text_eqb (a b : text) : bool :=
  match a, b with
  | [], [] => true
  | x :: a', y :: b' => N.eqb x y && text_eqb a' b'
  | _, _ => false
  end.

(** [s.startswith(p)], returning what follows the prefix. *)
Fixpoint strip_prefix (p s : text) : option text :=
  match p, s with
  | [], _ => Some s
  | x :: p', y :: s' => if N.eqb x y then strip_prefix p' s' else None
  | _ :: _, [] => None
  end.

(** ** Exceptions and results *)

Inductive exn : Type :=
| JSONDecodeError
| TypeError
| ValueError
| OverflowError
| RecursionError.

Inductive result (A : Type) : Type :=
| Ok (a : A)
| Err (e : exn).

Arguments Ok {A} a.
Arguments Err {A} e.

Definition bind {A B} (r : result A) (k : A -> result B) : result B :=
  match r with
  | Ok a => k a
  | Err e => Err e
  end.

Declare Scope result_scope.
Delimit Scope result_scope with result.
Notation "x <- r ;; k" := (bind r (fun x => k))
  (at level 61, r at next level, right associativity) : result_scope.
Notation "' p <- r ;; k" := (bind r (fun p => k))
  (at level 61, p pattern, r at next level, right associativity) : result_scope.

(** ** Python values that [json.load] can build *)

Inductive value : Type :=
| VNone
| VBool (b : bool)
| VInt (z : Z)
| VFloat (f : spec_float)
| VStr (s : text)
| VList (l : list value)
| VDict (d : list (text * value)).

(** ** Dictionaries *)

Definition dict := list (text * value).

(** [d[k] = v]: an existing key keeps its position and gets the new value,
    a new key goes to the end. *)
Fixpoint dict_setitem (d : dict) (k : text) (v : value) : dict :=
  match d with
  | [] => [(k, v)]
  | (k', v') :: d' =>
      if text_eqb k' k then (k', v) :: d'
      else (k', v') :: dict_setitem d' k v
  end.

Fixpoint dict_get (d : dict) (k : text) : option value :=
  match d with
  | [] => None
  | (k', v') :: d' => if text_eqb k' k then Some v' else dict_get d' k
  end.

Definition dict_keys (d : dict) : list text := map fst d.

(** [dict(pairs)]: the pairs are inserted from left to right. *)
Definition dict_of_pairs (pairs : list (text * value)) : dict :=
  fold_left (fun d kv => dict_setitem d (fst kv) (snd kv)) pairs [].

(** [data[k] = v] for a string key [k]: only a dictionary supports it; a
    list wants integer indices and the other values have no item
    assignment, which is a [TypeError] in both cases. *)
Definition setitem (data : value) (k : text) (v : value) : result value :=
  match data with
  | VDict d => Ok (VDict (dict_setitem d k v))
  | VList _ => Err TypeError
  | VNone | VBool _ | VInt _ | VFloat _ | VStr _ => Err TypeError
  end.

(** ** Characters of the JSON syntax *)

Definition is_ws (c : N) : bool :=
  N.eqb c 32 || N.eqb c 9 || N.eqb c 10 || N.eqb c 13.

Definition is_digit (c : N) : bool := N.leb 48 c && N.leb c 57.

Definition digit_val (c : N) : Z := Z.of_N c - 48.

(** [WHITESPACE.match(s, idx).end()] *)
Fixpoint skip_ws (s : text) : text :=
  match s with
  | c :: s' => if is_ws c then skip_ws s' else s
  | [] => []
  end.

Fixpoint span_digits (s : text) : text * text :=
  match s with
  | c :: s' =>
      if is_digit c then let (d, r) := span_digits s' in (c :: d, r)
      else ([], s)
  | [] => ([], [])
  end.

(** ** Floats: [float(literal)] and [int(x)] *)

(** The binary64 value nearest to [n / d] (for [0 <= n], [0 < d]), ties to
    even: the quotient is taken at the binary exponent that leaves 53 bits
    (or at the subnormal exponent -1074) and rounded on the remainder. *)
Definition round_ratio (sign : bool) (n d : Z) : spec_float :=
  if (n =? 0)%Z then S754_zero sign
  else
    let e0 := (Z.log2 n - Z.log2 d - 53)%Z in
    let q0 := (if 0 <=? e0 then n / (d * 2 ^ e0) else (n * 2 ^ (- e0)) / d)%Z in
    let e1 := (if 2 ^ 53 <=? q0 then e0 + 1 else e0)%Z in
    let e := Z.max e1 (-1074) in
    let num := (if 0 <=? e then n else n * 2 ^ (- e))%Z in
    let den := (if 0 <=? e then d * 2 ^ e else d)%Z in
    let q := (num / den)%Z in
    let r := (num mod den)%Z in
    let q' := (if (den <? 2 * r) || ((den =? 2 * r) && Z.odd q)
               then q + 1 else q)%Z in
    let m := (if q' =? 2 ^ 53 then 2 ^ 52 else q')%Z in
    let e' := (if q' =? 2 ^ 53 then e + 1 else e)%Z in
    if (m =? 0)%Z then S754_zero sign
    else if (971 <? e')%Z then S754_infinity sign
    else S754_finite sign (Z.to_pos m) e'.

(** The binary64 value nearest to [m * 10 ^ e10]. *)
Definition float_of_decimal (sign : bool) (m e10 : Z) : spec_float :=
  if (0 <=? e10)%Z then round_ratio sign (m * 10 ^ e10) 1
  else round_ratio sign m (10 ^ (- e10)).

(** [int(digits)] for a text of decimal digits. *)
Definition Z_of_digits (ds : text) : Z :=
  fold_left (fun acc c => (10 * acc + digit_val c)%Z) ds 0%Z.

(** [int(s)] for [s] an optional minus sign and decimal digits.  (The
    limit on the number of digits, [sys.int_max_str_digits], is not
    modelled.) *)
Definition py_int_of_text (s : text) : Z :=
  match s with
  | c :: s' => if N.eqb c (ch "-") then (- Z_of_digits s')%Z else Z_of_digits s
  | [] => 0%Z
  end.

(** [float(s)] for [s] a literal of [NUMBER_RE] (sign, digits, optional
    fraction, optional exponent), the only texts the decoder passes to it. *)
Definition py_float_of_text (s : text) : spec_float :=
  let sign := match s with c :: _ => N.eqb c (ch "-") | [] => false end in
  let s0 := if sign then tl s else s in
  let (ip, s1) := span_digits s0 in
  let (fp, s2) :=
    match s1 with
    | c :: s1' => if N.eqb c (ch ".") then span_digits s1' else ([], s1)
    | [] => ([], s1)
    end in
  let ex :=
    match s2 with
    | c :: s2' =>
        if N.eqb c (ch "e") || N.eqb c (ch "E") then py_int_of_text
          (match s2' with
           | c2 :: s2'' => if N.eqb c2 (ch "+") then s2'' else s2'
           | [] => s2'
           end)
        else 0%Z
    | [] => 0%Z
    end in
  float_of_decimal sign (Z_of_digits (ip ++ fp)) (ex - Z.of_nat (length fp)).

(** [int(x)] for a float [x]: truncation towards zero; [ValueError] for a
    NaN and [OverflowError] for an infinity. *)
Definition py_int_of_float (x : spec_float) : result Z :=
  match x with
  | S754_zero _ => Ok 0%Z
  | S754_finite s m e =>
      let mag := Z.shiftl (Z.pos m) e in
      Ok (if s then (- mag)%Z else mag)
  | S754_nan => Err ValueError
  | S754_infinity _ => Err OverflowError
  end.

(** ** The decoder: [json.load] *)

(** [NUMBER_RE] has three groups: an integer part (an optional minus sign,
    then either a single 0 or a digit from 1 to 9 and any digits), an
    optional fraction (a point and at least one digit) and an optional
    exponent (e or E, an optional sign and at least one digit).  One
    function per group; each returns the matched text and the rest. *)
Definition match_integer (s : text) : option (text * text) :=
  let (sign, s1) :=
    match s with
    | c :: s' => if N.eqb c (ch "-") then ([c], s') else ([], s)
    | [] => ([], s)
    end in
  match s1 with
  | c :: s2 =>
      if N.eqb c (ch "0") then Some (sign ++ [c], s2)
      else if is_digit c then
        let (d, r) := span_digits s2 in Some (sign ++ c :: d, r)
      else None
  | [] => None
  end.

Definition match_frac (s : text) : option (text * text) :=
  match s with
  | c :: s' =>
      if N.eqb c (ch ".") then
        match span_digits s' with
        | ([], _) => None
        | (d, r) => Some (c :: d, r)
        end
      else None
  | [] => None
  end.

Definition match_exp (s : text) : option (text * text) :=
  match s with
  | c :: s' =>
      if N.eqb c (ch "e") || N.eqb c (ch "E") then
        let (sg, s2) :=
          match s' with
          | c2 :: s'' =>
              if N.eqb c2 (ch "-") || N.eqb c2 (ch "+") then ([c2], s'')
              else ([], s')
          | [] => ([], s')
          end in
        match span_digits s2 with
        | ([], _) => None
        | (d, r) => Some (c :: sg ++ d, r)
        end
      else None
  | [] => None
  end.

(** An optional group: nothing is matched when the group does not match. *)
Definition optional (group : text -> option (text * text)) (s : text)
  : text * text :=
  match group s with
  | Some fr => fr
  | None => ([], s)
  end.

(** The number branch of [scan_once]: [parse_float] when there is a
    fraction or an exponent, [parse_int] otherwise. *)
Definition match_number (s : text) : option (value * text) :=
  match match_integer s with
  | None => None
  | Some (integer, r1) =>
      let (frac, r2) := optional match_frac r1 in
      let (exp, r3) := optional match_exp r2 in
      match frac, exp with
      | [], [] => Some (VInt (py_int_of_text integer), r3)
      | _, _ => Some (VFloat (py_float_of_text (integer ++ frac ++ exp)), r3)
      end
  end.

Definition hexval (c : N) : option N :=
  if is_digit c then Some (c - 48)%N
  else if N.leb 97 c && N.leb c 102 then Some (c - 87)%N
  else if N.leb 65 c && N.leb c 70 then Some (c - 55)%N
  else None.

(** [_decode_uXXXX]: four hexadecimal digits. *)
Definition decode_uXXXX (h1 h2 h3 h4 : N) : option N :=
  match hexval h1, hexval h2, hexval h3, hexval h4 with
  | Some a, Some b, Some c, Some d => Some (((a * 16 + b) * 16 + c) * 16 + d)%N
  | _, _, _, _ => None
  end.

(** [BACKSLASH]: the one-character escapes. *)
Definition backslash (esc : N) : option N :=
  if N.eqb esc 34%N then Some 34%N
  else if N.eqb esc (ch "\") then Some (ch "\")
  else if N.eqb esc (ch "/") then Some (ch "/")
  else if N.eqb esc (ch "b") then Some 8%N
  else if N.eqb esc (ch "f") then Some 12%N
  else if N.eqb esc (ch "n") then Some 10%N
  else if N.eqb esc (ch "r") then Some 13%N
  else if N.eqb esc (ch "t") then Some 9%N
  else None.

Definition is_high_surrogate (u : N) : bool := N.leb 55296 u && N.leb u 56319.
Definition is_low_surrogate (u : N) : bool := N.leb 56320 u && N.leb u 57343.

Definition join_surrogates (u u2 : N) : N :=
  (65536 + N.lor (N.shiftl (u - 55296) 10) (u2 - 56320))%N.

Definition cons_char (c : N) (r : result (text * text)) : result (text * text) :=
  match r with
  | Ok (str, rest) => Ok (c :: str, rest)
  | Err e => Err e
  end.

(** [scanstring(s, end, strict=True)], entered after the opening quote:
    the decoded string and the text after the closing quote.  A high
    surrogate escape followed by a low surrogate escape is one character;
    when the text after a high surrogate is too short to hold a second
    escape, the loop goes on and fails on what is left. *)
Fixpoint scanstring (s : text) : result (text * text) :=
  match s with
  | [] => Err JSONDecodeError
  | c :: s1 =>
      if N.eqb c 34%N then Ok ([], s1)
      else if N.eqb c (ch "\") then
        match s1 with
        | [] => Err JSONDecodeError
        | esc :: s2 =>
            if N.eqb esc (ch "u") then
              match s2 with
              | h1 :: h2 :: h3 :: h4 :: s3 =>
                  match decode_uXXXX h1 h2 h3 h4 with
                  | None => Err JSONDecodeError
                  | Some uni =>
                      if is_high_surrogate uni then
                        match s3 with
                        | b :: u :: g1 :: g2 :: g3 :: g4 :: s4 =>
                            if N.eqb b (ch "\") && N.eqb u (ch "u") then
                              match decode_uXXXX g1 g2 g3 g4 with
                              | None => Err JSONDecodeError
                              | Some uni2 =>
                                  if is_low_surrogate uni2
                                  then cons_char (join_surrogates uni uni2)
                                         (scanstring s4)
                                  else cons_char uni (scanstring s3)
                              end
                            else cons_char uni (scanstring s3)
                        | _ => cons_char uni (scanstring s3)
                        end
                      else cons_char uni (scanstring s3)
                  end
              | _ => Err JSONDecodeError
              end
            else
              match backslash esc with
              | Some c' => cons_char c' (scanstring s2)
              | None => Err JSONDecodeError
              end
        end
      else if N.ltb c 32 then Err JSONDecodeError
      else cons_char c (scanstring s1)
  end.

(** [parse_constant]: the three literals the decoder accepts beyond the
    JSON grammar. *)
Definition nan_constants : list (text * value) :=
  [ (T "NaN", VFloat S754_nan);
    (T "Infinity", VFloat (S754_infinity false));
    (T "-Infinity", VFloat (S754_infinity true)) ].

Fixpoint match_literal (lits : list (text * value)) (s : text)
  : option (value * text) :=
  match lits with
  | [] => None
  | (name, v) :: lits' =>
      match strip_prefix name s with
      | Some r => Some (v, r)
      | None => match_literal lits' s
      end
  end.

Definition json_literals : list (text * value) :=
  [ (T "null", VNone); (T "true", VBool true); (T "false", VBool false) ].

Open Scope result_scope.

(** [scan_once], [JSONArray] and [JSONObject].  The branches of [scan_once]
    for an opening brace and an opening bracket are the beginnings of
    [JSONObject] and [JSONArray] (whitespace, then the empty object or
    array); their [while True] loops are [object_loop] and [array_loop],
    which return the pairs and the values in the order read.  The text is
    consumed from the front, so an index into the string is the text that
    is left.  [fuel] bounds the number of nested calls; [decode] gives
    enough of it for any text.  [allow_nan] stands for the decoder's
    [parse_constant] hook: Python's default ([true]) accepts [NaN],
    [Infinity] and [-Infinity]; with [false] the hook refuses them, which
    [main] never asks for and which serves to compare the decoder with the
    JSON grammar. *)
Fixpoint scan_once (allow_nan : bool) (fuel : nat) (s : text)
  {struct fuel} : result (value * text) :=
  match fuel with
  | O => Err RecursionError
  | S fuel' =>
      match s with
      | [] => Err JSONDecodeError
      | c :: s1 =>
          if N.eqb c 34%N then
            '(str, r) <- scanstring s1 ;; Ok (VStr str, r)
          else if N.eqb c (ch "{") then
            match skip_ws s1 with
            | c1 :: r =>
                if N.eqb c1 (ch "}") then Ok (VDict [], r)
                else if N.eqb c1 34%N then
                  '(pairs, r') <- object_loop allow_nan fuel' r ;;
                  Ok (VDict (dict_of_pairs pairs), r')
                else Err JSONDecodeError
            | [] => Err JSONDecodeError
            end
          else if N.eqb c (ch "[") then
            match skip_ws s1 with
            | c1 :: r =>
                if N.eqb c1 (ch "]") then Ok (VList [], r)
                else
                  '(values, r') <- array_loop allow_nan fuel' (c1 :: r) ;;
                  Ok (VList values, r')
            | [] => Err JSONDecodeError
            end
          else
            match match_literal json_literals s with
            | Some vr => Ok vr
            | None =>
                match match_number s with
                | Some vr => Ok vr
                | None =>
                    match match_literal nan_constants s with
                    | Some vr => if allow_nan then Ok vr else Err JSONDecodeError
                    | None => Err JSONDecodeError
                    end
                end
            end
      end
  end

(** The [while True] loop of [JSONArray], entered at the first character
    of an element. *)
with array_loop (allow_nan : bool) (fuel : nat) (s : text)
  {struct fuel} : result (list value * text) :=
  match fuel with
  | O => Err RecursionError
  | S fuel' =>
      '(v, r) <- scan_once allow_nan fuel' s ;;
      match skip_ws r with
      | c :: r1 =>
          if N.eqb c (ch "]") then Ok ([v], r1)
          else if N.eqb c (ch ",") then
            '(values, r2) <- array_loop allow_nan fuel' (skip_ws r1) ;;
            Ok (v :: values, r2)
          else Err JSONDecodeError
      | [] => Err JSONDecodeError
      end
  end

(** The [while True] loop of [JSONObject], entered after the opening quote
    of a key. *)
with object_loop (allow_nan : bool) (fuel : nat) (s : text)
  {struct fuel} : result (list (text * value) * text) :=
  match fuel with
  | O => Err RecursionError
  | S fuel' =>
      '(key, r) <- scanstring s ;;
      match skip_ws r with
      | c :: r1 =>
          if N.eqb c (ch ":") then
            '(v, r2) <- scan_once allow_nan fuel' (skip_ws r1) ;;
            match skip_ws r2 with
            | c2 :: r3 =>
                if N.eqb c2 (ch "}") then Ok ([(key, v)], r3)
                else if N.eqb c2 (ch ",") then
                  match skip_ws r3 with
                  | q :: r4 =>
                      if N.eqb q 34%N then
                        '(pairs, r5) <- object_loop allow_nan fuel' r4 ;;
                        Ok ((key, v) :: pairs, r5)
                      else Err JSONDecodeError
                  | [] => Err JSONDecodeError
                  end
                else Err JSONDecodeError
            | [] => Err JSONDecodeError
            end
          else Err JSONDecodeError
      | [] => Err JSONDecodeError
      end
  end.

(** [JSONDecoder.decode] after the byte-order-mark check of [json.loads]:
    leading whitespace, one value, trailing whitespace, end of text.  The
    fuel given is enough for any text: the interpreter's recursion limit
    is not modelled. *)
Definition decode (allow_nan : bool) (s : text) : result value :=
  match s with
  | 65279%N :: _ => Err JSONDecodeError
  | _ =>
      '(obj, r) <- scan_once allow_nan (2 * length s + 1) (skip_ws s) ;;
      match skip_ws r with
      | [] => Ok obj
      | _ :: _ => Err JSONDecodeError
      end
  end.

(** [json.loads(s)] with the default decoder. *)
Definition json_loads (s : text) : result value := decode true s.

(** ** The encoder: [json.dump] *)

Definition hexdigit (n : N) : N := if N.ltb n 10 then (48 + n)%N else (87 + n)%N.

(** ['{0:04x}'.format(n)] for [n < 65536]. *)
Definition hex4 (n : N) : text :=
  [ hexdigit (N.shiftr n 12 mod 16); hexdigit (N.shiftr n 8 mod 16);
    hexdigit (N.shiftr n 4 mod 16); hexdigit (n mod 16) ]%N.

(** The replacement of one character in [py_encode_basestring_ascii]:
    [ESCAPE_DCT] for the quote, the backslash and the control characters,
    the character itself from the space to the tilde, a [\uXXXX] escape for
    the rest of the basic plane and a surrogate pair above it. *)
Definition escape_char (c : N) : text :=
  if N.eqb c 34 then [ch "\"; 34%N]
  else if N.eqb c (ch "\") then [ch "\"; ch "\"]
  else if N.eqb c 10 then [ch "\"; ch "n"]
  else if N.eqb c 13 then [ch "\"; ch "r"]
  else if N.eqb c 9 then [ch "\"; ch "t"]
  else if N.eqb c 12 then [ch "\"; ch "f"]
  else if N.eqb c 8 then [ch "\"; ch "b"]
  else if N.leb 32 c && N.leb c 126 then [c]
  else if N.ltb c 65536 then ch "\" :: ch "u" :: hex4 c
  else
    let n := (c - 65536)%N in
    let s1 := N.lor 55296 (N.land (N.shiftr n 10) 1023) in
    let s2 := N.lor 56320 (N.land n 1023) in
    (ch "\" :: ch "u" :: hex4 s1) ++ (ch "\" :: ch "u" :: hex4 s2).

Definition encode_string (s : text) : text :=
  34%N :: flat_map escape_char s ++ [34%N].

Fixpoint text_of_uint (u : Decimal.uint) : text :=
  match u with
  | Decimal.Nil => []
  | Decimal.D0 u' => 48%N :: text_of_uint u'
  | Decimal.D1 u' => 49%N :: text_of_uint u'
  | Decimal.D2 u' => 50%N :: text_of_uint u'
  | Decimal.D3 u' => 51%N :: text_of_uint u'
  | Decimal.D4 u' => 52%N :: text_of_uint u'
  | Decimal.D5 u' => 53%N :: text_of_uint u'
  | Decimal.D6 u' => 54%N :: text_of_uint u'
  | Decimal.D7 u' => 55%N :: text_of_uint u'
  | Decimal.D8 u' => 56%N :: text_of_uint u'
  | Decimal.D9 u' => 57%N :: text_of_uint u'
  end.

Definition pos_repr (p : positive) : text := text_of_uint (Pos.to_uint p).

(** [int.__repr__] (without the limit on the number of digits) *)
Definition int_repr (z : Z) : text :=
  match z with
  | Z0 => [48%N]
  | Zpos p => pos_repr p
  | Zneg p => ch "-" :: pos_repr p
  end.

(** *** [float.__repr__]: the shortest digits that read back as the float *)

Definition float_is (x : spec_float) (m : positive) (e : Z) : bool :=
  match x with
  | S754_finite _ m' e' => Pos.eqb m m' && Z.eqb e e'
  | _ => false
  end.

(** Is [n / d < 10 ^ p]? *)
Definition lt_pow10 (n d p : Z) : bool :=
  (if 0 <=? p then n <? d * 10 ^ p else n * 10 ^ (- p) <? d)%Z.

Fixpoint find_decpt (fuel : nat) (n d p : Z) : Z :=
  match fuel with
  | O => p
  | S fuel' => if lt_pow10 n d p then p else find_decpt fuel' n d (p + 1)
  end.

(** The decimal exponent [p] of [n / d]: [10 ^ (p - 1) <= n / d < 10 ^ p],
    searched upwards from an estimate by the binary logarithm that is at
    most three below it. *)
Definition decpt_of (n d : Z) : Z :=
  find_decpt 5 n d ((Z.log2 n - Z.log2 d) * 30103 / 100000 - 1).

(** With [i] digits, the two decimals around [m * 2 ^ e]; of those that
    read back as the float take the nearer one (the even one on a tie), or
    go on with one more digit.  The result [(D, k)] stands for [D * 10 ^ k]. *)
Fixpoint shortest_digits (fuel : nat) (m : positive) (e : Z) (p i : Z)
  : Z * Z :=
  let n := (if 0 <=? e then Z.pos m * 2 ^ e else Z.pos m)%Z in
  let d := (if 0 <=? e then 1 else 2 ^ (- e))%Z in
  let k := (p - i)%Z in
  let n' := (if 0 <=? k then n else n * 10 ^ (- k))%Z in
  let d' := (if 0 <=? k then d * 10 ^ k else d)%Z in
  let lo := (n' / d')%Z in
  let hi := (lo + 1)%Z in
  let ok_lo := float_is (float_of_decimal false lo k) m e in
  let ok_hi := float_is (float_of_decimal false hi k) m e in
  let lo_nearer :=
    ((2 * n' <? (2 * lo + 1) * d')
     || ((2 * n' =? (2 * lo + 1) * d') && Z.even lo))%Z in
  match fuel with
  | O => (lo, k)
  | S fuel' =>
      if ok_lo && ok_hi then (if lo_nearer then lo else hi, k)
      else if ok_lo then (lo, k)
      else if ok_hi then (hi, k)
      else shortest_digits fuel' m e p (i + 1)
  end.

Fixpoint drop_zeros (ds : text) : text :=
  match ds with
  | c :: ds' => if N.eqb c 48 then drop_zeros ds' else ds
  | [] => []
  end.

Definition strip_trailing_zeros (ds : text) : text := rev (drop_zeros (rev ds)).

(** The exponent of the scientific notation: a sign and at least two
    digits. *)
Definition exp_repr (ex : Z) : text :=
  (if (ex <? 0)%Z then ch "-" else ch "+")
    :: (if (Z.abs ex <? 10)%Z then [48%N] else []) ++ int_repr (Z.abs ex).

(** [format_float_short] with the format code [r]: the digits [ds] with the
    decimal point after the first [decpt] of them; scientific notation when
    [decpt <= -4] or [decpt > 16], and [.0] added to a number that would
    look like an integer. *)
Definition format_float_short (ds : text) (decpt : Z) : text :=
  if ((-4 <? decpt) && (decpt <=? 16))%Z then
    if (decpt <=? 0)%Z then
      T "0." ++ repeat 48%N (Z.to_nat (- decpt)) ++ ds
    else if (Z.of_nat (length ds) <=? decpt)%Z then
      ds ++ repeat 48%N (Z.to_nat decpt - length ds) ++ T ".0"
    else
      firstn (Z.to_nat decpt) ds ++ ch "." :: skipn (Z.to_nat decpt) ds
  else
    firstn 1 ds
      ++ match skipn 1 ds with [] => [] | r => ch "." :: r end
      ++ ch "e" :: exp_repr (decpt - 1).

Definition float_repr (x : spec_float) : text :=
  match x with
  | S754_zero s => if s then T "-0.0" else T "0.0"
  | S754_infinity s => if s then T "-inf" else T "inf"
  | S754_nan => T "nan"
  | S754_finite s m e =>
      let n := (if 0 <=? e then Z.pos m * 2 ^ e else Z.pos m)%Z in
      let d := (if 0 <=? e then 1 else 2 ^ (- e))%Z in
      let '(D, k) := shortest_digits 17 m e (decpt_of n d) 1 in
      let ds := pos_repr (Z.to_pos D) in
      (if s then [ch "-"] else [])
        ++ format_float_short (strip_trailing_zeros ds)
             (k + Z.of_nat (length ds))
  end.

(** [floatstr] of [json.encoder], with [allow_nan=True]. *)
Definition floatstr (o : spec_float) : text :=
  match o with
  | S754_nan => T "NaN"
  | S754_infinity false => T "Infinity"
  | S754_infinity true => T "-Infinity"
  | _ => float_repr o
  end.

(** [JSONEncoder.iterencode] with the default separators, all chunks
    joined. *)
Fixpoint encode (o : value) : text :=
  match o with
  | VNone => T "null"
  | VBool true => T "true"
  | VBool false => T "false"
  | VInt z => int_repr z
  | VFloat f => floatstr f
  | VStr s => encode_string s
  | VList [] => T "[]"
  | VList (x :: l) =>
      ch "[" :: encode x
        ++ flat_map (fun y => T ", " ++ encode y) l ++ [ch "]"]
  | VDict [] => T "{}"
  | VDict ((k, x) :: d) =>
      ch "{" :: encode_string k ++ T ": " ++ encode x
        ++ flat_map (fun kv => T ", " ++ encode_string (fst kv) ++ T ": "
                                 ++ encode (snd kv)) d
        ++ [ch "}"]
  end.

Definition json_dumps (o : value) : text := encode o.

(** ** The process: standard streams and the wall clock *)

(** A reading of the wall clock is a finite binary fraction
    [mantissa * 2 ^ exponent] of seconds since the epoch. *)
Definition reading := (Z * Z)%type.

Definition float_of_reading (r : reading) : spec_float :=
  match fst r with
  | Z0 => S754_zero false
  | Zpos m => S754_finite false m (snd r)
  | Zneg m => S754_finite true m (snd r)
  end.

(** The world of one run: what is left to read on standard input, what has
    been written to standard output, the wall clock (its successive
    readings) and how many times it has been read. *)
Record world : Type := {
  stdin : text;
  stdout : text;
  clock : nat -> reading;
  clock_reads : nat
}.

Definition M (A : Type) : Type := world -> result A * world.

Definition ret {A} (a : A) : M A := fun w => (Ok a, w).

Definition raise {A} (e : exn) : M A := fun w => (Err e, w).

Definition bindM {A B} (m : M A) (k : A -> M B) : M B :=
  fun w =>
    match m w with
    | (Ok a, w') => k a w'
    | (Err e, w') => (Err e, w')
    end.

Definition lift {A} (r : result A) : M A := fun w => (r, w).

Declare Scope io_scope.
Delimit Scope io_scope with io.
Notation "x <- m ;; k" := (bindM m (fun x => k))
  (at level 61, m at next level, right associativity) : io_scope.

(** [json.load(sys.stdin)]: reads the stream to its end and decodes it. *)
Definition json_load_stdin : M value :=
  fun w =>
    (json_loads (stdin w),
     {| stdin := []; stdout := stdout w;
        clock := clock w; clock_reads := clock_reads w |}).

(** [time.time()] *)
Definition time_time : M spec_float :=
  fun w =>
    (Ok (float_of_reading (clock w (clock_reads w))),
     {| stdin := stdin w; stdout := stdout w;
        clock := clock w; clock_reads := S (clock_reads w) |}).

(** [json.dump(obj, sys.stdout)] *)
Definition json_dump_stdout (obj : value) : M unit :=
  fun w =>
    (Ok tt,
     {| stdin := stdin w; stdout := stdout w ++ json_dumps obj;
        clock := clock w; clock_reads := clock_reads w |}).

(** ** [main] *)

Definition main : M unit :=
  (data <- json_load_stdin ;;
   data <- lift (setitem data (T "echoed_by") (VStr (T "python"))) ;;
   t <- time_time ;;
   ts <- lift (py_int_of_float t) ;;
   data <- lift (setitem data (T "ts") (VInt ts)) ;;
   json_dump_stdout data)%io.

(** The process started on [input] with the clock [clk]: its exit status
    (0, or 1 after an uncaught exception), the exception and the final
    world. *)
Record outcome : Type := {
  exit_status : Z;
  uncaught : option exn;
  final : world
}.

Definition initial_world (input : text) (clk : nat -> reading) : world :=
  {| stdin := input; stdout := []; clock := clk; clock_reads := 0 |}.

Definition run (input : text) (clk : nat -> reading) : outcome :=
  match main (initial_world input clk) with
  | (Ok _, w) => {| exit_status := 0; uncaught := None; final := w |}
  | (Err e, w) => {| exit_status := 1; uncaught := Some e; final := w |}
  end.

(** ** The JSON grammar (RFC 8259)

    The reference the decoder and the encoder are compared with: texts as
    the grammar generates them, independently of the code above.  With
    [ext := true] the grammar also has the three values [NaN], [Infinity]
    and [-Infinity], which are not JSON. *)

Module Grammar.

(** ws = *( %x20 / %x09 / %x0A / %x0D ) *)
Definition ws_char (c : N) : Prop := c = 32%N \/ c = 9%N \/ c = 10%N \/ c = 13%N.
Definition ws (w : text) : Prop := Forall ws_char w.

(** DIGIT and digit1-9 *)
Definition digit (c : N) : Prop := (48 <= c <= 57)%N.
Definition digit1_9 (c : N) : Prop := (49 <= c <= 57)%N.
Definition digits (t : text) : Prop := Forall digit t.

(** HEXDIG, in either case *)
Definition hexdig (c : N) : Prop :=
  (48 <= c <= 57)%N \/ (65 <= c <= 70)%N \/ (97 <= c <= 102)%N.

(** int = zero / ( digit1-9 *DIGIT ) *)
Inductive int : text -> Prop :=
| int_zero : int [48%N]
| int_digits c ds : digit1_9 c -> digits ds -> int (c :: ds).

(** frac = decimal-point 1*DIGIT, or nothing *)
Inductive opt_frac : text -> Prop :=
| frac_none : opt_frac []
| frac_some c ds : digit c -> digits ds -> opt_frac (46%N :: c :: ds).

(** exp = e [ minus / plus ] 1*DIGIT, or nothing *)
Inductive opt_exp : text -> Prop :=
| exp_none : opt_exp []
| exp_some e sg c ds :
    e = 101%N \/ e = 69%N ->
    sg = [] \/ sg = [45%N] \/ sg = [43%N] ->
    digit c -> digits ds ->
    opt_exp (e :: sg ++ c :: ds).

(** number = [ minus ] int [ frac ] [ exp ] *)
Inductive number : text -> Prop :=
| number_intro minus i f e :
    minus = [] \/ minus = [45%N] ->
    int i -> opt_frac f -> opt_exp e ->
    number (minus ++ i ++ f ++ e).

(** unescaped = %x20-21 / %x23-5B / %x5D-10FFFF *)
Definition unescaped (c : N) : Prop :=
  (32 <= c <= 33)%N \/ (35 <= c <= 91)%N \/ (93 <= c <= 1114111)%N.

(** The characters that may follow the backslash of a short escape. *)
Definition escapable (c : N) : Prop :=
  In c [34; 92; 47; 98; 102; 110; 114; 116]%N.

(** *char *)
Inductive chars : text -> Prop :=
| chars_nil : chars []
| chars_unescaped c t : unescaped c -> chars t -> chars (c :: t)
| chars_escape c t : escapable c -> chars t -> chars (92%N :: c :: t)
| chars_unicode h1 h2 h3 h4 t :
    hexdig h1 -> hexdig h2 -> hexdig h3 -> hexdig h4 -> chars t ->
    chars (92%N :: 117%N :: h1 :: h2 :: h3 :: h4 :: t).

(** string = quotation-mark *char quotation-mark *)
Inductive jstring : text -> Prop :=
| jstring_intro t : chars t -> jstring (34%N :: t ++ [34%N]).

(** value, array, object; [elements] and [members] are the lists between
    the brackets, each item with the whitespace around it. *)
Inductive value (ext : bool) : text -> Prop :=
| value_null : value ext (T "null")
| value_true : value ext (T "true")
| value_false : value ext (T "false")
| value_number n : number n -> value ext n
| value_string s : jstring s -> value ext s
| value_array a : array ext a -> value ext a
| value_object o : object ext o -> value ext o
| value_nan : ext = true -> value ext (T "NaN")
| value_inf : ext = true -> value ext (T "Infinity")
| value_neginf : ext = true -> value ext (T "-Infinity")

with array (ext : bool) : text -> Prop :=
| array_empty w : ws w -> array ext (91%N :: w ++ [93%N])
| array_elements es : elements ext es -> array ext (91%N :: es ++ [93%N])

with elements (ext : bool) : text -> Prop :=
| elements_one w1 v w2 :
    ws w1 -> value ext v -> ws w2 -> elements ext (w1 ++ v ++ w2)
| elements_cons w1 v w2 es :
    ws w1 -> value ext v -> ws w2 -> elements ext es ->
    elements ext (w1 ++ v ++ w2 ++ 44%N :: es)

with object (ext : bool) : text -> Prop :=
| object_empty w : ws w -> object ext (123%N :: w ++ [125%N])
| object_members ms : members ext ms -> object ext (123%N :: ms ++ [125%N])

with members (ext : bool) : text -> Prop :=
| members_one w1 k w2 w3 v w4 :
    ws w1 -> jstring k -> ws w2 -> ws w3 -> value ext v -> ws w4 ->
    members ext (w1 ++ k ++ w2 ++ 58%N :: w3 ++ v ++ w4)
| members_cons w1 k w2 w3 v w4 ms :
    ws w1 -> jstring k -> ws w2 -> ws w3 -> value ext v -> ws w4 ->
    members ext ms ->
    members ext (w1 ++ k ++ w2 ++ 58%N :: w3 ++ v ++ w4 ++ 44%N :: ms).

(** JSON-text = ws value ws *)
Inductive json_text (ext : bool) : text -> Prop :=
| json_text_intro w1 v w2 :
    ws w1 -> value ext v -> ws w2 -> json_text ext (w1 ++ v ++ w2).

(** A JSON text whose value is an object. *)
Inductive object_text (ext : bool) : text -> Prop :=
| object_text_intro w1 o w2 :
    ws w1 -> object ext o -> ws w2 -> object_text ext (w1 ++ o ++ w2).

Scheme value_mut := Minimality for value Sort Prop
  with array_mut := Minimality for array Sort Prop
  with elements_mut := Minimality for elements Sort Prop
  with object_mut := Minimality for object Sort Prop
  with members_mut := Minimality for members Sort Prop.

Combined Scheme grammar_mutind
  from value_mut, array_mut, elements_mut, object_mut, members_mut.

End Grammar.

(** A text of Unicode code points. *)
Definition unicode_text (t : text) : Prop := Forall (fun c => (c <= 1114111)%N) t.

(** A value without a NaN or an infinity in it. *)
Fixpoint finite_value (o : value) : bool :=
  match o with
  | VFloat (S754_nan) => false
  | VFloat (S754_infinity _) => false
  | VList l => forallb finite_value l
  | VDict d => forallb (fun kv => finite_value (snd kv)) d
  | _ => true
  end.

(** The reading [m * 2 ^ e] truncated towards zero, in integer arithmetic. *)
Definition truncate (r : reading) : Z :=
  let (m, e) := r in
  if (0 <=? e)%Z then (m * 2 ^ e)%Z else Z.quot m (2 ^ (- e)).

(** What [main] leaves in [data] for an input dictionary [d] when the clock
    is read as [r]. *)
Definition echoed (d : dict) (r : reading) : dict :=
  dict_setitem (dict_setitem d (T "echoed_by") (VStr (T "python")))
    (T "ts") (VInt (truncate r)).

(** The keys [main] assigns. *)
Definition is_added_key (k : text) : bool :=
  text_eqb k (T "echoed_by") || text_eqb k (T "ts").

(** What may follow a number for the decoder to stop where the number
    ends: not a digit, a point or an exponent letter. *)
Definition delimited (r : text) : Prop :=
  match r with
  | [] => True
  | c :: _ => is_digit c = false /\ c <> 46%N /\ c <> 101%N /\ c <> 69%N
  end.

Definition no_digit_head (r : text) : Prop :=
  match r with
  | [] => True
  | c :: _ => is_digit c = false
  end.

(** Evaluate the character and text literals of the source. *)
Ltac norm_ch :=
  repeat match goal with
  | |- context [ch ?a] =>
      let v := eval vm_compute in (ch a) in change (ch a) with v
  | H : context [ch ?a] |- _ =>
      let v := eval vm_compute in (ch a) in change (ch a) with v in H
  | |- context [T ?a] =>
      let v := eval vm_compute in (T a) in change (T a) with v
  | H : context [T ?a] |- _ =>
      let v := eval vm_compute in (T a) in change (T a) with v in H
  end.

(** The look-ahead of [scanstring] after a high surrogate: a second
    [\uXXXX] escape, its value when the four digits are hexadecimal, and
    the text after it. *)
Definition second_escape (s : text) : option (option N * text) :=
  match s with
  | b :: u :: g1 :: g2 :: g3 :: g4 :: s4 =>
      if N.eqb b 92 && N.eqb u 117
      then Some (decode_uXXXX g1 g2 g3 g4, s4) else None
  | _ => None
  end.

(** The body of [decode] after the byte-order-mark check. *)
Definition decode_body (ext : bool) (s : text) : result value :=
  ' (obj, r) <- scan_once ext (2 * length s + 1) (skip_ws s) ;;
  match skip_ws r with
  | [] => Ok obj
  | _ :: _ => Err JSONDecodeError
  end.

(** The decoder reads a text of the grammar and stops right after it, given
    two units of fuel per character: a value followed by [r], the elements
    of an array up to the closing bracket, an object, the members of an
    object up to the closing brace. *)
Definition scans_value (ext : bool) (t : text) : Prop :=
  forall r fuel, delimited r -> 2 * length t + 1 <= fuel ->
    exists v, scan_once ext fuel (t ++ r) = Ok (v, r).

Definition scans_elements (ext : bool) (es : text) : Prop :=
  forall r fuel, 2 * length es + 2 <= fuel ->
    exists c1 rr vs,
      skip_ws (es ++ 93%N :: r) = c1 :: rr /\ c1 <> 93%N
      /\ array_loop ext fuel (c1 :: rr) = Ok (vs, r).

Definition scans_object (ext : bool) (o : text) : Prop :=
  forall r fuel, 2 * length o + 1 <= fuel ->
    exists d, scan_once ext fuel (o ++ r) = Ok (VDict d, r).

Definition scans_members (ext : bool) (ms : text) : Prop :=
  forall r fuel, 2 * length ms + 2 <= fuel ->
    exists rr ps,
      skip_ws (ms ++ 125%N :: r) = 34%N :: rr
      /\ object_loop ext fuel rr = Ok (ps, r).

(** Reassociate appended texts. *)
Ltac app_eq :=
  repeat (progress (cbn [app]) || rewrite <- app_assoc); reflexivity.

Ltac norm_len H :=
  repeat (progress (cbn [length] in H) || rewrite length_app in H).

Ltac norm_app := repeat (progress (cbn [app]) || rewrite <- app_assoc).


(** A number of the grammar without a minus sign. *)
Definition unsigned_number (n : text) : Prop :=
  exists i f e,
    n = i ++ f ++ e /\ Grammar.int i /\ Grammar.opt_frac f /\ Grammar.opt_exp e.

(** A clock for the examples: every reading is 1700000000 seconds and a
    fraction. *)
Definition example_clock : nat -> reading :=
  fun _ => (7130316800000001, -22)%Z.

(** The integer [ts] is the reading [r] with its fraction cut off: equal to
    it when the reading is an integer, and otherwise the integer of the same
    sign whose magnitude is the whole part of the reading's magnitude. *)
Definition whole_seconds (r : reading) (ts : Z) : Prop :=
  let (m, e) := r in
  if (0 <=? e)%Z then ts = (m * 2 ^ e)%Z
  else (Z.abs ts * 2 ^ (- e) <= Z.abs m < (Z.abs ts + 1) * 2 ^ (- e))%Z
       /\ (0 <= m -> 0 <= ts)%Z /\ (m <= 0 -> ts <= 0)%Z.

(** How a run ends after the uncaught exception [e], raised before the clock
    is read and before anything is written. *)
Definition failed (e : exn) (clk : nat -> reading) : outcome :=
  {| exit_status := 1; uncaught := Some e;
     final := {| stdin := []; stdout := []; clock := clk; clock_reads := 0 |} |}.

(** A text of ASCII characters: its UTF-8 encoding is the text itself. *)
Definition ascii_text (t : text) : Prop := Forall (fun c => (c < 128)%N) t.

(** Is [k] a key of [d]? *)
Definition has_key (d : dict) (k : text) : bool :=
  existsb (fun k' => text_eqb k' k) (dict_keys d).

(** A text of printable ASCII characters, from the space to the tilde: no
    control character, no line break, nothing beyond ASCII. *)
Definition printable_text (t : text) : Prop :=
  Forall (fun c => (32 <= c <= 126)%N) t.

(** No high surrogate is immediately followed by a low surrogate: the two
    would be written as two escapes and read back as one character. *)
Fixpoint no_split_pair (s : text) : bool :=
  match s with
  | c :: s' =>
      match s' with
      | c' :: _ => negb (is_high_surrogate c && is_low_surrogate c')
      | [] => true
      end && no_split_pair s'
  | [] => true
  end.

(** A string the encoder and the decoder agree on: code points up to
    U+10FFFF and no split surrogate pair. *)
Definition str_ok (s : text) : bool :=
  forallb (fun c => N.leb c 1114111) s && no_split_pair s.

(** Equality of floats as data: the same sign, mantissa and exponent. *)
Definition float_eqb (x y : spec_float) : bool :=
  match x, y with
  | S754_zero a, S754_zero b => Bool.eqb a b
  | S754_infinity a, S754_infinity b => Bool.eqb a b
  | S754_nan, S754_nan => true
  | S754_finite a m e, S754_finite b m' e' =>
      Bool.eqb a b && Pos.eqb m m' && Z.eqb e e'
  | _, _ => false
  end.

(** [float(repr(f)) == f], bit for bit.  The encoder writes a NaN and the
    infinities by name and not by their [repr]. *)
Definition reads_back (f : spec_float) : bool :=
  match f with
  | S754_nan | S754_infinity _ => true
  | _ => float_eqb (py_float_of_text (float_repr f)) f
  end.

Fixpoint distinct (ks : list text) : bool :=
  match ks with
  | k :: ks' => negb (existsb (fun k' => text_eqb k' k) ks') && distinct ks'
  | [] => true
  end.

(** A value that the encoder writes without loss: its strings and keys are
    [str_ok], its floats read back from their [repr], and no dictionary in
    it has a key twice. *)
Fixpoint portable (v : value) : bool :=
  match v with
  | VFloat f => reads_back f
  | VStr s => str_ok s
  | VList l => forallb portable l
  | VDict d =>
      forallb (fun kv => str_ok (fst kv) && portable (snd kv)) d
      && distinct (map fst d)
  | _ => true
  end.

(** The elements after the first and the members after the first, as
    [encode] writes them. *)
Definition more_elements (l : list value) : text :=
  flat_map (fun y => T ", " ++ encode y) l.

Definition more_members (d : dict) : text :=
  flat_map (fun kv => T ", " ++ encode_string (fst kv) ++ T ": "
                        ++ encode (snd kv)) d.

(** A text of Unicode scalar values: code points up to U+10FFFF that are
    not surrogates, which is what a decoded UTF-8 stream holds. *)
Definition scalar (c : N) : Prop := (c < 55296 \/ 57343 < c <= 1114111)%N.

Definition scalar_text (t : text) : Prop := Forall scalar t.

(** Every float in the value reads back from its [repr]. *)
Fixpoint exact_floats (v : value) : bool :=
  match v with
  | VFloat f => reads_back f
  | VList l => forallb exact_floats l
  | VDict d => forallb (fun kv => exact_floats (snd kv)) d
  | _ => true
  end.

Definition starts_low (s : text) : bool :=
  match s with
  | c :: _ => is_low_surrogate c
  | [] => false
  end.

(** A value whose only obstacle to being portable is its floats. *)
Definition kept (v : value) : Prop :=
  exact_floats v = true -> portable v = true.

Definition kept_pair (kv : text * value) : Prop :=
  str_ok (fst kv) = true /\ kept (snd kv).

(** ** The metadata block

    Lines 1 to 12 of [src/echo.py], from [/*---DOC---] to [---END---*/],
    hold one record. *)
Record metadata : Type := {
  doc_object : string;
  doc_language : string;
  doc_summary : string;
  doc_entry : string;
  doc_main : string;
  doc_timeout_ms : N;
  doc_inputs : list (string * string);
  doc_outputs : list (string * string)
}.

Definition header : metadata :=
  {| doc_object := "demo.echo_python";
     doc_language := "python";
     doc_summary := "Echoes a JSON object with an added timestamp.";
     doc_entry := "stdio-json";
     doc_main := "main";
     doc_timeout_ms := 2000;
     doc_inputs := [("in"%string, "json"%string)];
     doc_outputs := [("out"%string, "json"%string)] |}.

(** A source file of the repository: the block and the program after it. *)
Record source_file : Type := {
  doc : metadata;
  program : M unit
}.

Definition echo_py : source_file := {| doc := header; program := main |}.

(** Modelled from the spec: the harness that starts a script is code of the
    repository outside [src/].  The block is not Python, so a file is not
    started by handing it to the interpreter as it is.  The spec says of
    the block that it "is treated as inert documentation, not parsed or
    enforced by the script itself", that it is "consumed by whatever
    external harness invokes this component", and of the invocation that
    it "reads one JSON document from standard input, writes one JSON
    document to standard output", with a timeout that is "advisory
    metadata for an external caller, not self-enforced".  So the harness
    keeps the record to itself and runs the program of the file on the
    standard streams. *)
Definition launch (f : source_file) (input : text) (clk : nat -> reading)
  : outcome :=
  match program f (initial_world input clk) with
  | (Ok _, w) => {| exit_status := 0; uncaught := None; final := w |}
  | (Err e, w) => {| exit_status := 1; uncaught := Some e; final := w |}
  end.

(** * Properties *)

(** ** Text and dictionaries *)

Lemma text_eqb_eq (a b : text) : text_eqb a b = true <-> a = b.
Proof.
  revert b; induction a as [|x a IH]; intros [|y b]; simpl; split;
    try congruence; try discriminate.
  - intros H. apply andb_true_iff in H as [H1 H2].
    apply N.eqb_eq in H1. apply IH in H2. congruence.
  - intros H. injection H as -> ->. rewrite N.eqb_refl. simpl. now apply IH.
Qed.

Lemma text_eqb_refl (a : text) : text_eqb a a = true.
Proof. now apply text_eqb_eq. Qed.

Lemma text_eqb_neq (a b : text) : text_eqb a b = false <-> a <> b.
Proof.
  split.
  - intros H E. apply text_eqb_eq in E. congruence.
  - intros H. destruct (text_eqb a b) eqn:E; [|reflexivity].
    apply text_eqb_eq in E. contradiction.
Qed.

Lemma text_eqb_sym (a b : text) : text_eqb a b = text_eqb b a.
Proof.
  destruct (text_eqb a b) eqn:E.
  - apply text_eqb_eq in E. subst. symmetry. apply text_eqb_refl.
  - symmetry. apply text_eqb_neq. apply text_eqb_neq in E. congruence.
Qed.

Lemma dict_get_setitem_eq (d : dict) k v :
  dict_get (dict_setitem d k v) k = Some v.
Proof.
  induction d as [|[k' v'] d IH]; simpl.
  - now rewrite text_eqb_refl.
  - destruct (text_eqb k' k) eqn:E; simpl; rewrite E; auto.
Qed.

Lemma dict_get_setitem_ne (d : dict) k k' v :
  k <> k' -> dict_get (dict_setitem d k v) k' = dict_get d k'.
Proof.
  intros Hne. induction d as [|[k0 v0] d IH]; simpl.
  - apply text_eqb_neq in Hne. now rewrite Hne.
  - destruct (text_eqb k0 k) eqn:E; simpl.
    + apply text_eqb_eq in E. subst k0.
      apply text_eqb_neq in Hne. now rewrite Hne.
    + destruct (text_eqb k0 k'); auto.
Qed.

Lemma dict_get_None (d : dict) k :
  dict_get d k = None <-> ~ In k (dict_keys d).
Proof.
  induction d as [|[k0 v0] d IH]; simpl.
  - tauto.
  - destruct (text_eqb k0 k) eqn:E.
    + apply text_eqb_eq in E. split; [discriminate | tauto].
    + apply text_eqb_neq in E. rewrite IH. tauto.
Qed.

(** A new key goes to the end. *)
Lemma dict_setitem_new (d : dict) k v :
  ~ In k (dict_keys d) -> dict_setitem d k v = d ++ [(k, v)].
Proof.
  induction d as [|[k0 v0] d IH]; simpl; intros H; [reflexivity|].
  destruct (text_eqb k0 k) eqn:E.
  - apply text_eqb_eq in E. tauto.
  - f_equal. apply IH. tauto.
Qed.

(** The keys after an assignment: the same list, with the key added at the
    end when it is new. *)
Lemma dict_keys_setitem (d : dict) k v :
  dict_keys (dict_setitem d k v) =
  if existsb (fun k' => text_eqb k' k) (dict_keys d)
  then dict_keys d else dict_keys d ++ [k].
Proof.
  induction d as [|[k0 v0] d IH]; simpl; [reflexivity|].
  destruct (text_eqb k0 k) eqn:E; simpl; [reflexivity|].
  rewrite IH. now destruct (existsb _ _).
Qed.

Lemma existsb_key_In (ks : list text) k :
  existsb (fun k' => text_eqb k' k) ks = true <-> In k ks.
Proof.
  rewrite existsb_exists. split.
  - intros (x & Hx & E). apply text_eqb_eq in E. now subst.
  - intros H. exists k. split; [assumption | apply text_eqb_refl].
Qed.

Lemma dict_setitem_NoDup (d : dict) k v :
  NoDup (dict_keys d) -> NoDup (dict_keys (dict_setitem d k v)).
Proof.
  intros H. rewrite dict_keys_setitem.
  destruct (existsb _ _) eqn:E; [assumption|].
  apply NoDup_app; [assumption | repeat constructor; simpl; tauto |].
  intros x Hx [<-|[]].
  apply existsb_key_In in Hx. congruence.
Qed.

(** The entries under the other keys, in their order, do not change. *)
Lemma dict_setitem_filter (d : dict) k v (keep : text -> bool) :
  keep k = false ->
  filter (fun kv => keep (fst kv)) (dict_setitem d k v) =
  filter (fun kv => keep (fst kv)) d.
Proof.
  intros Hk. induction d as [|[k0 v0] d IH]; simpl.
  - now rewrite Hk.
  - destruct (text_eqb k0 k) eqn:E; simpl.
    + apply text_eqb_eq in E. subst k0. now rewrite Hk.
    + now rewrite IH.
Qed.

Lemma dict_of_pairs_NoDup (pairs : list (text * value)) :
  NoDup (dict_keys (dict_of_pairs pairs)).
Proof.
  unfold dict_of_pairs.
  assert (G : forall acc, NoDup (dict_keys acc) ->
    NoDup (dict_keys (fold_left
      (fun d kv => dict_setitem d (fst kv) (snd kv)) pairs acc))).
  { induction pairs as [|[k v] pairs IH]; simpl; intros acc H; [assumption|].
    apply IH. now apply dict_setitem_NoDup. }
  apply G. constructor.
Qed.

(** ** The three ways a run ends *)

Lemma py_int_of_reading (r : reading) :
  py_int_of_float (float_of_reading r) = Ok (truncate r).
Proof.
  destruct r as [m e]. unfold float_of_reading, truncate. simpl fst. simpl snd.
  destruct m as [|p|p]; cbn [py_int_of_float].
  - destruct (0 <=? e)%Z; [now rewrite Z.mul_0_l | reflexivity].
  - f_equal. destruct (Z.leb_spec 0 e) as [He|He].
    + now apply Z.shiftl_mul_pow2.
    + rewrite Z.shiftl_div_pow2 by lia.
      symmetry. apply Z.quot_div_nonneg; [lia|].
      apply Z.pow_pos_nonneg; lia.
  - f_equal. destruct (Z.leb_spec 0 e) as [He|He].
    + rewrite Z.shiftl_mul_pow2 by assumption.
      change (Z.neg p) with (- Z.pos p)%Z. now rewrite Z.mul_opp_l.
    + rewrite Z.shiftl_div_pow2 by lia.
      change (Z.neg p) with (- Z.pos p)%Z.
      assert (Hpow : (0 < 2 ^ (- e))%Z) by (apply Z.pow_pos_nonneg; lia).
      rewrite Z.quot_opp_l by lia.
      f_equal. symmetry. apply Z.quot_div_nonneg; lia.
Qed.

Lemma run_decode_error input clk e :
  json_loads input = Err e -> run input clk = failed e clk.
Proof.
  intros H. unfold run, main, bindM, json_load_stdin, initial_world.
  cbn [stdin stdout clock clock_reads]. now rewrite H.
Qed.

Lemma run_not_dict input clk v :
  json_loads input = Ok v -> (forall d, v <> VDict d) ->
  run input clk = failed TypeError clk.
Proof.
  intros H Hv. unfold run, main, bindM, json_load_stdin, lift, initial_world.
  cbn [stdin stdout clock clock_reads]. rewrite H.
  destruct v; try reflexivity. now elim (Hv d).
Qed.

Lemma run_dict input clk d :
  json_loads input = Ok (VDict d) ->
  run input clk =
  {| exit_status := 0; uncaught := None;
     final := {| stdin := [];
                 stdout := json_dumps (VDict (echoed d (clk O)));
                 clock := clk; clock_reads := 1 |} |}.
Proof.
  intros H.
  unfold run, main, bindM, json_load_stdin, lift, time_time, json_dump_stdout,
    initial_world.
  cbn [stdin stdout clock clock_reads]. rewrite H.
  cbn [setitem]. rewrite py_int_of_reading. cbn [setitem app]. reflexivity.
Qed.

(** Every run ends in one of these three ways. *)
Lemma run_cases input clk :
  (exists e, json_loads input = Err e /\ run input clk = failed e clk)
  \/ (exists v, json_loads input = Ok v /\ (forall d, v <> VDict d)
                /\ run input clk = failed TypeError clk)
  \/ (exists d, json_loads input = Ok (VDict d)
                /\ run input clk =
                   {| exit_status := 0; uncaught := None;
                      final := {| stdin := [];
                                  stdout := json_dumps (VDict (echoed d (clk O)));
                                  clock := clk; clock_reads := 1 |} |}).
Proof.
  destruct (json_loads input) as [v|e] eqn:H.
  - destruct v as [| | | | | |d];
      try (right; left; eexists; split; [reflexivity|]; split;
           [discriminate | eapply run_not_dict; [eassumption | discriminate]]).
    right; right. exists d. split; [reflexivity | now apply run_dict].
  - left. exists e. split; [reflexivity | now apply run_decode_error].
Qed.

(** ** Whitespace and digits *)

Lemma is_ws_iff c : is_ws c = true <-> Grammar.ws_char c.
Proof.
  unfold is_ws, Grammar.ws_char.
  rewrite !orb_true_iff, !N.eqb_eq. tauto.
Qed.

Lemma is_digit_iff c : is_digit c = true <-> Grammar.digit c.
Proof.
  unfold is_digit, Grammar.digit.
  rewrite andb_true_iff, !N.leb_le. tauto.
Qed.

Lemma skip_ws_app w s : Grammar.ws w -> skip_ws (w ++ s) = skip_ws s.
Proof.
  induction 1 as [|c w Hc Hw IH]; simpl; [reflexivity|].
  apply is_ws_iff in Hc. now rewrite Hc.
Qed.

Lemma skip_ws_id c s : is_ws c = false -> skip_ws (c :: s) = c :: s.
Proof. intros H. simpl. now rewrite H. Qed.

Lemma skip_ws_split s : exists w, Grammar.ws w /\ s = w ++ skip_ws s.
Proof.
  induction s as [|c s (w & Hw & E)]; simpl.
  - exists []. split; [constructor | reflexivity].
  - destruct (is_ws c) eqn:Hc.
    + exists (c :: w). split.
      * constructor; [now apply is_ws_iff | assumption].
      * simpl. now f_equal.
    + exists []. split; [constructor | reflexivity].
Qed.

Lemma skip_ws_length s : length (skip_ws s) <= length s.
Proof.
  induction s as [|c s IH]; simpl; [lia|].
  destruct (is_ws c); simpl; lia.
Qed.

Lemma skip_ws_head s c r : skip_ws s = c :: r -> is_ws c = false.
Proof.
  induction s as [|c0 s IH]; simpl; [discriminate|].
  destruct (is_ws c0) eqn:E; [assumption|].
  intros H. injection H as -> ->. assumption.
Qed.

Lemma span_digits_spec s d r :
  span_digits s = (d, r) ->
  s = d ++ r /\ Grammar.digits d /\ no_digit_head r.
Proof.
  revert d r. induction s as [|c s IH]; simpl; intros d r H.
  - injection H as <- <-. repeat split; constructor.
  - destruct (is_digit c) eqn:Hc.
    + destruct (span_digits s) as [d' r'] eqn:E.
      injection H as <- <-.
      destruct (IH _ _ eq_refl) as (-> & Hd & Hr).
      repeat split; [|assumption].
      constructor; [now apply is_digit_iff | assumption].
    + injection H as <- <-. repeat split; [constructor | exact Hc].
Qed.

Lemma span_digits_app ds r :
  Grammar.digits ds -> no_digit_head r -> span_digits (ds ++ r) = (ds, r).
Proof.
  intros Hd Hr. induction Hd as [|c ds Hc Hd IH]; cbn [app span_digits].
  - destruct r as [|c r]; [reflexivity|]. cbn [span_digits].
    unfold no_digit_head in Hr. now rewrite Hr.
  - apply is_digit_iff in Hc. now rewrite Hc, IH.
Qed.

Lemma span_digits_length s d r :
  span_digits s = (d, r) -> length s = length d + length r.
Proof.
  intros H. apply span_digits_spec in H as (-> & _). apply length_app.
Qed.

(** ** Numbers *)

Lemma match_integer_sound s i r :
  match_integer s = Some (i, r) ->
  exists minus n, i = minus ++ n /\ (minus = [] \/ minus = [45%N])
                  /\ Grammar.int n /\ s = i ++ r.
Proof.
  unfold match_integer. norm_ch.
  assert (G : forall sign s1, s = sign ++ s1 ->
    (sign = [] \/ sign = [45%N]) ->
    match s1 with
    | [] => None
    | c :: s2 =>
        if (c =? 48)%N then Some (sign ++ [c], s2)
        else if is_digit c
             then let (d, r0) := span_digits s2 in Some (sign ++ c :: d, r0)
             else None
    end = Some (i, r) ->
    exists minus n, i = minus ++ n /\ (minus = [] \/ minus = [45%N])
                    /\ Grammar.int n /\ s = i ++ r).
  { intros sign s1 -> Hsign H. destruct s1 as [|c s2]; [discriminate|].
    destruct (N.eqb_spec c 48) as [->|Hc0].
    - injection H as <- <-. exists sign, [48%N].
      repeat split; [assumption | constructor | now rewrite <- app_assoc].
    - destruct (is_digit c) eqn:Hc; [|discriminate].
      destruct (span_digits s2) as [d r0] eqn:E. injection H as <- <-.
      apply span_digits_spec in E as (-> & Hd & _).
      apply is_digit_iff in Hc. exists sign, (c :: d).
      repeat split; [assumption | | now rewrite <- app_assoc].
      constructor; [unfold Grammar.digit, Grammar.digit1_9 in *; lia | assumption]. }
  destruct s as [|c s']; [discriminate|].
  destruct (N.eqb_spec c 45) as [->|Hc].
  - apply (G [45%N] s'); [reflexivity | now right].
  - apply (G [] (c :: s')); [reflexivity | now left].
Qed.

Lemma match_integer_complete minus i r :
  minus = [] \/ minus = [45%N] -> Grammar.int i -> no_digit_head r ->
  match_integer (minus ++ i ++ r) = Some (minus ++ i, r).
Proof.
  intros Hm Hi Hr. unfold match_integer. norm_ch.
  assert (G : forall sign,
    match i ++ r with
    | [] => None
    | c :: s2 =>
        if (c =? 48)%N then Some (sign ++ [c], s2)
        else if is_digit c
             then let (d, r0) := span_digits s2 in Some (sign ++ c :: d, r0)
             else None
    end = Some (sign ++ i, r)).
  { intros sign. destruct Hi as [|c ds Hc Hds]; cbn [app].
    - reflexivity.
    - destruct (N.eqb_spec c 48) as [->|Hc0];
        [unfold Grammar.digit1_9 in Hc; lia|].
      assert (Hd : is_digit c = true)
        by (apply is_digit_iff; unfold Grammar.digit, Grammar.digit1_9 in *; lia).
      rewrite Hd, (span_digits_app ds r Hds Hr). reflexivity. }
  destruct Hm as [->| ->]; cbn [app].
  - specialize (G []).
    destruct Hi as [|c ds Hc Hds]; cbn [app] in *.
    + exact G.
    + destruct (N.eqb_spec c 45) as [->|Hc45];
        [unfold Grammar.digit1_9 in Hc; lia | exact G].
  - rewrite N.eqb_refl. apply (G [45%N]).
Qed.

Lemma match_frac_sound s f r :
  match_frac s = Some (f, r) ->
  Grammar.opt_frac f /\ f <> [] /\ s = f ++ r.
Proof.
  unfold match_frac. norm_ch. destruct s as [|c s']; [discriminate|].
  destruct (N.eqb_spec c 46) as [->|Hc]; [|discriminate].
  destruct (span_digits s') as [d r0] eqn:E.
  apply span_digits_spec in E as (-> & Hd & _).
  destruct d as [|c ds]; [discriminate|]. intros H. injection H as <- <-.
  inversion Hd; subst. repeat split; [now constructor | discriminate].
Qed.

Lemma match_frac_complete f r :
  Grammar.opt_frac f -> f <> [] -> no_digit_head r ->
  match_frac (f ++ r) = Some (f, r).
Proof.
  intros Hf Hne Hr. destruct Hf as [|c ds Hc Hds]; [congruence|].
  unfold match_frac. norm_ch. cbn [app]. rewrite N.eqb_refl.
  change (c :: ds ++ r) with ((c :: ds) ++ r).
  rewrite span_digits_app; [reflexivity | now constructor | assumption].
Qed.

Lemma match_frac_none s :
  match s with [] => True | c :: _ => c <> 46%N end -> match_frac s = None.
Proof.
  unfold match_frac. norm_ch. destruct s as [|c s']; [reflexivity|].
  intros H. now destruct (N.eqb_spec c 46).
Qed.

Lemma match_exp_sound s e r :
  match_exp s = Some (e, r) ->
  Grammar.opt_exp e /\ e <> [] /\ s = e ++ r.
Proof.
  unfold match_exp. norm_ch. destruct s as [|c s']; [discriminate|].
  destruct ((c =? 101)%N || (c =? 69)%N) eqn:Hc; [|discriminate].
  apply orb_true_iff in Hc. rewrite !N.eqb_eq in Hc.
  assert (G : forall sg s2, s' = sg ++ s2 ->
    (sg = [] \/ sg = [45%N] \/ sg = [43%N]) ->
    match span_digits s2 with
    | ([], _) => None
    | (d, r0) => Some (c :: sg ++ d, r0)
    end = Some (e, r) ->
    Grammar.opt_exp e /\ e <> [] /\ c :: s' = e ++ r).
  { intros sg s2 -> Hsg H. destruct (span_digits s2) as [d r0] eqn:E.
    apply span_digits_spec in E as (-> & Hd & _).
    destruct d as [|c0 ds]; [discriminate|]. injection H as <- <-.
    inversion Hd; subst. repeat split.
    - now constructor.
    - discriminate.
    - cbn [app]. now rewrite <- app_assoc. }
  destruct s' as [|c2 s''].
  - apply (G [] []); auto.
  - destruct ((c2 =? 45)%N || (c2 =? 43)%N) eqn:Hc2.
    + apply orb_true_iff in Hc2. rewrite !N.eqb_eq in Hc2.
      apply (G [c2] s''); [reflexivity|]. destruct Hc2 as [-> | ->]; auto.
    + apply (G [] (c2 :: s'')); auto.
Qed.

Lemma match_exp_complete e r :
  Grammar.opt_exp e -> e <> [] -> no_digit_head r ->
  match_exp (e ++ r) = Some (e, r).
Proof.
  intros He Hne Hr. destruct He as [|e0 sg c ds He0 Hsg Hc Hds]; [congruence|].
  unfold match_exp. norm_ch. cbn [app].
  assert (E0 : ((e0 =? 101)%N || (e0 =? 69)%N) = true).
  { apply orb_true_iff. rewrite !N.eqb_eq. assumption. }
  rewrite E0.
  assert (Hsp : span_digits (c :: ds ++ r) = (c :: ds, r)).
  { change (c :: ds ++ r) with ((c :: ds) ++ r).
    apply span_digits_app; [now constructor | assumption]. }
  destruct Hsg as [-> | [-> | ->]]; cbn [app].
  - assert (E2 : ((c =? 45)%N || (c =? 43)%N) = false).
    { apply orb_false_iff. rewrite !N.eqb_neq.
      unfold Grammar.digit in Hc. lia. }
    rewrite E2, Hsp. reflexivity.
  - change ((45 =? 45)%N || (45 =? 43)%N) with true. cbv iota.
    rewrite Hsp. reflexivity.
  - change ((43 =? 45)%N || (43 =? 43)%N) with true. cbv iota.
    rewrite Hsp. reflexivity.
Qed.

Lemma match_exp_none s :
  match s with [] => True | c :: _ => c <> 101%N /\ c <> 69%N end ->
  match_exp s = None.
Proof.
  unfold match_exp. norm_ch. destruct s as [|c s']; [reflexivity|].
  intros [H1 H2].
  destruct (N.eqb_spec c 101); [contradiction|].
  destruct (N.eqb_spec c 69); [contradiction|]. reflexivity.
Qed.

Lemma optional_frac_sound s f r :
  optional match_frac s = (f, r) -> Grammar.opt_frac f /\ s = f ++ r.
Proof.
  unfold optional. destruct (match_frac s) as [[f' r']|] eqn:E; intros H;
    injection H as <- <-.
  - apply match_frac_sound in E as (Hf & _ & ->). now split.
  - split; [constructor | reflexivity].
Qed.

Lemma optional_exp_sound s e r :
  optional match_exp s = (e, r) -> Grammar.opt_exp e /\ s = e ++ r.
Proof.
  unfold optional. destruct (match_exp s) as [[e' r']|] eqn:E; intros H;
    injection H as <- <-.
  - apply match_exp_sound in E as (He & _ & ->). now split.
  - split; [constructor | reflexivity].
Qed.

Lemma match_number_sound s v r :
  match_number s = Some (v, r) ->
  exists n, Grammar.number n /\ s = n ++ r /\ (forall d, v <> VDict d).
Proof.
  unfold match_number.
  destruct (match_integer s) as [[i r1]|] eqn:Ei; [|discriminate].
  apply match_integer_sound in Ei as (minus & n0 & -> & Hm & Hn0 & ->).
  destruct (optional match_frac r1) as [f r2] eqn:Ef.
  apply optional_frac_sound in Ef as (Hf & ->).
  destruct (optional match_exp r2) as [e r3] eqn:Ee.
  apply optional_exp_sound in Ee as (He & ->).
  intros H. exists (minus ++ n0 ++ f ++ e).
  assert (Hr : r = r3 /\ forall d, v <> VDict d).
  { destruct f, e; injection H as <- <-; split; (reflexivity || discriminate). }
  destruct Hr as [-> Hv]. split; [|split].
  - constructor; assumption.
  - now rewrite <- !app_assoc.
  - assumption.
Qed.

Lemma delimited_no_digit r : delimited r -> no_digit_head r.
Proof. destruct r; simpl; tauto. Qed.

Lemma match_number_complete n r :
  Grammar.number n -> delimited r ->
  exists v, match_number (n ++ r) = Some (v, r) /\ (forall d, v <> VDict d).
Proof.
  intros Hn Hr. destruct Hn as [minus i f e Hm Hi Hf He].
  pose proof (delimited_no_digit r Hr) as Hnd.
  assert (Hnd_e : no_digit_head (e ++ r)).
  { destruct He as [|e0 sg c ds He0 _ _ _]; [assumption|].
    cbn [app no_digit_head]. unfold is_digit.
    destruct He0 as [-> | ->]; reflexivity. }
  assert (Hnd_f : no_digit_head (f ++ e ++ r)).
  { destruct Hf; [assumption | reflexivity]. }
  unfold match_number.
  replace ((minus ++ i ++ f ++ e) ++ r) with (minus ++ i ++ (f ++ e ++ r))
    by now rewrite <- !app_assoc.
  rewrite (match_integer_complete minus i _ Hm Hi Hnd_f).
  assert (Ef : optional match_frac (f ++ e ++ r) = (f, e ++ r)).
  { unfold optional. destruct f as [|c0 f'].
    - rewrite match_frac_none; [reflexivity|]. cbn [app].
      destruct He as [|e0 sg c ds He0 _ _ _]; cbn [app].
      + destruct r; [exact I | apply Hr].
      + destruct He0 as [-> | ->]; discriminate.
    - rewrite (match_frac_complete _ _ Hf); [reflexivity | discriminate | assumption]. }
  rewrite Ef.
  assert (Ee : optional match_exp (e ++ r) = (e, r)).
  { unfold optional. destruct e as [|c0 e'].
    - rewrite match_exp_none; [reflexivity|]. cbn [app].
      destruct r; [exact I | split; apply Hr].
    - rewrite (match_exp_complete _ _ He); [reflexivity | discriminate | assumption]. }
  rewrite Ee.
  destruct f, e; eexists; (split; [reflexivity | discriminate]).
Qed.

(** A number starts with a minus sign or a digit. *)
Lemma number_head n :
  Grammar.number n ->
  exists c t, n = c :: t /\ (c = 45%N \/ Grammar.digit c).
Proof.
  intros [minus i f e Hm Hi _ _].
  destruct Hm as [-> | ->]; cbn [app].
  - destruct Hi as [|c ds Hc _]; cbn [app]; eexists _, _; (split; [reflexivity|]);
      right; unfold Grammar.digit, Grammar.digit1_9 in *; lia.
  - eexists _, _. split; [reflexivity | now left].
Qed.

(** ** Strings *)

Lemma cons_char_Ok c r str rest :
  cons_char c r = Ok (str, rest) ->
  exists str', r = Ok (str', rest) /\ str = c :: str'.
Proof.
  destruct r as [[str' rest']|e]; simpl; [|discriminate].
  intros H. injection H as <- <-. now exists str'.
Qed.

Lemma hexval_Some c a : hexval c = Some a -> Grammar.hexdig c.
Proof.
  unfold hexval, Grammar.hexdig, is_digit.
  destruct (N.leb_spec 48 c), (N.leb_spec c 57); cbn [andb]; try (intros; lia).
  all: destruct (N.leb_spec 97 c), (N.leb_spec c 102); cbn [andb]; try (intros; lia).
  all: destruct (N.leb_spec 65 c), (N.leb_spec c 70); cbn [andb]; try (intros; lia).
  all: discriminate.
Qed.

Lemma hexdig_hexval c : Grammar.hexdig c -> exists a, hexval c = Some a.
Proof.
  unfold hexval, Grammar.hexdig, is_digit. intros H.
  destruct (N.leb_spec 48 c), (N.leb_spec c 57); cbn [andb]; eauto.
  all: destruct (N.leb_spec 97 c), (N.leb_spec c 102); cbn [andb]; eauto.
  all: destruct (N.leb_spec 65 c), (N.leb_spec c 70); cbn [andb]; eauto.
  all: lia.
Qed.

Lemma decode_uXXXX_Some h1 h2 h3 h4 u :
  decode_uXXXX h1 h2 h3 h4 = Some u ->
  Grammar.hexdig h1 /\ Grammar.hexdig h2 /\ Grammar.hexdig h3 /\ Grammar.hexdig h4.
Proof.
  unfold decode_uXXXX.
  destruct (hexval h1) eqn:E1; [|discriminate].
  destruct (hexval h2) eqn:E2; [|discriminate].
  destruct (hexval h3) eqn:E3; [|discriminate].
  destruct (hexval h4) eqn:E4; [|discriminate].
  intros _. repeat split; eapply hexval_Some; eassumption.
Qed.

Lemma hexdig_decode_uXXXX h1 h2 h3 h4 :
  Grammar.hexdig h1 -> Grammar.hexdig h2 -> Grammar.hexdig h3 ->
  Grammar.hexdig h4 -> exists u, decode_uXXXX h1 h2 h3 h4 = Some u.
Proof.
  intros H1 H2 H3 H4. unfold decode_uXXXX.
  destruct (hexdig_hexval _ H1) as [a ->], (hexdig_hexval _ H2) as [b ->],
    (hexdig_hexval _ H3) as [c ->], (hexdig_hexval _ H4) as [d ->].
  eauto.
Qed.

Lemma backslash_Some esc c : backslash esc = Some c -> Grammar.escapable esc.
Proof.
  unfold backslash, Grammar.escapable. norm_ch.
  repeat match goal with
  | |- context [N.eqb esc ?k] =>
      destruct (N.eqb_spec esc k) as [->|?]; [intros _; simpl; tauto|]
  end.
  discriminate.
Qed.

Lemma escapable_backslash esc :
  Grammar.escapable esc -> esc <> 117%N /\ exists c, backslash esc = Some c.
Proof.
  unfold Grammar.escapable. simpl.
  intros [<-|[<-|[<-|[<-|[<-|[<-|[<-|[<-|[]]]]]]]]];
    (split; [discriminate | eexists; reflexivity]).
Qed.

(** [scanstring] at a [\uXXXX] escape, with the look-ahead named. *)
Lemma scanstring_unicode h1 h2 h3 h4 s3 :
  scanstring (92%N :: 117%N :: h1 :: h2 :: h3 :: h4 :: s3) =
  match decode_uXXXX h1 h2 h3 h4 with
  | None => Err JSONDecodeError
  | Some uni =>
      if is_high_surrogate uni then
        match second_escape s3 with
        | Some (None, _) => Err JSONDecodeError
        | Some (Some uni2, s4) =>
            if is_low_surrogate uni2
            then cons_char (join_surrogates uni uni2) (scanstring s4)
            else cons_char uni (scanstring s3)
        | None => cons_char uni (scanstring s3)
        end
      else cons_char uni (scanstring s3)
  end.
Proof.
  cbn [scanstring]. norm_ch. cbn [N.eqb Pos.eqb].
  destruct (decode_uXXXX h1 h2 h3 h4) as [uni|]; [|reflexivity].
  destruct (is_high_surrogate uni); [|reflexivity].
  unfold second_escape.
  destruct s3 as [|b [|u [|g1 [|g2 [|g3 [|g4 s4]]]]]]; try reflexivity.
  destruct ((b =? 92)%N && (u =? 117)%N); reflexivity.
Qed.

Lemma second_escape_Some s o s4 :
  second_escape s = Some (o, s4) ->
  exists g1 g2 g3 g4,
    s = 92%N :: 117%N :: g1 :: g2 :: g3 :: g4 :: s4
    /\ o = decode_uXXXX g1 g2 g3 g4.
Proof.
  unfold second_escape.
  destruct s as [|b [|u [|g1 [|g2 [|g3 [|g4 s4']]]]]]; try discriminate.
  destruct (N.eqb_spec b 92) as [->|]; [|discriminate].
  destruct (N.eqb_spec u 117) as [->|]; [|discriminate].
  cbn [andb]. intros H. injection H as <- <-. now exists g1, g2, g3, g4.
Qed.

Lemma second_escape_other s :
  match s with
  | b :: u :: _ => b <> 92%N \/ u <> 117%N
  | _ => True
  end -> second_escape s = None.
Proof.
  unfold second_escape.
  destruct s as [|b [|u [|g1 [|g2 [|g3 [|g4 s4']]]]]]; try reflexivity.
  intros [H|H].
  - destruct (N.eqb_spec b 92); [contradiction | reflexivity].
  - destruct (N.eqb_spec u 117); [contradiction|]. now rewrite andb_false_r.
Qed.

Lemma scanstring_sound :
  forall n s str r,
    length s <= n -> unicode_text s -> scanstring s = Ok (str, r) ->
    exists t, s = t ++ 34%N :: r /\ Grammar.chars t.
Proof.
  induction n as [|n IH]; intros s str r Hlen Hu H.
  { destruct s; [discriminate | simpl in Hlen; lia]. }
  destruct s as [|c s1]; [discriminate|].
  inversion Hu as [|? ? Hc Hu1]; subst.
  cbn [length] in Hlen.
  assert (step : forall c0 pre s', length s' <= n -> unicode_text s' ->
            Grammar.chars pre ->
            (forall t, Grammar.chars t -> Grammar.chars (pre ++ t)) ->
            cons_char c0 (scanstring s') = Ok (str, r) ->
            exists t, pre ++ s' = t ++ 34%N :: r /\ Grammar.chars t).
  { intros c0 pre s' Hl Hus _ Hpre Hc0.
    apply cons_char_Ok in Hc0 as (str' & Hs' & _).
    destruct (IH _ _ _ Hl Hus Hs') as (t & -> & Ht).
    exists (pre ++ t). split; [now rewrite <- app_assoc | now apply Hpre]. }
  destruct (N.eqb_spec c 34) as [->|Hq].
  { cbn [scanstring] in H. norm_ch. cbn [N.eqb Pos.eqb] in H.
    injection H as <- <-. exists []. split; [reflexivity | constructor]. }
  destruct (N.eqb_spec c 92) as [->|Hb].
  - destruct s1 as [|esc s2]; [discriminate|].
    inversion Hu1 as [|? ? Hesc Hu2]; subst. cbn [length] in Hlen.
    destruct (N.eqb_spec esc 117) as [->|Hesc_u].
    + destruct s2 as [|h1 [|h2 [|h3 [|h4 s3]]]]; try discriminate.
      rewrite scanstring_unicode in H.
      destruct (decode_uXXXX h1 h2 h3 h4) as [uni|] eqn:Ed; [|discriminate].
      apply decode_uXXXX_Some in Ed as (Hh1 & Hh2 & Hh3 & Hh4).
      assert (Hu3 : unicode_text s3).
      { inversion Hu2 as [|? ? _ Hx]; subst. inversion Hx as [|? ? _ Hy]; subst.
        inversion Hy as [|? ? _ Hz]; subst. now inversion Hz. }
      cbn [length] in Hlen.
      assert (plain : cons_char uni (scanstring s3) = Ok (str, r) ->
                exists t, 92%N :: 117%N :: h1 :: h2 :: h3 :: h4 :: s3
                          = t ++ 34%N :: r /\ Grammar.chars t).
      { apply (step uni [92; 117; h1; h2; h3; h4]%N s3); try assumption; try lia.
        - apply Grammar.chars_unicode; try assumption. constructor.
        - intros t Ht. now apply Grammar.chars_unicode. }
      destruct (is_high_surrogate uni); [|now apply plain].
      destruct (second_escape s3) as [[[uni2|] s4]|] eqn:E2;
        [|discriminate|now apply plain].
      apply second_escape_Some in E2 as (g1 & g2 & g3 & g4 & -> & Eg).
      symmetry in Eg. apply decode_uXXXX_Some in Eg as (Hg1 & Hg2 & Hg3 & Hg4).
      destruct (is_low_surrogate uni2); [|now apply plain].
      cbn [length] in Hlen.
      apply (step (join_surrogates uni uni2)
               [92; 117; h1; h2; h3; h4; 92; 117; g1; g2; g3; g4]%N s4);
        try assumption; try lia.
      * inversion Hu3 as [|? ? _ Hx]; subst. inversion Hx as [|? ? _ Hy]; subst.
        inversion Hy as [|? ? _ Hz]; subst. inversion Hz as [|? ? _ Hw]; subst.
        inversion Hw as [|? ? _ Hv]; subst. now inversion Hv.
      * apply Grammar.chars_unicode; try assumption.
        apply Grammar.chars_unicode; try assumption. constructor.
      * intros t Ht. cbn [app]. apply Grammar.chars_unicode; try assumption.
        now apply Grammar.chars_unicode.
    + cbn [scanstring] in H. norm_ch.
      change ((92 =? 34)%N) with false in H. change ((92 =? 92)%N) with true in H.
      cbv iota in H.
      destruct (N.eqb_spec esc 117) as [|_]; [contradiction|].
      destruct (backslash esc) as [c'|] eqn:Eb; [|discriminate].
      apply backslash_Some in Eb.
      apply (step c' [92%N; esc] s2); try assumption; try lia.
      * apply Grammar.chars_escape; [assumption | constructor].
      * intros t Ht. now apply Grammar.chars_escape.
  - cbn [scanstring] in H. norm_ch.
    destruct (N.eqb_spec c 34) as [|_]; [contradiction|].
    destruct (N.eqb_spec c 92) as [|_]; [contradiction|].
    destruct (N.ltb_spec c 32) as [|Hge]; [discriminate|].
    assert (Hun : Grammar.unescaped c) by (unfold Grammar.unescaped; lia).
    apply (step c [c] s1); try assumption; try lia.
    + apply Grammar.chars_unescaped; [assumption | constructor].
    + intros t Ht. now apply Grammar.chars_unescaped.
Qed.

Lemma scanstring_length :
  forall n s str r,
    length s <= n -> scanstring s = Ok (str, r) -> length r < length s.
Proof.
  induction n as [|n IH]; intros s str r Hlen H.
  { destruct s; [discriminate | simpl in Hlen; lia]. }
  destruct s as [|c s1]; [discriminate|]. cbn [length] in *.
  assert (step : forall c0 s', length s' <= n ->
            cons_char c0 (scanstring s') = Ok (str, r) ->
            length r < length s').
  { intros c0 s' Hl Hc0. apply cons_char_Ok in Hc0 as (str' & Hs' & _).
    now apply (IH _ _ _ Hl Hs'). }
  destruct (N.eqb_spec c 34) as [->|Hq].
  { cbn [scanstring] in H. norm_ch. cbn [N.eqb Pos.eqb] in H.
    injection H as <- <-. lia. }
  destruct (N.eqb_spec c 92) as [->|Hb].
  - destruct s1 as [|esc s2]; [discriminate|]. cbn [length] in *.
    destruct (N.eqb_spec esc 117) as [->|Hesc_u].
    + destruct s2 as [|h1 [|h2 [|h3 [|h4 s3]]]]; try discriminate.
      rewrite scanstring_unicode in H. cbn [length] in *.
      destruct (decode_uXXXX h1 h2 h3 h4) as [uni|]; [|discriminate].
      assert (plain : cons_char uni (scanstring s3) = Ok (str, r) ->
                length r < S (S (S (S (S (S (length s3))))))).
      { intros Hp. apply step in Hp; lia. }
      destruct (is_high_surrogate uni); [|now apply plain].
      destruct (second_escape s3) as [[[uni2|] s4]|] eqn:E2;
        [|discriminate|now apply plain].
      apply second_escape_Some in E2 as (g1 & g2 & g3 & g4 & -> & _).
      destruct (is_low_surrogate uni2); [|now apply plain].
      cbn [length] in *. apply step in H; lia.
    + cbn [scanstring] in H. norm_ch.
      change ((92 =? 34)%N) with false in H. change ((92 =? 92)%N) with true in H.
      cbv iota in H.
      destruct (N.eqb_spec esc 117) as [|_]; [contradiction|].
      destruct (backslash esc) as [c'|]; [|discriminate].
      apply step in H; lia.
  - cbn [scanstring] in H. norm_ch.
    destruct (N.eqb_spec c 34) as [|_]; [contradiction|].
    destruct (N.eqb_spec c 92) as [|_]; [contradiction|].
    destruct (N.ltb_spec c 32) as [|Hge]; [discriminate|].
    apply step in H; lia.
Qed.

Lemma scanstring_complete :
  forall n t, length t <= n -> Grammar.chars t ->
    forall r, exists str, scanstring (t ++ 34%N :: r) = Ok (str, r).
Proof.
  induction n as [|n IH]; intros t Hlen Ht r.
  { destruct t; [|simpl in Hlen; lia]. exists []. reflexivity. }
  assert (step : forall c0 t', length t' <= n -> Grammar.chars t' ->
            exists str, cons_char c0 (scanstring (t' ++ 34%N :: r)) = Ok (str, r)).
  { intros c0 t' Hl Ht'. destruct (IH _ Hl Ht' r) as (str & ->).
    now exists (c0 :: str). }
  destruct Ht as [|c t' Hc Ht'|c t' Hc Ht'|h1 h2 h3 h4 t' H1 H2 H3 H4 Ht'];
    cbn [length app] in *.
  - exists []. reflexivity.
  - cbn [scanstring]. norm_ch. unfold Grammar.unescaped in Hc.
    destruct (N.eqb_spec c 34) as [|_]; [lia|].
    destruct (N.eqb_spec c 92) as [|_]; [lia|].
    destruct (N.ltb_spec c 32) as [|_]; [lia|].
    apply step; [lia | assumption].
  - cbn [scanstring]. norm_ch.
    change ((92 =? 34)%N) with false. change ((92 =? 92)%N) with true. cbv iota.
    destruct (escapable_backslash _ Hc) as (Hne & c' & ->).
    destruct (N.eqb_spec c 117) as [|_]; [contradiction|].
    apply step; [lia | assumption].
  - rewrite scanstring_unicode.
    destruct (hexdig_decode_uXXXX _ _ _ _ H1 H2 H3 H4) as (uni & ->).
    assert (plain : exists str,
              cons_char uni (scanstring (t' ++ 34%N :: r)) = Ok (str, r))
      by (apply step; [lia | assumption]).
    destruct (is_high_surrogate uni); [|assumption].
    destruct Ht' as [|c t'' Hc Ht''|c t'' Hc Ht''|g1 g2 g3 g4 t'' G1 G2 G3 G4 Ht''];
      cbn [length app] in *.
    + rewrite second_escape_other; [assumption|].
      destruct r; [exact I | left; discriminate].
    + rewrite second_escape_other; [assumption|].
      unfold Grammar.unescaped in Hc.
      destruct (t'' ++ 34%N :: r); [exact I | left; lia].
    + destruct (escapable_backslash _ Hc) as (Hne & _).
      rewrite second_escape_other; [assumption | now right].
    + unfold second_escape. cbn [N.eqb Pos.eqb andb].
      destruct (hexdig_decode_uXXXX _ _ _ _ G1 G2 G3 G4) as (uni2 & ->).
      destruct (is_low_surrogate uni2); [|assumption].
      apply step; [lia | assumption].
Qed.

(** ** Values: what the decoder accepts is in the grammar *)

Lemma bind_Ok {A B} (r : result A) (k : A -> result B) b :
  bind r k = Ok b -> exists a, r = Ok a /\ k a = Ok b.
Proof. destruct r as [a|e]; simpl; [eauto | discriminate]. Qed.

Lemma strip_prefix_Some p s r : strip_prefix p s = Some r -> s = p ++ r.
Proof.
  revert s. induction p as [|x p IH]; intros [|y s]; simpl; try congruence.
  destruct (N.eqb_spec x y) as [->|]; [|discriminate].
  intros H. f_equal. now apply IH.
Qed.

Lemma strip_prefix_app p r : strip_prefix p (p ++ r) = Some r.
Proof.
  induction p as [|x p IH]; simpl; [now destruct r|].
  now rewrite N.eqb_refl.
Qed.

Lemma match_literal_sound lits s v r :
  match_literal lits s = Some (v, r) ->
  exists name, In (name, v) lits /\ s = name ++ r.
Proof.
  induction lits as [|[name v0] lits IH]; simpl; [discriminate|].
  destruct (strip_prefix name s) as [r0|] eqn:E.
  - intros H. injection H as <- <-. apply strip_prefix_Some in E. eauto.
  - intros H. destruct (IH H) as (n & Hn & ->). eauto.
Qed.

Lemma unicode_text_app_r a b : unicode_text (a ++ b) -> unicode_text b.
Proof. unfold unicode_text. rewrite Forall_app. tauto. Qed.

Lemma unicode_text_skip_ws s : unicode_text s -> unicode_text (skip_ws s).
Proof.
  destruct (skip_ws_split s) as (w & _ & E). rewrite E at 1.
  apply unicode_text_app_r.
Qed.

Lemma unicode_text_tl c s : unicode_text (c :: s) -> unicode_text s.
Proof. now inversion 1. Qed.

Lemma ws_app w1 w2 : Grammar.ws w1 -> Grammar.ws w2 -> Grammar.ws (w1 ++ w2).
Proof. unfold Grammar.ws. rewrite Forall_app. tauto. Qed.

Lemma elements_ws ext w es :
  Grammar.ws w -> Grammar.elements ext es -> Grammar.elements ext (w ++ es).
Proof.
  intros Hw [w1 v w2 H1 Hv H2 | w1 v w2 es' H1 Hv H2 Hes]; rewrite app_assoc.
  - apply Grammar.elements_one; auto using ws_app.
  - apply Grammar.elements_cons; auto using ws_app.
Qed.

Lemma members_ws ext w ms :
  Grammar.ws w -> Grammar.members ext ms -> Grammar.members ext (w ++ ms).
Proof.
  intros Hw [w1 k w2 w3 v w4 H1 Hk H2 H3 Hv H4
            | w1 k w2 w3 v w4 ms' H1 Hk H2 H3 Hv H4 Hms]; rewrite app_assoc.
  - apply Grammar.members_one; auto using ws_app.
  - apply Grammar.members_cons; auto using ws_app.
Qed.

Lemma ws_nil : Grammar.ws [].
Proof. constructor. Qed.

Lemma literal_sound ext name v :
  In (name, v) json_literals -> Grammar.value ext name.
Proof.
  simpl. intros [H|[H|[H|[]]]]; injection H as <- _; constructor.
Qed.

Lemma nan_constant_sound name v :
  In (name, v) nan_constants -> Grammar.value true name.
Proof.
  simpl. intros [H|[H|[H|[]]]]; injection H as <- _;
    constructor; reflexivity.
Qed.

Theorem decoder_sound ext fuel :
  (forall s v r, unicode_text s -> scan_once ext fuel s = Ok (v, r) ->
     exists t, s = t ++ r /\ Grammar.value ext t)
  /\ (forall s vs r, unicode_text s -> array_loop ext fuel s = Ok (vs, r) ->
        exists es, s = es ++ 93%N :: r /\ Grammar.elements ext es)
  /\ (forall s ps r, unicode_text s -> object_loop ext fuel s = Ok (ps, r) ->
        exists ms, 34%N :: s = ms ++ 125%N :: r /\ Grammar.members ext ms).
Proof.
  induction fuel as [|f (IHv & IHa & IHo)];
    [repeat split; intros; discriminate|].
  split; [|split].
  - (* scan_once *)
    intros s v r Hu H. destruct s as [|c s1]; [discriminate|].
    cbn [scan_once] in H. norm_ch.
    pose proof (unicode_text_tl _ _ Hu) as Hu1.
    destruct (N.eqb_spec c 34) as [->|_].
    { apply bind_Ok in H as ([str r0] & Hs & H). injection H as <- <-.
      destruct (scanstring_sound _ _ _ _ (le_n _) Hu1 Hs) as (t & -> & Ht).
      exists (34%N :: t ++ [34%N]). split; [app_eq|].
      apply Grammar.value_string. now constructor. }
    destruct (N.eqb_spec c 123) as [->|_].
    { destruct (skip_ws_split s1) as (w & Hw & E).
      pose proof (unicode_text_skip_ws _ Hu1) as Hu2.
      destruct (skip_ws s1) as [|c1 r1]; [discriminate|].
      destruct (N.eqb_spec c1 125) as [->|_].
      { injection H as <- <-. exists (123%N :: w ++ [125%N]).
        split; [rewrite E; app_eq|].
        apply Grammar.value_object. now constructor. }
      destruct (N.eqb_spec c1 34) as [->|_]; [|discriminate].
      apply bind_Ok in H as ([pairs r'] & Ho & H). injection H as <- <-.
      apply IHo in Ho as (ms & Ems & Hms); [|now apply unicode_text_tl in Hu2].
      exists (123%N :: (w ++ ms) ++ [125%N]).
      split; [rewrite E, Ems; app_eq|].
      apply Grammar.value_object, Grammar.object_members.
      now apply members_ws. }
    destruct (N.eqb_spec c 91) as [->|_].
    { destruct (skip_ws_split s1) as (w & Hw & E).
      pose proof (unicode_text_skip_ws _ Hu1) as Hu2.
      destruct (skip_ws s1) as [|c1 r1]; [discriminate|].
      destruct (N.eqb_spec c1 93) as [->|_].
      { injection H as <- <-. exists (91%N :: w ++ [93%N]).
        split; [rewrite E; app_eq|].
        apply Grammar.value_array. now constructor. }
      apply bind_Ok in H as ([values r'] & Ha & H). injection H as <- <-.
      apply IHa in Ha as (es & Ees & Hes); [|assumption].
      exists (91%N :: (w ++ es) ++ [93%N]).
      split; [rewrite E, Ees; app_eq|].
      apply Grammar.value_array, Grammar.array_elements.
      now apply elements_ws. }
    destruct (match_literal json_literals (c :: s1)) as [[v0 r0]|] eqn:El.
    { injection H as <- <-.
      apply match_literal_sound in El as (name & Hin & ->).
      exists name. split; [reflexivity | eapply literal_sound; eassumption]. }
    destruct (match_number (c :: s1)) as [[v0 r0]|] eqn:En.
    { injection H as <- <-.
      apply match_number_sound in En as (n & Hn & -> & _).
      exists n. split; [reflexivity | now apply Grammar.value_number]. }
    destruct (match_literal nan_constants (c :: s1)) as [[v0 r0]|] eqn:Ec;
      [|discriminate].
    destruct ext; [|discriminate]. injection H as <- <-.
    apply match_literal_sound in Ec as (name & Hin & ->).
    exists name. split; [reflexivity | eapply nan_constant_sound; eassumption].
  - (* array_loop *)
    intros s vs r Hu H. cbn [array_loop] in H. norm_ch.
    apply bind_Ok in H as ([v r0] & Hv & H).
    apply IHv in Hv as (t & -> & Ht); [|assumption].
    apply unicode_text_app_r in Hu.
    destruct (skip_ws_split r0) as (w2 & Hw2 & E2).
    pose proof (unicode_text_skip_ws _ Hu) as Hu2.
    destruct (skip_ws r0) as [|c r1]; [discriminate|].
    destruct (N.eqb_spec c 93) as [->|_].
    { injection H as <- <-. exists ([] ++ t ++ w2).
      split; [rewrite E2; app_eq|].
      apply Grammar.elements_one; auto using ws_nil. }
    destruct (N.eqb_spec c 44) as [->|_]; [|discriminate].
    apply bind_Ok in H as ([values r2] & Ha & H). injection H as <- <-.
    apply unicode_text_tl in Hu2.
    destruct (skip_ws_split r1) as (w3 & Hw3 & E3).
    apply IHa in Ha as (es & Ees & Hes); [|now apply unicode_text_skip_ws].
    exists ([] ++ t ++ w2 ++ 44%N :: (w3 ++ es)).
    split; [rewrite E2, E3, Ees; app_eq|].
    apply Grammar.elements_cons; auto using ws_nil, elements_ws.
  - (* object_loop *)
    intros s ps r Hu H. cbn [object_loop] in H. norm_ch.
    apply bind_Ok in H as ([key r0] & Hk & H).
    destruct (scanstring_sound _ _ _ _ (le_n _) Hu Hk) as (kt & -> & Hkt).
    apply unicode_text_app_r, unicode_text_tl in Hu.
    destruct (skip_ws_split r0) as (w2 & Hw2 & E2).
    pose proof (unicode_text_skip_ws _ Hu) as Hu2.
    destruct (skip_ws r0) as [|c r1]; [discriminate|].
    destruct (N.eqb_spec c 58) as [->|_]; [|discriminate].
    apply bind_Ok in H as ([v r2] & Hv & H).
    apply unicode_text_tl in Hu2.
    destruct (skip_ws_split r1) as (w3 & Hw3 & E3).
    pose proof (unicode_text_skip_ws _ Hu2) as Hu3.
    apply IHv in Hv as (t & Et & Ht); [|assumption].
    rewrite Et in Hu3. apply unicode_text_app_r in Hu3.
    destruct (skip_ws_split r2) as (w4 & Hw4 & E4).
    pose proof (unicode_text_skip_ws _ Hu3) as Hu4.
    destruct (skip_ws r2) as [|c2 r3]; [discriminate|].
    assert (Hkey : Grammar.jstring (34%N :: kt ++ [34%N])) by now constructor.
    destruct (N.eqb_spec c2 125) as [->|_].
    { injection H as <- <-.
      exists ([] ++ (34%N :: kt ++ [34%N]) ++ w2 ++ 58%N :: w3 ++ t ++ w4).
      split; [rewrite E2, E3, Et, E4; app_eq|].
      apply Grammar.members_one; auto using ws_nil. }
    destruct (N.eqb_spec c2 44) as [->|_]; [|discriminate].
    apply unicode_text_tl in Hu4.
    destruct (skip_ws_split r3) as (w5 & Hw5 & E5).
    pose proof (unicode_text_skip_ws _ Hu4) as Hu5.
    destruct (skip_ws r3) as [|q r4]; [discriminate|].
    destruct (N.eqb_spec q 34) as [->|_]; [|discriminate].
    apply bind_Ok in H as ([pairs r5] & Ho & H). injection H as <- <-.
    apply IHo in Ho as (ms & Ems & Hms); [|now apply unicode_text_tl in Hu5].
    exists ([] ++ (34%N :: kt ++ [34%N]) ++ w2 ++ 58%N :: w3 ++ t ++ w4
              ++ 44%N :: (w5 ++ ms)).
    split; [rewrite E2, E3, Et, E4, E5, Ems; app_eq|].
    apply Grammar.members_cons; auto using ws_nil, members_ws.
Qed.

Lemma decode_cases ext s :
  decode ext s =
  match s with
  | c :: _ => if N.eqb c 65279 then Err JSONDecodeError else decode_body ext s
  | [] => decode_body ext s
  end.
Proof.
  destruct s as [|c s']; [reflexivity|].
  destruct c as [|p]; [reflexivity|].
  unfold decode. fold (decode_body ext (N.pos p :: s')).
  do 16 (destruct p as [p|p|]; try reflexivity).
Qed.

Lemma decode_Ok ext s v : decode ext s = Ok v -> decode_body ext s = Ok v.
Proof.
  rewrite decode_cases. destruct s as [|c s']; [auto|].
  destruct (N.eqb c 65279); [discriminate | auto].
Qed.

Lemma decode_sound ext s v :
  unicode_text s -> decode ext s = Ok v -> Grammar.json_text ext s.
Proof.
  intros Hu H. apply decode_Ok in H. unfold decode_body in H.
  apply bind_Ok in H as ([obj r] & Hs & G).
  destruct (skip_ws_split s) as (w1 & Hw1 & E1).
  apply (proj1 (decoder_sound ext _)) in Hs as (t & Et & Ht);
    [|now apply unicode_text_skip_ws].
  destruct (skip_ws_split r) as (w2 & Hw2 & E2).
  destruct (skip_ws r); [|discriminate].
  rewrite E1, Et, E2, app_nil_r. now constructor.
Qed.

(** ** Values: what is in the grammar is accepted *)

Lemma skip_ws_ws_cons w c s :
  Grammar.ws w -> is_ws c = false -> skip_ws (w ++ c :: s) = c :: s.
Proof. intros Hw Hc. rewrite skip_ws_app by assumption. now apply skip_ws_id. Qed.

Lemma ws_char_delimited c s : Grammar.ws_char c -> delimited (c :: s).
Proof.
  unfold Grammar.ws_char, delimited, is_digit.
  intros [-> | [-> | [-> | ->]]]; repeat split; discriminate.
Qed.

Lemma delimited_ws w s :
  Grammar.ws w -> delimited s -> delimited (w ++ s).
Proof.
  intros Hw Hs. destruct Hw as [|c w Hc Hw]; [assumption|].
  now apply ws_char_delimited.
Qed.

Lemma value_head ext v :
  Grammar.value ext v ->
  exists c t, v = c :: t /\
    (In c [110; 116; 102; 45; 34; 91; 123; 78; 73]%N \/ Grammar.digit c).
Proof.
  intros H. destruct H as [| | |n Hn|s Hs|a Ha|o Ho| | |].
  - eexists _, _. split; [reflexivity|]. simpl. tauto.
  - eexists _, _. split; [reflexivity|]. simpl. tauto.
  - eexists _, _. split; [reflexivity|]. simpl. tauto.
  - destruct (number_head _ Hn) as (c & t & -> & [-> | Hc]);
      eexists _, _; (split; [reflexivity|]); simpl; tauto.
  - destruct Hs. eexists _, _. split; [reflexivity|]. simpl. tauto.
  - destruct Ha; eexists _, _; (split; [reflexivity|]); simpl; tauto.
  - destruct Ho; eexists _, _; (split; [reflexivity|]); simpl; tauto.
  - eexists _, _. split; [reflexivity|]. simpl. tauto.
  - eexists _, _. split; [reflexivity|]. simpl. tauto.
  - eexists _, _. split; [reflexivity|]. simpl. tauto.
Qed.

Lemma value_head_plain ext v :
  Grammar.value ext v ->
  exists c t, v = c :: t /\ is_ws c = false /\ c <> 93%N.
Proof.
  intros H. destruct (value_head _ _ H) as (c & t & -> & Hc).
  exists c, t. split; [reflexivity|].
  destruct Hc as [Hc | Hc].
  - simpl in Hc.
    repeat (destruct Hc as [<- | Hc]; [split; [reflexivity | discriminate]|]).
    contradiction.
  - unfold Grammar.digit in Hc. unfold is_ws. split.
    + repeat (apply orb_false_iff; split); apply N.eqb_neq; lia.
    + lia.
Qed.

Lemma literal_none c s :
  c <> 110%N -> c <> 116%N -> c <> 102%N ->
  match_literal json_literals (c :: s) = None.
Proof.
  intros H1 H2 H3. unfold json_literals. norm_ch. cbn [match_literal strip_prefix].
  destruct (N.eqb_spec 110 c); [congruence|].
  destruct (N.eqb_spec 116 c); [congruence|].
  destruct (N.eqb_spec 102 c); [congruence|]. reflexivity.
Qed.

Lemma delimited_close c s :
  c = 93%N \/ c = 44%N \/ c = 125%N -> delimited (c :: s).
Proof.
  unfold delimited, is_digit. intros [-> | [-> | ->]]; repeat split; discriminate.
Qed.

Lemma decoder_complete ext :
  (forall t, Grammar.value ext t -> scans_value ext t)
  /\ (forall a, Grammar.array ext a -> scans_value ext a)
  /\ (forall es, Grammar.elements ext es -> scans_elements ext es)
  /\ (forall o, Grammar.object ext o -> scans_object ext o)
  /\ (forall ms, Grammar.members ext ms -> scans_members ext ms).
Proof.
  apply Grammar.grammar_mutind;
    unfold scans_value, scans_elements, scans_object, scans_members.
  - (* null *)
    intros r [|f] _ Hf; [lia|]. eexists. reflexivity.
  - intros r [|f] _ Hf; [lia|]. eexists. reflexivity.
  - intros r [|f] _ Hf; [lia|]. eexists. reflexivity.
  - (* number *)
    intros n Hn r [|f] Hr Hf; [lia|].
    destruct (match_number_complete _ _ Hn Hr) as (v & Hv & _).
    destruct (number_head _ Hn) as (c & t & -> & Hc).
    cbn [app] in *. cbn [scan_once]. norm_ch.
    assert (Hcc : c <> 34%N /\ c <> 123%N /\ c <> 91%N /\ c <> 110%N
                  /\ c <> 116%N /\ c <> 102%N)
      by (unfold Grammar.digit in Hc; lia).
    destruct Hcc as (H1 & H2 & H3 & H4 & H5 & H6).
    destruct (N.eqb_spec c 34); [contradiction|].
    destruct (N.eqb_spec c 123); [contradiction|].
    destruct (N.eqb_spec c 91); [contradiction|].
    rewrite literal_none by assumption. rewrite Hv. now exists v.
  - (* string *)
    intros s Hs r [|f] _ Hf; [lia|]. destruct Hs as [t Ht].
    norm_app. cbn [scan_once]. norm_ch. cbn [N.eqb Pos.eqb].
    destruct (scanstring_complete _ _ (le_n _) Ht r) as (str & ->).
    eexists. reflexivity.
  - (* array *)
    intros a _ IH r fuel Hr Hf. now apply IH.
  - (* object *)
    intros o _ IH r fuel _ Hf. destruct (IH r fuel Hf) as (d & ->). eauto.
  - intros -> r [|f] _ Hf; [lia|]. eexists. reflexivity.
  - intros -> r [|f] _ Hf; [lia|]. eexists. reflexivity.
  - intros -> r [|f] _ Hf; [lia|]. eexists. reflexivity.
  - (* empty array *)
    intros w Hw r [|f] _ Hf; [lia|]. norm_app. cbn [scan_once]. norm_ch.
    cbn [N.eqb Pos.eqb]. rewrite skip_ws_ws_cons by (assumption || reflexivity).
    cbn [N.eqb Pos.eqb]. eexists. reflexivity.
  - (* array with elements *)
    intros es _ IH r [|f] _ Hf; [lia|]. norm_app. cbn [scan_once]. norm_ch.
    cbn [N.eqb Pos.eqb]. norm_len Hf.
    destruct (IH r f ltac:(lia)) as (c1 & rr & vs & -> & Hc1 & ->).
    destruct (N.eqb_spec c1 93); [contradiction|]. eexists. reflexivity.
  - (* one element *)
    intros w1 v w2 Hw1 Hv IH Hw2 r [|f] Hf; [lia|].
    destruct (value_head_plain _ _ Hv) as (c & t & E & Hc & Hc93).
    norm_len Hf.
    destruct (IH (w2 ++ 93%N :: r) f) as (val & Hval);
      [apply delimited_ws; [assumption | apply delimited_close; tauto] | lia |].
    norm_app. rewrite skip_ws_app by assumption.
    rewrite E in *. cbn [app] in *. rewrite skip_ws_id by assumption.
    exists c, (t ++ w2 ++ 93%N :: r). eexists. split; [reflexivity|].
    split; [assumption|]. cbn [array_loop]. norm_ch. rewrite Hval. cbn [bind].
    rewrite skip_ws_ws_cons by (assumption || reflexivity).
    cbn [N.eqb Pos.eqb]. reflexivity.
  - (* more elements *)
    intros w1 v w2 es Hw1 Hv IH Hw2 _ IHes r [|f] Hf; [lia|].
    destruct (value_head_plain _ _ Hv) as (c & t & E & Hc & Hc93).
    norm_len Hf.
    destruct (IH (w2 ++ 44%N :: es ++ 93%N :: r) f) as (val & Hval);
      [apply delimited_ws; [assumption | apply delimited_close; tauto] | lia |].
    destruct (IHes r f ltac:(lia)) as (c1 & rr & vs & Es & Hc1 & Hloop).
    norm_app. rewrite skip_ws_app by assumption.
    rewrite E in *. cbn [app] in *. rewrite skip_ws_id by assumption.
    exists c, (t ++ w2 ++ 44%N :: es ++ 93%N :: r). eexists.
    split; [reflexivity|].
    split; [assumption|]. cbn [array_loop]. norm_ch. rewrite Hval. cbn [bind].
    rewrite skip_ws_ws_cons by (assumption || reflexivity).
    cbn [N.eqb Pos.eqb]. rewrite Es, Hloop. reflexivity.
  - (* empty object *)
    intros w Hw r [|f] Hf; [lia|]. norm_app. cbn [scan_once]. norm_ch.
    cbn [N.eqb Pos.eqb]. rewrite skip_ws_ws_cons by (assumption || reflexivity).
    cbn [N.eqb Pos.eqb]. eexists. reflexivity.
  - (* object with members *)
    intros ms _ IH r [|f] Hf; [lia|]. norm_app. cbn [scan_once]. norm_ch.
    cbn [N.eqb Pos.eqb]. norm_len Hf.
    destruct (IH r f ltac:(lia)) as (rr & ps & -> & ->).
    cbn [N.eqb Pos.eqb]. eexists. reflexivity.
  - (* one member *)
    intros w1 k w2 w3 v w4 Hw1 Hk Hw2 Hw3 Hv IH Hw4 r [|f] Hf; [lia|].
    destruct (value_head_plain _ _ Hv) as (c & t & E & Hc & Hc93).
    norm_len Hf.
    destruct (IH (w4 ++ 125%N :: r) f) as (val & Hval);
      [apply delimited_ws; [assumption | apply delimited_close; tauto] | lia |].
    destruct Hk as [kt Hkt].
    destruct (scanstring_complete _ _ (le_n _) Hkt
                (w2 ++ 58%N :: w3 ++ v ++ w4 ++ 125%N :: r)) as (key & Hkey).
    norm_app. rewrite skip_ws_app by assumption.
    rewrite skip_ws_id by reflexivity.
    eexists _, _. split; [reflexivity|].
    cbn [object_loop]. norm_ch. rewrite Hkey. cbn [bind].
    rewrite skip_ws_ws_cons by (assumption || reflexivity).
    cbn [N.eqb Pos.eqb]. rewrite skip_ws_app by assumption.
    rewrite E in *. cbn [app] in *. rewrite skip_ws_id by assumption.
    rewrite Hval. cbn [bind].
    rewrite skip_ws_ws_cons by (assumption || reflexivity).
    cbn [N.eqb Pos.eqb]. reflexivity.
  - (* more members *)
    intros w1 k w2 w3 v w4 ms Hw1 Hk Hw2 Hw3 Hv IH Hw4 _ IHms r [|f] Hf; [lia|].
    destruct (value_head_plain _ _ Hv) as (c & t & E & Hc & Hc93).
    norm_len Hf.
    destruct (IH (w4 ++ 44%N :: ms ++ 125%N :: r) f) as (val & Hval);
      [apply delimited_ws; [assumption | apply delimited_close; tauto] | lia |].
    destruct (IHms r f ltac:(lia)) as (rr & ps & Es & Hloop).
    destruct Hk as [kt Hkt].
    destruct (scanstring_complete _ _ (le_n _) Hkt
                (w2 ++ 58%N :: w3 ++ v ++ w4 ++ 44%N :: ms ++ 125%N :: r))
      as (key & Hkey).
    norm_app. rewrite skip_ws_app by assumption.
    rewrite skip_ws_id by reflexivity.
    eexists _, _. split; [reflexivity|].
    cbn [object_loop]. norm_ch. rewrite Hkey. cbn [bind].
    rewrite skip_ws_ws_cons by (assumption || reflexivity).
    cbn [N.eqb Pos.eqb]. rewrite skip_ws_app by assumption.
    rewrite E in *. cbn [app] in *. rewrite skip_ws_id by assumption.
    rewrite Hval. cbn [bind].
    rewrite skip_ws_ws_cons by (assumption || reflexivity).
    cbn [N.eqb Pos.eqb]. rewrite Es. cbn [N.eqb Pos.eqb].
    rewrite Hloop. reflexivity.
Qed.

Lemma ws_head_not_bom w s :
  Grammar.ws w ->
  match s with c :: _ => N.eqb c 65279 = false | [] => True end ->
  match w ++ s with c :: _ => N.eqb c 65279 = false | [] => True end.
Proof.
  intros Hw Hs. destruct Hw as [|c w Hc _]; [assumption|]. cbn [app].
  unfold Grammar.ws_char in Hc. apply N.eqb_neq. lia.
Qed.

Lemma decode_complete_value ext w1 t w2 :
  Grammar.ws w1 -> Grammar.value ext t -> Grammar.ws w2 ->
  exists v, decode ext (w1 ++ t ++ w2) = Ok v
            /\ scan_once ext (2 * length (w1 ++ t ++ w2) + 1) (t ++ w2) = Ok (v, w2).
Proof.
  intros Hw1 Ht Hw2.
  destruct (value_head_plain _ _ Ht) as (c & t' & E & Hc & _).
  destruct (value_head _ _ Ht) as (c0 & t0 & E0 & Hc0).
  assert (Hbom : match w1 ++ t ++ w2 with
                 | c :: _ => N.eqb c 65279 = false | [] => True end).
  { apply ws_head_not_bom; [assumption|]. rewrite E0. cbn [app].
    apply N.eqb_neq. destruct Hc0 as [Hc0 | Hc0].
    - simpl in Hc0. intuition (subst; discriminate).
    - unfold Grammar.digit in Hc0. lia. }
  destruct (proj1 (decoder_complete ext) t Ht w2
              (2 * length (w1 ++ t ++ w2) + 1)) as (v & Hv).
  { rewrite <- (app_nil_r w2). apply delimited_ws; [assumption | exact I]. }
  { rewrite !length_app. lia. }
  exists v. split; [|assumption].
  rewrite decode_cases.
  assert (Hbody : decode_body ext (w1 ++ t ++ w2) = Ok v).
  { unfold decode_body. rewrite skip_ws_app by assumption.
    rewrite E in *. cbn [app] in *. rewrite skip_ws_id by assumption.
    rewrite Hv. cbn [bind].
    rewrite <- (app_nil_r w2), skip_ws_app by assumption. reflexivity. }
  destruct (w1 ++ t ++ w2) as [|c1 s1]; [assumption|].
  now rewrite Hbom.
Qed.

(** Every text of the grammar is decoded (by the decoder as modelled,
    without the interpreter's limits). *)
Lemma decode_complete ext s :
  Grammar.json_text ext s -> exists v, decode ext s = Ok v.
Proof.
  intros [w1 t w2 Hw1 Ht Hw2].
  destruct (decode_complete_value ext w1 t w2 Hw1 Ht Hw2) as (v & Hv & _).
  eauto.
Qed.

(** Every object text is decoded to a dictionary (likewise). *)
Lemma decode_complete_object ext s :
  Grammar.object_text ext s -> exists d, decode ext s = Ok (VDict d).
Proof.
  intros [w1 o w2 Hw1 Ho Hw2].
  destruct (decode_complete_value ext w1 o w2 Hw1
              (Grammar.value_object ext o Ho) Hw2) as (v & Hv & Hs).
  destruct (proj1 (proj2 (proj2 (proj2 (decoder_complete ext)))) o Ho w2
              (2 * length (w1 ++ o ++ w2) + 1)) as (d & Hd).
  { rewrite !length_app. lia. }
  rewrite Hd in Hs. injection Hs as <-. eauto.
Qed.

(** The grammar with the three extra literals contains the JSON grammar. *)
Lemma grammar_ext :
  (forall t, Grammar.value false t -> Grammar.value true t)
  /\ (forall a, Grammar.array false a -> Grammar.array true a)
  /\ (forall es, Grammar.elements false es -> Grammar.elements true es)
  /\ (forall o, Grammar.object false o -> Grammar.object true o)
  /\ (forall ms, Grammar.members false ms -> Grammar.members true ms).
Proof.
  apply Grammar.grammar_mutind; intros; try discriminate;
    try (constructor; assumption).
Qed.

Lemma object_text_ext s :
  Grammar.object_text false s -> Grammar.object_text true s.
Proof.
  intros [w1 o w2 Hw1 Ho Hw2]. constructor; try assumption.
  now apply grammar_ext.
Qed.

Lemma json_text_ext s :
  Grammar.json_text false s -> Grammar.json_text true s.
Proof.
  intros [w1 o w2 Hw1 Ho Hw2]. constructor; try assumption.
  now apply grammar_ext.
Qed.

(** ** The decoder's fuel is enough *)

Lemma match_literal_length lits s v r :
  Forall (fun nv => fst nv <> []) lits ->
  match_literal lits s = Some (v, r) -> length r < length s.
Proof.
  intros Hl H. apply match_literal_sound in H as (name & Hin & ->).
  rewrite Forall_forall in Hl. specialize (Hl _ Hin). cbn [fst] in Hl.
  destruct name; [congruence|]. rewrite length_app. cbn [length]. lia.
Qed.

Lemma json_literals_nonempty : Forall (fun nv => fst nv <> []) json_literals.
Proof. repeat constructor; discriminate. Qed.

Lemma nan_constants_nonempty : Forall (fun nv => fst nv <> []) nan_constants.
Proof. repeat constructor; discriminate. Qed.

Lemma match_number_length s v r :
  match_number s = Some (v, r) -> length r < length s.
Proof.
  intros H. apply match_number_sound in H as (n & Hn & -> & _).
  destruct (number_head _ Hn) as (c & t & -> & _).
  rewrite length_app. cbn [length]. lia.
Qed.

Lemma skip_ws_cons_length s c r : skip_ws s = c :: r -> length r < length s.
Proof.
  intros H. pose proof (skip_ws_length s) as L. rewrite H in L.
  cbn [length] in L. lia.
Qed.

Lemma decoder_length ext fuel :
  (forall s v r, scan_once ext fuel s = Ok (v, r) -> length r < length s)
  /\ (forall s vs r, array_loop ext fuel s = Ok (vs, r) -> length r < length s)
  /\ (forall s ps r, object_loop ext fuel s = Ok (ps, r) -> length r < length s).
Proof.
  induction fuel as [|f (IHv & IHa & IHo)];
    [repeat split; intros; discriminate|].
  split; [|split].
  - intros s v r H. destruct s as [|c s1]; [discriminate|].
    cbn [scan_once] in H. norm_ch. cbn [length].
    destruct (N.eqb c 34).
    { apply bind_Ok in H as ([str r0] & Hs & H). injection H as <- <-.
      apply (scanstring_length _ _ _ _ (le_n _)) in Hs. lia. }
    destruct (N.eqb c 123).
    { destruct (skip_ws s1) as [|c1 r1] eqn:E; [discriminate|].
      apply skip_ws_cons_length in E.
      destruct (N.eqb c1 125); [injection H as <- <-; lia|].
      destruct (N.eqb c1 34); [|discriminate].
      apply bind_Ok in H as ([pairs r'] & Ho & H). injection H as <- <-.
      apply IHo in Ho. lia. }
    destruct (N.eqb c 91).
    { pose proof (skip_ws_length s1) as L.
      destruct (skip_ws s1) as [|c1 r1] eqn:E; [discriminate|].
      cbn [length] in L.
      destruct (N.eqb c1 93); [injection H as <- <-; lia|].
      apply bind_Ok in H as ([values r'] & Ha & H). injection H as <- <-.
      apply IHa in Ha. cbn [length] in Ha. lia. }
    change (S (length s1)) with (length (c :: s1)).
    destruct (match_literal json_literals (c :: s1)) as [[v0 r0]|] eqn:El.
    { injection H as <- <-.
      eapply match_literal_length; [apply json_literals_nonempty | eassumption]. }
    destruct (match_number (c :: s1)) as [[v0 r0]|] eqn:En.
    { injection H as <- <-. eapply match_number_length; eassumption. }
    destruct (match_literal nan_constants (c :: s1)) as [[v0 r0]|] eqn:Ec;
      [|discriminate].
    destruct ext; [|discriminate]. injection H as <- <-.
    eapply match_literal_length; [apply nan_constants_nonempty | eassumption].
  - intros s vs r H. cbn [array_loop] in H. norm_ch.
    apply bind_Ok in H as ([v r0] & Hv & H). apply IHv in Hv.
    destruct (skip_ws r0) as [|c r1] eqn:E; [discriminate|].
    apply skip_ws_cons_length in E.
    destruct (N.eqb c 93); [injection H as <- <-; lia|].
    destruct (N.eqb c 44); [|discriminate].
    apply bind_Ok in H as ([values r2] & Ha & H). injection H as <- <-.
    apply IHa in Ha. pose proof (skip_ws_length r1). lia.
  - intros s ps r H. cbn [object_loop] in H. norm_ch.
    apply bind_Ok in H as ([key r0] & Hk & H).
    apply (scanstring_length _ _ _ _ (le_n _)) in Hk.
    destruct (skip_ws r0) as [|c r1] eqn:E; [discriminate|].
    apply skip_ws_cons_length in E.
    destruct (N.eqb c 58); [|discriminate].
    apply bind_Ok in H as ([v r2] & Hv & H). apply IHv in Hv.
    pose proof (skip_ws_length r1).
    destruct (skip_ws r2) as [|c2 r3] eqn:E2; [discriminate|].
    apply skip_ws_cons_length in E2.
    destruct (N.eqb c2 125); [injection H as <- <-; lia|].
    destruct (N.eqb c2 44); [|discriminate].
    destruct (skip_ws r3) as [|q r4] eqn:E3; [discriminate|].
    apply skip_ws_cons_length in E3.
    destruct (N.eqb q 34); [|discriminate].
    apply bind_Ok in H as ([pairs r5] & Ho & H). injection H as <- <-.
    apply IHo in Ho. lia.
Qed.

Lemma cons_char_Err c r e : cons_char c r = Err e -> r = Err e.
Proof. destruct r as [[? ?]|e']; simpl; congruence. Qed.

Lemma scanstring_Err :
  forall n s e, length s <= n -> scanstring s = Err e -> e = JSONDecodeError.
Proof.
  induction n as [|n IH]; intros s e Hlen H.
  { destruct s; [simpl in H; congruence | simpl in Hlen; lia]. }
  destruct s as [|c s1]; [simpl in H; congruence|]. cbn [length] in *.
  assert (step : forall c0 s', length s' <= n ->
            cons_char c0 (scanstring s') = Err e -> e = JSONDecodeError).
  { intros c0 s' Hl Hc0. apply cons_char_Err in Hc0. now apply (IH _ _ Hl Hc0). }
  destruct (N.eqb_spec c 34) as [->|Hq].
  { cbn [scanstring] in H. norm_ch. cbn [N.eqb Pos.eqb] in H. discriminate. }
  destruct (N.eqb_spec c 92) as [->|Hb].
  - destruct s1 as [|esc s2]; [simpl in H; congruence|]. cbn [length] in *.
    destruct (N.eqb_spec esc 117) as [->|Hesc_u].
    + destruct s2 as [|h1 [|h2 [|h3 [|h4 s3]]]]; try (simpl in H; congruence).
      rewrite scanstring_unicode in H. cbn [length] in *.
      destruct (decode_uXXXX h1 h2 h3 h4) as [uni|]; [|congruence].
      assert (plain : cons_char uni (scanstring s3) = Err e ->
                e = JSONDecodeError).
      { intros Hp. apply step in Hp; [assumption | lia]. }
      destruct (is_high_surrogate uni); [|now apply plain].
      destruct (second_escape s3) as [[[uni2|] s4]|] eqn:E2;
        [|congruence|now apply plain].
      apply second_escape_Some in E2 as (g1 & g2 & g3 & g4 & -> & _).
      destruct (is_low_surrogate uni2); [|now apply plain].
      cbn [length] in *. apply step in H; [assumption | lia].
    + cbn [scanstring] in H. norm_ch.
      change ((92 =? 34)%N) with false in H. change ((92 =? 92)%N) with true in H.
      cbv iota in H.
      destruct (N.eqb_spec esc 117) as [|_]; [contradiction|].
      destruct (backslash esc) as [c'|]; [|congruence].
      apply step in H; [assumption | lia].
  - cbn [scanstring] in H. norm_ch.
    destruct (N.eqb_spec c 34) as [|_]; [contradiction|].
    destruct (N.eqb_spec c 92) as [|_]; [contradiction|].
    destruct (N.ltb_spec c 32) as [|Hge]; [congruence|].
    apply step in H; [assumption | lia].
Qed.

Lemma bind_Err {A B} (r : result A) (k : A -> result B) e :
  bind r k = Err e -> r = Err e \/ exists a, r = Ok a /\ k a = Err e.
Proof. destruct r as [a|e']; simpl; [eauto | intros H; left; congruence]. Qed.

(** With two units of fuel per character the decoder never runs out of
    fuel: it fails with [JSONDecodeError] only. *)
Lemma decoder_errors ext fuel :
  (forall s e, 2 * length s + 1 <= fuel ->
     scan_once ext fuel s = Err e -> e = JSONDecodeError)
  /\ (forall s e, 2 * length s + 2 <= fuel ->
        array_loop ext fuel s = Err e -> e = JSONDecodeError)
  /\ (forall s e, 2 * length s + 2 <= fuel ->
        object_loop ext fuel s = Err e -> e = JSONDecodeError).
Proof.
  induction fuel as [|f (IHv & IHa & IHo)];
    [repeat split; intros; lia|].
  destruct (decoder_length ext f) as (Lv & La & Lo).
  split; [|split].
  - intros s e Hf H. destruct s as [|c s1]; [simpl in H; congruence|].
    cbn [scan_once] in H. norm_ch. cbn [length] in Hf.
    destruct (N.eqb c 34).
    { apply bind_Err in H as [H | ([str r0] & _ & H)]; [|discriminate].
      eapply scanstring_Err; [apply le_n | eassumption]. }
    destruct (N.eqb c 123).
    { destruct (skip_ws s1) as [|c1 r1] eqn:E; [congruence|].
      apply skip_ws_cons_length in E.
      destruct (N.eqb c1 125); [discriminate|].
      destruct (N.eqb c1 34); [|congruence].
      apply bind_Err in H as [H | ([pairs r'] & _ & H)]; [|discriminate].
      apply IHo in H; [assumption | lia]. }
    destruct (N.eqb c 91).
    { pose proof (skip_ws_length s1) as L.
      destruct (skip_ws s1) as [|c1 r1] eqn:E; [congruence|].
      destruct (N.eqb c1 93); [discriminate|].
      apply bind_Err in H as [H | ([values r'] & _ & H)]; [|discriminate].
      apply IHa in H; [assumption | lia]. }
    destruct (match_literal json_literals (c :: s1)); [discriminate|].
    destruct (match_number (c :: s1)); [discriminate|].
    destruct (match_literal nan_constants (c :: s1)); [|congruence].
    destruct ext; [discriminate | congruence].
  - intros s e Hf H. cbn [array_loop] in H. norm_ch.
    apply bind_Err in H as [H | ([v r0] & Hv & H)];
      [apply IHv in H; [assumption | lia]|].
    apply Lv in Hv.
    destruct (skip_ws r0) as [|c r1] eqn:E; [congruence|].
    apply skip_ws_cons_length in E.
    destruct (N.eqb c 93); [discriminate|].
    destruct (N.eqb c 44); [|congruence].
    apply bind_Err in H as [H | ([values r2] & _ & H)]; [|discriminate].
    pose proof (skip_ws_length r1). apply IHa in H; [assumption | lia].
  - intros s e Hf H. cbn [object_loop] in H. norm_ch.
    apply bind_Err in H as [H | ([key r0] & Hk & H)];
      [eapply scanstring_Err; [apply le_n | eassumption]|].
    apply (scanstring_length _ _ _ _ (le_n _)) in Hk.
    destruct (skip_ws r0) as [|c r1] eqn:E; [congruence|].
    apply skip_ws_cons_length in E.
    destruct (N.eqb c 58); [|congruence].
    pose proof (skip_ws_length r1).
    apply bind_Err in H as [H | ([v r2] & Hv & H)];
      [apply IHv in H; [assumption | lia]|].
    apply Lv in Hv.
    destruct (skip_ws r2) as [|c2 r3] eqn:E2; [congruence|].
    apply skip_ws_cons_length in E2.
    destruct (N.eqb c2 125); [discriminate|].
    destruct (N.eqb c2 44); [|congruence].
    destruct (skip_ws r3) as [|q r4] eqn:E3; [congruence|].
    apply skip_ws_cons_length in E3.
    destruct (N.eqb q 34); [|congruence].
    apply bind_Err in H as [H | ([pairs r5] & _ & H)]; [|discriminate].
    apply IHo in H; [assumption | lia].
Qed.

(** [json.loads] fails with [JSONDecodeError] only. *)
Lemma decode_error ext s e : decode ext s = Err e -> e = JSONDecodeError.
Proof.
  rewrite decode_cases.
  assert (G : decode_body ext s = Err e -> e = JSONDecodeError).
  { unfold decode_body. intros H.
    apply bind_Err in H as [H | ([obj r] & _ & H)].
    - apply (proj1 (decoder_errors ext _)) in H; [assumption|].
      pose proof (skip_ws_length s). lia.
    - destruct (skip_ws r); congruence. }
  destruct s as [|c s']; [assumption|].
  destruct (N.eqb c 65279); [congruence | assumption].
Qed.

(** ** The encoder writes texts of the grammar *)

Lemma chars_app a b :
  Grammar.chars a -> Grammar.chars b -> Grammar.chars (a ++ b).
Proof.
  induction 1; intros Hb; cbn [app]; try assumption.
  - apply Grammar.chars_unescaped; auto.
  - apply Grammar.chars_escape; auto.
  - apply Grammar.chars_unicode; auto.
Qed.

Lemma hexdigit_hexdig n : (n < 16)%N -> Grammar.hexdig (hexdigit n).
Proof.
  intros H. unfold hexdigit, Grammar.hexdig.
  destruct (N.ltb_spec n 10); lia.
Qed.

Lemma hex4_chars n t :
  Grammar.chars t -> Grammar.chars (92%N :: 117%N :: hex4 n ++ t).
Proof.
  intros Ht. unfold hex4. cbn [app].
  apply Grammar.chars_unicode; try assumption;
    apply hexdigit_hexdig; apply N.mod_lt; discriminate.
Qed.

Lemma escape_char_chars c : Grammar.chars (escape_char c).
Proof.
  unfold escape_char. norm_ch.
  assert (E : forall e, Grammar.escapable e -> Grammar.chars [92%N; e]).
  { intros e He. apply Grammar.chars_escape; [assumption | constructor]. }
  destruct (N.eqb_spec c 34); [apply E; unfold Grammar.escapable; simpl; tauto|].
  destruct (N.eqb_spec c 92); [apply E; unfold Grammar.escapable; simpl; tauto|].
  destruct (N.eqb_spec c 10); [apply E; unfold Grammar.escapable; simpl; tauto|].
  destruct (N.eqb_spec c 13); [apply E; unfold Grammar.escapable; simpl; tauto|].
  destruct (N.eqb_spec c 9); [apply E; unfold Grammar.escapable; simpl; tauto|].
  destruct (N.eqb_spec c 12); [apply E; unfold Grammar.escapable; simpl; tauto|].
  destruct (N.eqb_spec c 8); [apply E; unfold Grammar.escapable; simpl; tauto|].
  destruct (N.leb_spec 32 c); cbn [andb].
  - destruct (N.leb_spec c 126).
    + apply Grammar.chars_unescaped; [|constructor].
      unfold Grammar.unescaped. lia.
    + destruct (N.ltb_spec c 65536).
      * rewrite <- (app_nil_r (hex4 c)). apply hex4_chars. constructor.
      * change (Grammar.chars
                  (92%N :: 117%N :: hex4 (N.lor 55296
                       (N.land (N.shiftr (c - 65536) 10) 1023))
                   ++ 92%N :: 117%N :: hex4 (N.lor 56320
                       (N.land (c - 65536) 1023)))).
        apply hex4_chars.
        rewrite <- (app_nil_r (hex4 _)). apply hex4_chars. constructor.
  - destruct (N.ltb_spec c 65536); [|lia].
    rewrite <- (app_nil_r (hex4 c)). apply hex4_chars. constructor.
Qed.

Lemma encode_string_jstring s : Grammar.jstring (encode_string s).
Proof.
  unfold encode_string. constructor.
  induction s as [|c s IH]; cbn [flat_map]; [constructor|].
  apply chars_app; [apply escape_char_chars | assumption].
Qed.

(** *** Integers *)

Lemma to_uint_normal p :
  Pos.to_uint p <> Decimal.Nil /\ forall u, Pos.to_uint p <> Decimal.D0 u.
Proof.
  split; [apply Unsigned.to_uint_nonnil|].
  assert (E : Pos.to_uint p = Decimal.unorm (Pos.to_uint p)).
  { rewrite <- DecimalPos.Unsigned.to_of, DecimalPos.Unsigned.of_to.
    reflexivity. }
  assert (Hnz : Decimal.nzhead (Pos.to_uint p) <> Decimal.Nil).
  { intros Hz. apply unorm_0 in Hz. rewrite <- E in Hz.
    now apply Unsigned.to_uint_nonzero in Hz. }
  intros u. rewrite E, (unorm_nzhead _ Hnz). apply nzhead_nonzero.
Qed.

Lemma text_of_uint_digits u : Grammar.digits (text_of_uint u).
Proof.
  induction u; cbn [text_of_uint]; constructor; try assumption;
    unfold Grammar.digit; lia.
Qed.

(** A run of digits that starts with a digit other than 0. *)
Lemma pos_repr_int p :
  exists c t, pos_repr p = c :: t /\ Grammar.digit1_9 c /\ Grammar.digits t.
Proof.
  unfold pos_repr. destruct (to_uint_normal p) as [Hnil H0].
  destruct (Pos.to_uint p) as [|u|u|u|u|u|u|u|u|u|u]; try congruence;
    try (now elim (H0 u)); cbn [text_of_uint];
    eexists _, _; (split; [reflexivity|]);
    (split; [unfold Grammar.digit1_9; lia | apply text_of_uint_digits]).
Qed.

Lemma int_repr_nonneg z :
  (0 <= z)%Z -> Grammar.int (int_repr z).
Proof.
  destruct z as [|p|p]; intros H; [constructor| |lia].
  cbn [int_repr]. destruct (pos_repr_int p) as (c & t & -> & Hc & Ht).
  now constructor.
Qed.

Lemma int_digits z : Grammar.int z -> Grammar.digits z /\ z <> [].
Proof.
  intros [|c ds Hc Hds]; split; try discriminate.
  - repeat constructor; unfold Grammar.digit; lia.
  - constructor; [unfold Grammar.digit, Grammar.digit1_9 in *; lia | assumption].
Qed.

Lemma number_unsigned i f e :
  Grammar.int i -> Grammar.opt_frac f -> Grammar.opt_exp e ->
  Grammar.number (i ++ f ++ e).
Proof. intros. apply (Grammar.number_intro [] i f e); auto. Qed.

Lemma number_negative i f e :
  Grammar.int i -> Grammar.opt_frac f -> Grammar.opt_exp e ->
  Grammar.number (45%N :: i ++ f ++ e).
Proof. intros. apply (Grammar.number_intro [45%N] i f e); auto. Qed.

Lemma int_repr_number z : Grammar.number (int_repr z).
Proof.
  destruct z as [|p|p].
  - apply (Grammar.number_intro [] [48%N] [] []); auto; constructor.
  - rewrite <- (app_nil_r (int_repr _)).
    apply (number_unsigned _ [] []); try constructor.
    now apply int_repr_nonneg.
  - cbn [int_repr]. norm_ch. rewrite <- (app_nil_r (pos_repr p)).
    apply (number_negative _ [] []); try constructor.
    now apply (int_repr_nonneg (Z.pos p)).
Qed.

(** *** Floats *)

Lemma drop_zeros_last l c :
  c <> 48%N -> Grammar.digits l ->
  exists l', drop_zeros (l ++ [c]) = l' ++ [c] /\ Grammar.digits l'.
Proof.
  intros Hc. induction 1 as [|x l Hx Hl IH]; cbn [app drop_zeros].
  - destruct (N.eqb_spec c 48); [contradiction|]. exists []. split; [reflexivity | constructor].
  - destruct (N.eqb_spec x 48).
    + exact IH.
    + exists (x :: l). split; [reflexivity | now constructor].
Qed.

Lemma strip_trailing_zeros_head c t :
  Grammar.digit1_9 c -> Grammar.digits t ->
  exists t', strip_trailing_zeros (c :: t) = c :: t' /\ Grammar.digits t'.
Proof.
  intros Hc Ht. unfold strip_trailing_zeros. cbn [rev].
  destruct (drop_zeros_last (rev t) c) as (l' & -> & Hl').
  - unfold Grammar.digit1_9 in Hc. lia.
  - now apply Forall_rev.
  - exists (rev l'). rewrite rev_app_distr. split; [reflexivity|].
    now apply Forall_rev.
Qed.

Lemma digits_app a b :
  Grammar.digits a -> Grammar.digits b -> Grammar.digits (a ++ b).
Proof. unfold Grammar.digits. rewrite Forall_app. tauto. Qed.

Lemma digits_zeros n : Grammar.digits (repeat 48%N n).
Proof.
  induction n; cbn [repeat]; constructor; [unfold Grammar.digit; lia | assumption].
Qed.

Lemma digits_firstn n ds : Grammar.digits ds -> Grammar.digits (firstn n ds).
Proof.
  intros H. rewrite <- (firstn_skipn n ds) in H.
  apply Forall_app in H. tauto.
Qed.

Lemma digits_skipn n ds : Grammar.digits ds -> Grammar.digits (skipn n ds).
Proof.
  intros H. rewrite <- (firstn_skipn n ds) in H.
  apply Forall_app in H. tauto.
Qed.

Lemma opt_frac_digits ds :
  ds <> [] -> Grammar.digits ds -> Grammar.opt_frac (46%N :: ds).
Proof.
  intros Hne Hd. destruct Hd as [|c ds Hc Hds]; [congruence|]. now constructor.
Qed.

Lemma exp_repr_opt_exp ex : Grammar.opt_exp (101%N :: exp_repr ex).
Proof.
  unfold exp_repr. norm_ch.
  destruct (int_digits _ (int_repr_nonneg _ (Z.abs_nonneg ex))) as [Hd Hne].
  assert (Hds : exists c ds,
            (if (Z.abs ex <? 10)%Z then [48%N] else []) ++ int_repr (Z.abs ex)
            = c :: ds /\ Grammar.digit c /\ Grammar.digits ds).
  { destruct (Z.abs ex <? 10)%Z; cbn [app].
    - exists 48%N, (int_repr (Z.abs ex)).
      split; [reflexivity|]. split; [unfold Grammar.digit; lia | assumption].
    - destruct Hd as [|c ds Hc Hds]; [congruence|]. now exists c, ds. }
  destruct Hds as (c & ds & -> & Hc & Hds).
  destruct (ex <? 0)%Z.
  - apply (Grammar.exp_some 101%N [45%N] c ds); auto.
  - apply (Grammar.exp_some 101%N [43%N] c ds); auto.
Qed.

Lemma format_float_short_number c t decpt :
  Grammar.digit1_9 c -> Grammar.digits t ->
  unsigned_number (format_float_short (c :: t) decpt).
Proof.
  intros Hc Ht. unfold format_float_short, unsigned_number. norm_ch.
  assert (Hct : Grammar.digits (c :: t)).
  { constructor; [unfold Grammar.digit, Grammar.digit1_9 in *; lia | assumption]. }
  destruct ((-4 <? decpt)%Z && (decpt <=? 16)%Z).
  - destruct (Z.leb_spec decpt 0) as [H0|H0].
    + exists [48%N], (46%N :: repeat 48%N (Z.to_nat (- decpt)) ++ c :: t), [].
      split; [now rewrite app_nil_r|]. split; [constructor|].
      split; [|constructor].
      apply opt_frac_digits; [now destruct (repeat _ _)|].
      apply digits_app; [apply digits_zeros | assumption].
    + destruct (Z.leb_spec (Z.of_nat (length (c :: t))) decpt) as [Hl|Hl].
      * exists ((c :: t) ++ repeat 48%N (Z.to_nat decpt - length (c :: t))),
          [46%N; 48%N], [].
        split; [now rewrite app_nil_r, <- app_assoc|].
        split; [|split; [|constructor]].
        -- cbn [app]. constructor; [assumption|].
           apply digits_app; [assumption | apply digits_zeros].
        -- constructor; [unfold Grammar.digit; lia | constructor].
      * destruct (Z.to_nat decpt) as [|n] eqn:En; [lia|].
        cbn [firstn skipn]. cbn [length] in Hl.
        exists (c :: firstn n t), (46%N :: skipn n t), [].
        split; [now rewrite app_nil_r|].
        split; [|split; [|constructor]].
        -- constructor; [assumption | now apply digits_firstn].
        -- apply opt_frac_digits; [|now apply digits_skipn].
           intros E. apply (f_equal (@length N)) in E.
           rewrite length_skipn in E. cbn [length] in E. lia.
  - cbn [firstn skipn].
    exists [c], (match t with [] => [] | _ :: _ => 46%N :: t end),
      (101%N :: exp_repr (decpt - 1)).
    split; [now destruct t|].
    split; [constructor; [assumption | constructor]|].
    split; [|apply exp_repr_opt_exp].
    destruct t as [|c' t']; [constructor|].
    apply opt_frac_digits; [discriminate | assumption].
Qed.

Lemma unsigned_number_number n : unsigned_number n -> Grammar.number n.
Proof. intros (i & f & e & -> & Hi & Hf & He). now apply number_unsigned. Qed.

Lemma unsigned_number_negative n :
  unsigned_number n -> Grammar.number (45%N :: n).
Proof. intros (i & f & e & -> & Hi & Hf & He). now apply number_negative. Qed.

(** The [repr] of a finite float is a number of the grammar. *)
Lemma float_repr_number x :
  match x with S754_nan | S754_infinity _ => False | _ => True end ->
  Grammar.number (float_repr x).
Proof.
  destruct x as [s|s| |s m e]; try contradiction; intros _.
  - destruct s; norm_ch.
    + apply (Grammar.number_intro [45%N] [48%N] [46%N; 48%N] []); auto;
        repeat constructor; unfold Grammar.digit; lia.
    + apply (Grammar.number_intro [] [48%N] [46%N; 48%N] []); auto;
        repeat constructor; unfold Grammar.digit; lia.
  - cbn [float_repr].
    destruct (shortest_digits 17 m e _ 1) as [D k].
    destruct (pos_repr_int (Z.to_pos D)) as (c & t & E & Hc & Ht).
    rewrite E.
    destruct (strip_trailing_zeros_head c t Hc Ht) as (t' & -> & Ht').
    pose proof (format_float_short_number c t'
                  (k + Z.of_nat (length (c :: t))) Hc Ht') as Hn.
    destruct s; norm_ch; cbn [app].
    + now apply unsigned_number_negative.
    + now apply unsigned_number_number.
Qed.

(** *** Values *)

Lemma value_induction (P : value -> Prop) :
  P VNone ->
  (forall b, P (VBool b)) ->
  (forall z, P (VInt z)) ->
  (forall f, P (VFloat f)) ->
  (forall s, P (VStr s)) ->
  (forall l, Forall P l -> P (VList l)) ->
  (forall d, Forall (fun kv => P (snd kv)) d -> P (VDict d)) ->
  forall v, P v.
Proof.
  intros HNone HBool HInt HFloat HStr HList HDict.
  fix IH 1. intros [ |b|z|f|s|l|d].
  - exact HNone.
  - apply HBool.
  - apply HInt.
  - apply HFloat.
  - apply HStr.
  - apply HList. induction l as [|x l IHl]; constructor; [apply IH | exact IHl].
  - apply HDict. induction d as [|[k x] d IHd]; constructor;
      [apply IH | exact IHd].
Qed.

Lemma encode_elements ext l :
  Forall (fun y => Grammar.value ext (encode y)) l ->
  forall w x, Grammar.ws w -> Grammar.value ext (encode x) ->
    Grammar.elements ext
      (w ++ encode x ++ flat_map (fun y => T ", " ++ encode y) l).
Proof.
  induction 1 as [|y l Hy Hl IH]; intros w x Hw Hx; cbn [flat_map].
  - apply Grammar.elements_one; try assumption. constructor.
  - norm_ch.
    replace (w ++ encode x ++ ([44; 32]%N ++ encode y)
               ++ flat_map (fun y0 => [44; 32]%N ++ encode y0) l)
      with (w ++ encode x ++ [] ++ 44%N ::
              ([32%N] ++ encode y
                 ++ flat_map (fun y0 => [44; 32]%N ++ encode y0) l))
      by app_eq.
    apply Grammar.elements_cons; try assumption; [constructor|].
    apply IH; [|assumption]. constructor; [|constructor].
    unfold Grammar.ws_char. tauto.
Qed.

Lemma encode_members ext d :
  Forall (fun kv => Grammar.value ext (encode (snd kv))) d ->
  forall w k x, Grammar.ws w -> Grammar.value ext (encode x) ->
    Grammar.members ext
      (w ++ encode_string k ++ T ": " ++ encode x
         ++ flat_map (fun kv => T ", " ++ encode_string (fst kv) ++ T ": "
                                  ++ encode (snd kv)) d).
Proof.
  assert (Hsp : Grammar.ws [32%N])
    by (constructor; [unfold Grammar.ws_char; tauto | constructor]).
  induction 1 as [|[k' y] l Hy Hl IH]; intros w k x Hw Hx; cbn [flat_map].
  - norm_ch.
    replace (w ++ encode_string k ++ [58; 32]%N ++ encode x ++ [])
      with (w ++ encode_string k ++ [] ++ 58%N :: [32%N] ++ encode x ++ [])
      by app_eq.
    apply Grammar.members_one; try assumption;
      try apply encode_string_jstring; constructor.
  - norm_ch. cbn [fst snd] in *.
    replace (w ++ encode_string k ++ [58; 32]%N ++ encode x
               ++ ([44; 32]%N ++ encode_string k' ++ [58; 32]%N ++ encode y)
               ++ flat_map (fun kv => [44; 32]%N ++ encode_string (fst kv)
                                        ++ [58; 32]%N ++ encode (snd kv)) l)
      with (w ++ encode_string k ++ [] ++ 58%N :: [32%N] ++ encode x ++ []
              ++ 44%N :: ([32%N] ++ encode_string k' ++ [58; 32]%N ++ encode y
                 ++ flat_map (fun kv => [44; 32]%N ++ encode_string (fst kv)
                                          ++ [58; 32]%N ++ encode (snd kv)) l))
      by app_eq.
    apply Grammar.members_cons; try assumption;
      try apply encode_string_jstring; try (apply IH; assumption); constructor.
Qed.

Lemma encode_list_array ext l :
  Forall (fun y => Grammar.value ext (encode y)) l ->
  Grammar.array ext (encode (VList l)).
Proof.
  intros H. destruct H as [|x l Hx Hl]; cbn [encode].
  - norm_ch. apply (Grammar.array_empty ext []). constructor.
  - norm_ch.
    replace (91%N :: encode x
               ++ flat_map (fun y => [44; 32]%N ++ encode y) l ++ [93%N])
      with (91%N :: ([] ++ encode x
               ++ flat_map (fun y => [44; 32]%N ++ encode y) l) ++ [93%N])
      by app_eq.
    apply Grammar.array_elements.
    pose proof (encode_elements ext l Hl [] x) as G. norm_ch.
    apply G; [constructor | assumption].
Qed.

Lemma encode_dict_object ext d :
  Forall (fun kv => Grammar.value ext (encode (snd kv))) d ->
  Grammar.object ext (encode (VDict d)).
Proof.
  intros H. destruct H as [|[k x] d Hx Hd]; cbn [encode].
  - norm_ch. apply (Grammar.object_empty ext []). constructor.
  - norm_ch. cbn [snd] in Hx.
    replace (123%N :: encode_string k ++ [58; 32]%N ++ encode x
               ++ flat_map (fun kv => [44; 32]%N ++ encode_string (fst kv)
                                        ++ [58; 32]%N ++ encode (snd kv)) d
               ++ [125%N])
      with (123%N :: ([] ++ encode_string k ++ [58; 32]%N ++ encode x
               ++ flat_map (fun kv => [44; 32]%N ++ encode_string (fst kv)
                                        ++ [58; 32]%N ++ encode (snd kv)) d)
               ++ [125%N])
      by app_eq.
    apply Grammar.object_members.
    pose proof (encode_members ext d Hd [] k x) as G. norm_ch.
    apply G; [constructor | assumption].
Qed.

(** The encoder's output is in the grammar with the three extra literals,
    and in the JSON grammar when the value holds no NaN or infinity. *)
Theorem encode_value ext :
  forall v, (ext = false -> finite_value v = true) ->
    Grammar.value ext (encode v).
Proof.
  induction v as [ |b|z|f|s|l IH|d IH] using value_induction; intros Hfin.
  - constructor.
  - destruct b; constructor.
  - apply Grammar.value_number, int_repr_number.
  - destruct f as [sg|sg| |sg m e].
    + apply Grammar.value_number. now apply (float_repr_number (S754_zero sg)).
    + destruct ext; [|specialize (Hfin eq_refl); discriminate].
      destruct sg; now constructor.
    + destruct ext; [|specialize (Hfin eq_refl); discriminate].
      now constructor.
    + apply Grammar.value_number.
      now apply (float_repr_number (S754_finite sg m e)).
  - apply Grammar.value_string, encode_string_jstring.
  - apply Grammar.value_array, encode_list_array.
    rewrite Forall_forall in *. intros y Hy. apply IH; [assumption|].
    intros E. specialize (Hfin E). cbn [finite_value] in Hfin.
    rewrite forallb_forall in Hfin. now apply Hfin.
  - apply Grammar.value_object, encode_dict_object.
    rewrite Forall_forall in *. intros kv Hkv. apply IH; [assumption|].
    intros E. specialize (Hfin E). cbn [finite_value] in Hfin.
    rewrite forallb_forall in Hfin. now apply Hfin.
Qed.

Lemma encode_object ext d :
  (ext = false -> finite_value (VDict d) = true) ->
  Grammar.object ext (encode (VDict d)).
Proof.
  intros Hfin. apply encode_dict_object.
  rewrite Forall_forall. intros kv Hkv. apply encode_value.
  intros E. specialize (Hfin E). cbn [finite_value] in Hfin.
  rewrite forallb_forall in Hfin. now apply Hfin.
Qed.

(** ** Dictionaries from the decoder *)

Lemma scan_once_dict ext fuel s d r :
  scan_once ext fuel s = Ok (VDict d, r) ->
  (exists s1, s = 123%N :: s1) /\ NoDup (dict_keys d).
Proof.
  destruct fuel as [|f]; [discriminate|].
  destruct s as [|c s1]; [discriminate|].
  cbn [scan_once]. norm_ch.
  destruct (N.eqb_spec c 34) as [->|_].
  { intros H. apply bind_Ok in H as ([str r0] & _ & H). discriminate. }
  destruct (N.eqb_spec c 123) as [->|_].
  { intros H. split; [eauto|].
    destruct (skip_ws s1) as [|c1 r1]; [discriminate|].
    destruct (N.eqb c1 125); [injection H as <- _; constructor|].
    destruct (N.eqb c1 34); [|discriminate].
    apply bind_Ok in H as ([pairs r'] & _ & H). injection H as <- _.
    apply dict_of_pairs_NoDup. }
  destruct (N.eqb_spec c 91) as [->|_].
  { intros H. destruct (skip_ws s1) as [|c1 r1]; [discriminate|].
    destruct (N.eqb c1 93); [discriminate|].
    apply bind_Ok in H as ([values r'] & _ & H). discriminate. }
  destruct (match_literal json_literals (c :: s1)) as [[v0 r0]|] eqn:El.
  { intros H. injection H as -> _.
    apply match_literal_sound in El as (name & Hin & _).
    simpl in Hin. intuition discriminate. }
  destruct (match_number (c :: s1)) as [[v0 r0]|] eqn:En.
  { intros H. injection H as -> _.
    apply match_number_sound in En as (n & _ & _ & Hv). now elim (Hv d). }
  destruct (match_literal nan_constants (c :: s1)) as [[v0 r0]|] eqn:Ec;
    [|discriminate].
  destruct ext; [|discriminate]. intros H. injection H as -> _.
  apply match_literal_sound in Ec as (name & Hin & _).
  simpl in Hin. intuition discriminate.
Qed.

Lemma decode_dict_scan ext s d :
  decode ext s = Ok (VDict d) ->
  exists fuel r, scan_once ext fuel (skip_ws s) = Ok (VDict d, r).
Proof.
  intros H. apply decode_Ok in H. unfold decode_body in H.
  apply bind_Ok in H as ([obj r] & Hs & H).
  destruct (skip_ws r); [|discriminate]. injection H as ->. eauto.
Qed.

(** The decoder's dictionaries have no repeated key. *)
Lemma decode_dict_NoDup ext s d :
  decode ext s = Ok (VDict d) -> NoDup (dict_keys d).
Proof.
  intros H. apply decode_dict_scan in H as (fuel & r & H).
  now apply scan_once_dict in H.
Qed.

Lemma value_brace ext t :
  Grammar.value ext (123%N :: t) -> Grammar.object ext (123%N :: t).
Proof.
  intros H. remember (123%N :: t) as s eqn:E.
  destruct H as [| | |n Hn|s Hs|a Ha|o Ho| | |]; norm_ch; try discriminate.
  - destruct (number_head _ Hn) as (c & t' & -> & Hc).
    injection E as -> _. unfold Grammar.digit in Hc. lia.
  - destruct Hs. discriminate.
  - destruct Ha; discriminate.
  - assumption.
Qed.

(** A text decoded to a dictionary is an object text. *)
Lemma decode_sound_object ext s d :
  unicode_text s -> decode ext s = Ok (VDict d) -> Grammar.object_text ext s.
Proof.
  intros Hu H. apply decode_Ok in H. unfold decode_body in H.
  apply bind_Ok in H as ([obj r] & Hs & G).
  destruct (skip_ws_split s) as (w1 & Hw1 & E1).
  destruct (skip_ws_split r) as (w2 & Hw2 & E2).
  destruct (skip_ws r); [|discriminate]. injection G as ->.
  pose proof (scan_once_dict _ _ _ _ _ Hs) as ((s1 & Es1) & _).
  apply (proj1 (decoder_sound ext _)) in Hs as (t & Et & Ht);
    [|now apply unicode_text_skip_ws].
  rewrite E1, Et, E2, app_nil_r. constructor; try assumption.
  rewrite Es1 in Et. destruct t as [|c t'].
  - destruct (value_head _ _ Ht) as (c & t' & E & _). discriminate.
  - cbn [app] in Et. injection Et as <- _. now apply value_brace.
Qed.

Lemma not_json_text ext s e :
  decode ext s = Err e -> ~ Grammar.json_text ext s.
Proof.
  intros H Hg. apply decode_complete in Hg as (v & Hv). congruence.
Qed.

Lemma unicode_text_check s :
  forallb (fun c => N.leb c 1114111) s = true -> unicode_text s.
Proof.
  intros H. apply Forall_forall. intros c Hc.
  rewrite forallb_forall in H. apply N.leb_le. now apply H.
Qed.

(** Every JSON object text is decoded by [json.loads] to a dictionary
    (by the decoder as modelled, without the interpreter's limits). *)
Lemma json_loads_object input :
  Grammar.object_text false input ->
  exists d, json_loads input = Ok (VDict d) /\ NoDup (dict_keys d).
Proof.
  intros H. apply object_text_ext in H.
  apply decode_complete_object in H as (d & Hd).
  exists d. split; [exact Hd | now apply decode_dict_NoDup in Hd].
Qed.

(** ** The dictionary after [main] *)

Lemma added_keys_distinct : T "echoed_by" <> T "ts".
Proof. discriminate. Qed.

Lemma echoed_get_echoed_by d r :
  dict_get (echoed d r) (T "echoed_by") = Some (VStr (T "python")).
Proof.
  unfold echoed. rewrite dict_get_setitem_ne.
  - apply dict_get_setitem_eq.
  - intros E. symmetry in E. now apply added_keys_distinct in E.
Qed.

Lemma echoed_get_ts d r :
  dict_get (echoed d r) (T "ts") = Some (VInt (truncate r)).
Proof. unfold echoed. apply dict_get_setitem_eq. Qed.

Lemma is_added_key_false k :
  is_added_key k = false <-> k <> T "echoed_by" /\ k <> T "ts".
Proof.
  unfold is_added_key. rewrite orb_false_iff, !text_eqb_neq. tauto.
Qed.

Lemma echoed_get_other d r k :
  is_added_key k = false -> dict_get (echoed d r) k = dict_get d k.
Proof.
  intros H. apply is_added_key_false in H as [H1 H2]. unfold echoed.
  rewrite !dict_get_setitem_ne by congruence. reflexivity.
Qed.

Lemma echoed_filter d r :
  filter (fun kv => negb (is_added_key (fst kv))) (echoed d r) =
  filter (fun kv => negb (is_added_key (fst kv))) d.
Proof.
  unfold echoed.
  rewrite !(dict_setitem_filter _ _ _ (fun k => negb (is_added_key k)));
    reflexivity.
Qed.

Lemma In_dict_keys_setitem d k v k' :
  In k' (dict_keys (dict_setitem d k v)) <-> In k' (dict_keys d) \/ k' = k.
Proof.
  rewrite dict_keys_setitem.
  destruct (existsb _ _) eqn:E.
  - apply existsb_key_In in E. split; [tauto | intros [H| ->]; assumption].
  - rewrite in_app_iff. simpl. intuition congruence.
Qed.

Lemma echoed_keys d r k :
  In k (dict_keys (echoed d r)) <->
  In k (dict_keys d) \/ k = T "echoed_by" \/ k = T "ts".
Proof. unfold echoed. rewrite !In_dict_keys_setitem. tauto. Qed.

Lemma echoed_NoDup d r :
  NoDup (dict_keys d) -> NoDup (dict_keys (echoed d r)).
Proof. intros H. unfold echoed. now do 2 apply dict_setitem_NoDup. Qed.

Lemma echoed_fresh d r :
  ~ In (T "echoed_by") (dict_keys d) -> ~ In (T "ts") (dict_keys d) ->
  echoed d r =
  d ++ [(T "echoed_by", VStr (T "python")); (T "ts", VInt (truncate r))].
Proof.
  intros H1 H2. unfold echoed. rewrite (dict_setitem_new d) by assumption.
  rewrite dict_setitem_new.
  - now rewrite <- app_assoc.
  - unfold dict_keys. rewrite map_app, in_app_iff. cbn [map fst In].
    intros [H | [H | []]]; [now apply H2 | now apply added_keys_distinct].
Qed.

Lemma NoDup_dict_get d k v :
  NoDup (dict_keys d) -> In (k, v) d -> dict_get d k = Some v.
Proof.
  induction d as [|[k0 v0] d IH]; cbn [dict_keys map fst In dict_get];
    intros Hnd Hin; [contradiction|].
  inversion Hnd as [|? ? Hk0 Hd]; subst.
  destruct Hin as [E | Hin].
  - injection E as -> ->. now rewrite text_eqb_refl.
  - destruct (text_eqb k0 k) eqn:E.
    + apply text_eqb_eq in E. subst k0. elim Hk0.
      change (In (fst (k, v)) (map fst d)). now apply in_map.
    + now apply IH.
Qed.

(** The run succeeds exactly on the inputs decoded to a dictionary. *)
Lemma run_success input clk :
  exit_status (run input clk) = 0%Z ->
  exists d, json_loads input = Ok (VDict d)
    /\ run input clk =
       {| exit_status := 0; uncaught := None;
          final := {| stdin := [];
                      stdout := json_dumps (VDict (echoed d (clk O)));
                      clock := clk; clock_reads := 1 |} |}.
Proof.
  destruct (run_cases input clk)
    as [(e & _ & ->) | [(v & _ & _ & ->) | (d & Hd & Hr)]];
    try discriminate.
  intros _. eauto.
Qed.

(** ** The encoder writes ASCII *)

Lemma ascii_text_app a b : ascii_text a -> ascii_text b -> ascii_text (a ++ b).
Proof. unfold ascii_text. rewrite Forall_app. tauto. Qed.

Lemma ascii_text_check t :
  forallb (fun c => N.ltb c 128) t = true -> ascii_text t.
Proof.
  intros H. apply Forall_forall. intros c Hc.
  rewrite forallb_forall in H. apply N.ltb_lt. now apply H.
Qed.

Lemma digits_ascii t : Grammar.digits t -> ascii_text t.
Proof.
  unfold Grammar.digits, ascii_text. apply Forall_impl.
  unfold Grammar.digit. intros c Hc. lia.
Qed.

Lemma number_ascii n : Grammar.number n -> ascii_text n.
Proof.
  intros [minus i f e Hm Hi Hf He].
  repeat apply ascii_text_app.
  - destruct Hm as [-> | ->]; [constructor | now apply ascii_text_check].
  - apply digits_ascii. now apply int_digits.
  - destruct Hf as [|c ds Hc Hds]; [constructor|].
    constructor; [lia|]. apply digits_ascii. now constructor.
  - destruct He as [|e0 sg c ds He0 Hsg Hc Hds]; [constructor|].
    constructor; [destruct He0 as [-> | ->]; lia|].
    apply ascii_text_app.
    + destruct Hsg as [-> | [-> | ->]];
        [constructor | now apply ascii_text_check | now apply ascii_text_check].
    + apply digits_ascii. now constructor.
Qed.

Lemma hexdigit_ascii n : (n < 16)%N -> (hexdigit n < 128)%N.
Proof. intros H. unfold hexdigit. destruct (N.ltb_spec n 10); lia. Qed.

Lemma hex4_ascii n : ascii_text (hex4 n).
Proof.
  unfold hex4. repeat constructor;
    apply hexdigit_ascii; apply N.mod_lt; discriminate.
Qed.

Lemma escape_char_ascii c : ascii_text (escape_char c).
Proof.
  unfold escape_char. norm_ch.
  repeat match goal with
  | |- context [N.eqb c ?k] =>
      destruct (N.eqb_spec c k); [now apply ascii_text_check|]
  end.
  assert (Hu : forall n, ascii_text (92%N :: 117%N :: hex4 n)).
  { intros n'. constructor; [lia|]. constructor; [lia | apply hex4_ascii]. }
  destruct (N.leb_spec 32 c); cbn [andb].
  - destruct (N.leb_spec c 126); [repeat constructor; lia|].
    destruct (N.ltb_spec c 65536); [apply Hu|].
    apply ascii_text_app; apply Hu.
  - destruct (N.ltb_spec c 65536); [apply Hu|].
    apply ascii_text_app; apply Hu.
Qed.

Lemma encode_string_ascii s : ascii_text (encode_string s).
Proof.
  unfold encode_string. constructor; [lia|].
  apply ascii_text_app; [|now apply ascii_text_check].
  induction s as [|c s IH]; cbn [flat_map]; [constructor|].
  apply ascii_text_app; [apply escape_char_ascii | assumption].
Qed.

Lemma floatstr_ascii f : ascii_text (floatstr f).
Proof.
  destruct f as [sg|sg| |sg m e].
  - apply number_ascii. now apply (float_repr_number (S754_zero sg)).
  - destruct sg; now apply ascii_text_check.
  - now apply ascii_text_check.
  - apply number_ascii. now apply (float_repr_number (S754_finite sg m e)).
Qed.

Lemma flat_map_ascii {A} (f : A -> text) l :
  Forall (fun x => ascii_text (f x)) l -> ascii_text (flat_map f l).
Proof.
  induction 1; cbn [flat_map]; [constructor | now apply ascii_text_app].
Qed.

(** Everything the encoder writes is ASCII. *)
Theorem encode_ascii : forall v, ascii_text (encode v).
Proof.
  induction v as [ |b|z|f|s|l IH|d IH] using value_induction.
  - now apply ascii_text_check.
  - destruct b; now apply ascii_text_check.
  - apply number_ascii, int_repr_number.
  - apply floatstr_ascii.
  - apply encode_string_ascii.
  - destruct IH as [|x l Hx Hl]; cbn [encode]; [now apply ascii_text_check|].
    norm_ch. constructor; [lia|].
    repeat apply ascii_text_app; try assumption;
      [|now apply ascii_text_check].
    apply flat_map_ascii. revert Hl. apply Forall_impl. intros y Hy.
    apply ascii_text_app; [now apply ascii_text_check | assumption].
  - destruct IH as [|[k x] d Hx Hd]; cbn [encode]; [now apply ascii_text_check|].
    norm_ch. cbn [snd] in Hx. constructor; [lia|].
    repeat apply ascii_text_app; try assumption;
      try apply encode_string_ascii; try (now apply ascii_text_check).
    apply flat_map_ascii. revert Hd. apply Forall_impl. intros [k' y] Hy.
    cbn [fst snd] in *.
    repeat apply ascii_text_app; try assumption;
      try apply encode_string_ascii; now apply ascii_text_check.
Qed.

(** ** The clock *)

Lemma truncate_whole_seconds r : whole_seconds r (truncate r).
Proof.
  destruct r as [m e]. unfold whole_seconds, truncate.
  destruct (Z.leb_spec 0 e) as [He|He]; [reflexivity|].
  assert (HD : (0 < 2 ^ (- e))%Z) by (apply Z.pow_pos_nonneg; lia).
  set (D := (2 ^ (- e))%Z) in *.
  assert (Habs : Z.abs (Z.quot m D) = (Z.abs m / D)%Z).
  { rewrite <- Z.quot_abs by lia.
    rewrite (Z.abs_eq D) by lia. apply Z.quot_div_nonneg; lia. }
  rewrite Habs. split; [|split].
  - pose proof (Z.mul_div_le (Z.abs m) D HD).
    pose proof (Z.mul_succ_div_gt (Z.abs m) D HD). lia.
  - intros Hm. apply Z.quot_pos; lia.
  - intros Hm. replace m with (- (- m))%Z by lia.
    rewrite Z.quot_opp_l by lia.
    assert (0 <= Z.quot (- m) D)%Z by (apply Z.quot_pos; lia). lia.
Qed.

(** ** The claims *)

(** C1.  For an input that [json.load] decodes to an object [d] with
    neither the key [echoed_by] nor the key [ts], the run succeeds and
    writes the serialization of [d] extended, at its end, with [echoed_by]
    set to the string python and [ts] set to the integer the clock gives:
    the entries of [d] come first, unchanged and in their order.  For the
    input [{}] the output has exactly these two keys. *)
Theorem C1_fresh_keys_are_appended input clk d :
  json_loads input = Ok (VDict d) ->
  (~ In (T "echoed_by") (dict_keys d) ->
   ~ In (T "ts") (dict_keys d) ->
   run input clk =
   {| exit_status := 0; uncaught := None;
      final :=
        {| stdin := [];
           stdout :=
             json_dumps
               (VDict (d ++ [(T "echoed_by", VStr (T "python"));
                             (T "ts", VInt (truncate (clk O)))]));
           clock := clk; clock_reads := 1 |} |})
  /\ (input = TQ "{}" ->
      d = []
      /\ dict_keys (echoed d (clk O)) = [T "echoed_by"; T "ts"]
      /\ stdout (final (run input clk)) =
         TQ "{'echoed_by': 'python', 'ts': "
           ++ int_repr (truncate (clk O)) ++ T "}").
Proof.
  intros Hd. split.
  - intros H1 H2.
    rewrite (run_dict input clk d Hd). now rewrite echoed_fresh.
  - intros ->.
    assert (E : d = []).
    { assert (H0 : json_loads (TQ "{}") = Ok (VDict [])) by reflexivity.
      rewrite H0 in Hd. now injection Hd as <-. }
    subst d. split; [reflexivity|]. split; [reflexivity|].
    rewrite (run_dict (TQ "{}") clk []) by reflexivity.
    cbn [final stdout]. unfold json_dumps.
    change (echoed [] (clk O))
      with [(T "echoed_by", VStr (T "python"));
            (T "ts", VInt (truncate (clk O)))].
    cbn [encode flat_map fst snd]. rewrite app_nil_r. reflexivity.
Qed.

Lemma C1_witness :
  json_loads (TQ "{'a': 1, 'b': [2,3]}")
  = Ok (VDict [(T "a", VInt 1); (T "b", VList [VInt 2; VInt 3])])
  /\ stdout (final (run (TQ "{'a': 1, 'b': [2,3]}") example_clock)) =
     TQ "{'a': 1, 'b': [2, 3], 'echoed_by': 'python', 'ts': 1700000000}"
  /\ json_loads (TQ "{}") = Ok (VDict [])
  /\ stdout (final (run (TQ "{}") example_clock)) =
     TQ "{'echoed_by': 'python', 'ts': 1700000000}".
Proof.
  assert (H : json_loads (TQ "{'a': 1, 'b': [2,3]}")
              = Ok (VDict [(T "a", VInt 1); (T "b", VList [VInt 2; VInt 3])]))
    by (vm_compute; reflexivity).
  assert (H0 : json_loads (TQ "{}") = Ok (VDict []))
    by (vm_compute; reflexivity).
  split; [exact H|]. split; [|split; [exact H0|]].
  - destruct (C1_fresh_keys_are_appended (TQ "{'a': 1, 'b': [2,3]}")
                example_clock _ H) as (Hrun & _).
    rewrite Hrun.
    + vm_compute. reflexivity.
    + vm_compute. intuition discriminate.
    + vm_compute. intuition discriminate.
  - destruct (C1_fresh_keys_are_appended (TQ "{}") example_clock _ H0)
      as (_ & Hempty).
    destruct (Hempty eq_refl) as (_ & _ & ->). vm_compute. reflexivity.
Defined.

Lemma dict_keys_setitem_present d k v :
  In k (dict_keys d) -> dict_keys (dict_setitem d k v) = dict_keys d.
Proof.
  intros H. rewrite dict_keys_setitem.
  apply existsb_key_In in H. now rewrite H.
Qed.

(** C2.  For an input decoded to an object, the output is the
    serialization of the same object with the keys [echoed_by] and [ts]
    set: its keys are the input's keys and these two, every other key
    keeps its value, and the entries under the other keys are the same, in
    the same order. *)
Theorem C2_other_keys_are_preserved input clk d :
  json_loads input = Ok (VDict d) ->
  stdout (final (run input clk)) = json_dumps (VDict (echoed d (clk O)))
  /\ (forall k, In k (dict_keys (echoed d (clk O))) <->
                In k (dict_keys d) \/ k = T "echoed_by" \/ k = T "ts")
  /\ (forall k, k <> T "echoed_by" -> k <> T "ts" ->
                dict_get (echoed d (clk O)) k = dict_get d k)
  /\ filter (fun kv => negb (is_added_key (fst kv))) (echoed d (clk O)) =
     filter (fun kv => negb (is_added_key (fst kv))) d
  /\ dict_get (echoed d (clk O)) (T "echoed_by") = Some (VStr (T "python"))
  /\ dict_get (echoed d (clk O)) (T "ts") = Some (VInt (truncate (clk O))).
Proof.
  intros Hd. rewrite (run_dict input clk d Hd). cbn [final stdout].
  split; [reflexivity|].
  split; [intros k; apply echoed_keys|].
  split; [intros k H1 H2; apply echoed_get_other;
          apply is_added_key_false; now split|].
  split; [apply echoed_filter|].
  split; [apply echoed_get_echoed_by | apply echoed_get_ts].
Qed.

Lemma C2_witness :
  json_loads (TQ "{'b': [2,3], 'ts': 1, 'a': null}")
  = Ok (VDict [(T "b", VList [VInt 2; VInt 3]); (T "ts", VInt 1);
               (T "a", VNone)])
  /\ stdout (final (run (TQ "{'b': [2,3], 'ts': 1, 'a': null}") example_clock))
     = TQ "{'b': [2, 3], 'ts': 1700000000, 'a': null, 'echoed_by': 'python'}".
Proof.
  assert (H : json_loads (TQ "{'b': [2,3], 'ts': 1, 'a': null}")
              = Ok (VDict [(T "b", VList [VInt 2; VInt 3]); (T "ts", VInt 1);
                           (T "a", VNone)]))
    by (vm_compute; reflexivity).
  split; [exact H|].
  rewrite (proj1 (C2_other_keys_are_preserved _ example_clock _ H)).
  vm_compute. reflexivity.
Defined.

(** C3.  For an input decoded to an object that already has the key
    [echoed_by] or the key [ts], the output object holds the new values
    under these keys and nothing else: every entry under [echoed_by] is the
    string python and every entry under [ts] is the integer of the clock; a
    key that was there keeps its place. *)
Theorem C3_existing_keys_are_overwritten input clk d :
  json_loads input = Ok (VDict d) ->
  In (T "echoed_by") (dict_keys d) \/ In (T "ts") (dict_keys d) ->
  stdout (final (run input clk)) = json_dumps (VDict (echoed d (clk O)))
  /\ (forall v, In (T "echoed_by", v) (echoed d (clk O)) ->
                v = VStr (T "python"))
  /\ (forall v, In (T "ts", v) (echoed d (clk O)) ->
                v = VInt (truncate (clk O)))
  /\ NoDup (dict_keys (echoed d (clk O)))
  /\ (In (T "echoed_by") (dict_keys d) -> In (T "ts") (dict_keys d) ->
      dict_keys (echoed d (clk O)) = dict_keys d).
Proof.
  intros Hd _. rewrite (run_dict input clk d Hd). cbn [final stdout].
  pose proof (echoed_NoDup d (clk O) (decode_dict_NoDup _ _ _ Hd)) as Hnd.
  split; [reflexivity|].
  split; [|split; [|split; [assumption|]]].
  - intros v Hv. apply (NoDup_dict_get _ _ _ Hnd) in Hv.
    rewrite echoed_get_echoed_by in Hv. congruence.
  - intros v Hv. apply (NoDup_dict_get _ _ _ Hnd) in Hv.
    rewrite echoed_get_ts in Hv. congruence.
  - intros H1 H2. unfold echoed.
    rewrite dict_keys_setitem_present;
      rewrite dict_keys_setitem_present; auto.
Qed.

Lemma C3_witness :
  In (T "echoed_by") (dict_keys [(T "ts", VInt 1); (T "echoed_by", VStr (T "x"))])
  /\ stdout (final (run (TQ "{'ts': 1, 'echoed_by': 'x'}") example_clock))
     = TQ "{'ts': 1700000000, 'echoed_by': 'python'}".
Proof.
  assert (H : json_loads (TQ "{'ts': 1, 'echoed_by': 'x'}")
              = Ok (VDict [(T "ts", VInt 1); (T "echoed_by", VStr (T "x"))]))
    by (vm_compute; reflexivity).
  assert (K : In (T "echoed_by")
                (dict_keys [(T "ts", VInt 1); (T "echoed_by", VStr (T "x"))]))
    by (simpl; tauto).
  split; [exact K|].
  rewrite (proj1 (C3_existing_keys_are_overwritten _ example_clock _ H
                    (or_introl K))).
  vm_compute. reflexivity.
Defined.

(** C4, as amended.  For an input text that is in neither the JSON grammar
    nor its extension by the literals NaN, Infinity and -Infinity, the
    decoder fails with an exception, which [main] does not catch: the exit
    status is 1, the clock is not read and nothing is written to standard
    output. *)
Theorem C4_rejected_text_fails input clk :
  unicode_text input ->
  ~ Grammar.json_text true input ->
  (exists e, json_loads input = Err e /\ uncaught (run input clk) = Some e)
  /\ exit_status (run input clk) = 1%Z
  /\ clock_reads (final (run input clk)) = 0
  /\ stdout (final (run input clk)) = [].
Proof.
  intros Hu Hng.
  destruct (json_loads input) as [v|e] eqn:H.
  - elim Hng. now apply (decode_sound true input v).
  - rewrite (run_decode_error input clk _ H).
    split; [exists e; split; reflexivity|]. split; [reflexivity|].
    split; reflexivity.
Qed.

Lemma C4_witness :
  (exists e, json_loads (T "not json") = Err e
             /\ uncaught (run (T "not json") example_clock) = Some e)
  /\ exit_status (run (T "not json") example_clock) = 1%Z
  /\ clock_reads (final (run (T "not json") example_clock)) = 0
  /\ stdout (final (run (T "not json") example_clock)) = [].
Proof.
  apply (C4_rejected_text_fails (T "not json") example_clock).
  - apply unicode_text_check. vm_compute. reflexivity.
  - apply (not_json_text true _ JSONDecodeError). vm_compute. reflexivity.
Defined.

(** C4 as stated fails: the text [{"a": NaN}] is not JSON, yet it is
    decoded, the run exits with status 0 and writes an object. *)
Lemma C4_counterexample :
  ~ Grammar.json_text false (TQ "{'a': NaN}")
  /\ json_loads (TQ "{'a': NaN}") = Ok (VDict [(T "a", VFloat S754_nan)])
  /\ uncaught (run (TQ "{'a': NaN}") example_clock) = None
  /\ exit_status (run (TQ "{'a': NaN}") example_clock) = 0%Z
  /\ stdout (final (run (TQ "{'a': NaN}") example_clock))
     = TQ "{'a': NaN, 'echoed_by': 'python', 'ts': 1700000000}".
Proof.
  split.
  - apply (not_json_text false _ JSONDecodeError). vm_compute. reflexivity.
  - repeat split; vm_compute; reflexivity.
Qed.

(** C5.  For an input decoded to a value that is not an object, the first
    assignment raises [TypeError], which [main] does not catch: the exit
    status is 1 (and nothing is written). *)
Theorem C5_non_object_is_a_type_error input clk v :
  json_loads input = Ok v ->
  (forall d, v <> VDict d) ->
  setitem v (T "echoed_by") (VStr (T "python")) = Err TypeError
  /\ uncaught (run input clk) = Some TypeError
  /\ exit_status (run input clk) = 1%Z
  /\ exit_status (run input clk) <> 0%Z
  /\ stdout (final (run input clk)) = [].
Proof.
  intros H Hv. rewrite (run_not_dict input clk v H Hv).
  split; [|repeat split; discriminate].
  destruct v; try reflexivity. now elim (Hv d).
Qed.

Lemma C5_witness :
  json_loads (T "[1,2,3]") = Ok (VList [VInt 1; VInt 2; VInt 3])
  /\ uncaught (run (T "[1,2,3]") example_clock) = Some TypeError
  /\ exit_status (run (T "[1,2,3]") example_clock) = 1%Z.
Proof.
  assert (H : json_loads (T "[1,2,3]") = Ok (VList [VInt 1; VInt 2; VInt 3]))
    by (vm_compute; reflexivity).
  split; [exact H|].
  destruct (C5_non_object_is_a_type_error (T "[1,2,3]") example_clock _ H)
    as (_ & H1 & H2 & _); [discriminate|].
  split; assumption.
Defined.



(** C7.  On a successful run the value under [ts] is the integer [int]
    makes of the clock's reading, which is the reading truncated towards
    zero (the whole seconds since the epoch), and the clock has been read
    once: the output depends on its first reading only. *)
Theorem C7_ts_is_the_truncated_reading input clk :
  exit_status (run input clk) = 0%Z ->
  exists d,
    json_loads input = Ok (VDict d)
    /\ stdout (final (run input clk)) = json_dumps (VDict (echoed d (clk O)))
    /\ dict_get (echoed d (clk O)) (T "ts") = Some (VInt (truncate (clk O)))
    /\ py_int_of_float (float_of_reading (clk O)) = Ok (truncate (clk O))
    /\ whole_seconds (clk O) (truncate (clk O))
    /\ clock_reads (final (run input clk)) = 1
    /\ (forall clk', clk' O = clk O ->
          stdout (final (run input clk')) = stdout (final (run input clk))).
Proof.
  intros H. destruct (run_success input clk H) as (d & Hd & ->).
  exists d. cbn [final stdout clock_reads].
  split; [assumption|]. split; [reflexivity|].
  split; [apply echoed_get_ts|]. split; [apply py_int_of_reading|].
  split; [apply truncate_whole_seconds|]. split; [reflexivity|].
  intros clk' E. rewrite (run_dict input clk' d Hd). cbn [final stdout].
  now rewrite E.
Qed.

Lemma C7_witness :
  exit_status (run (TQ "{'a': 1}") example_clock) = 0%Z
  /\ exists d,
       json_loads (TQ "{'a': 1}") = Ok (VDict d)
       /\ stdout (final (run (TQ "{'a': 1}") example_clock))
          = json_dumps (VDict (echoed d (example_clock O)))
       /\ dict_get (echoed d (example_clock O)) (T "ts")
          = Some (VInt (truncate (example_clock O)))
       /\ py_int_of_float (float_of_reading (example_clock O))
          = Ok (truncate (example_clock O))
       /\ whole_seconds (example_clock O) (truncate (example_clock O))
       /\ clock_reads (final (run (TQ "{'a': 1}") example_clock)) = 1
       /\ (forall clk', clk' O = example_clock O ->
             stdout (final (run (TQ "{'a': 1}") clk'))
             = stdout (final (run (TQ "{'a': 1}") example_clock))).
Proof.
  assert (H : exit_status (run (TQ "{'a': 1}") example_clock) = 0%Z)
    by (vm_compute; reflexivity).
  split; [exact H|].
  exact (C7_ts_is_the_truncated_reading (TQ "{'a': 1}") example_clock H).
Defined.

(** C8.  Two successful runs on the same input, each with its own clock,
    write the serializations of two objects with the same keys in the same
    order and the same value under every key other than [ts] ([echoed_by]
    among them); when the two clocks give the same reading the two outputs
    are equal. *)
Theorem C8_runs_differ_in_ts_only input clk1 clk2 :
  exit_status (run input clk1) = 0%Z ->
  exit_status (run input clk2) = 0%Z ->
  exists d,
    stdout (final (run input clk1)) = json_dumps (VDict (echoed d (clk1 O)))
    /\ stdout (final (run input clk2)) = json_dumps (VDict (echoed d (clk2 O)))
    /\ dict_keys (echoed d (clk1 O)) = dict_keys (echoed d (clk2 O))
    /\ (forall k, k <> T "ts" ->
          dict_get (echoed d (clk1 O)) k = dict_get (echoed d (clk2 O)) k)
    /\ dict_get (echoed d (clk1 O)) (T "echoed_by")
       = dict_get (echoed d (clk2 O)) (T "echoed_by")
    /\ (clk1 O = clk2 O ->
        stdout (final (run input clk1)) = stdout (final (run input clk2))).
Proof.
  intros H1 H2.
  destruct (run_success input clk1 H1) as (d & Hd & ->).
  destruct (run_success input clk2 H2) as (d' & Hd' & ->).
  assert (d' = d) by congruence. subst d'.
  exists d. cbn [final stdout].
  split; [reflexivity|]. split; [reflexivity|].
  split; [unfold echoed; now rewrite !dict_keys_setitem|].
  split; [intros k Hk; unfold echoed;
          rewrite (dict_get_setitem_ne _ (T "ts") k (VInt (truncate (clk1 O))))
            by congruence;
          rewrite (dict_get_setitem_ne _ (T "ts") k (VInt (truncate (clk2 O))))
            by congruence; reflexivity|].
  split; [now rewrite !echoed_get_echoed_by|].
  intros E. now rewrite E.
Qed.

Lemma C8_witness :
  exit_status (run (TQ "{'a': 1}") example_clock) = 0%Z
  /\ exit_status (run (TQ "{'a': 1}") (fun _ => (3, 0)%Z)) = 0%Z
  /\ stdout (final (run (TQ "{'a': 1}") example_clock))
     = TQ "{'a': 1, 'echoed_by': 'python', 'ts': 1700000000}"
  /\ stdout (final (run (TQ "{'a': 1}") (fun _ => (3, 0)%Z)))
     = TQ "{'a': 1, 'echoed_by': 'python', 'ts': 3}".
Proof.
  assert (H1 : exit_status (run (TQ "{'a': 1}") example_clock) = 0%Z)
    by (vm_compute; reflexivity).
  assert (H2 : exit_status (run (TQ "{'a': 1}") (fun _ => (3, 0)%Z)) = 0%Z)
    by (vm_compute; reflexivity).
  split; [exact H1|]. split; [exact H2|].
  destruct (C8_runs_differ_in_ts_only (TQ "{'a': 1}") example_clock
              (fun _ => (3, 0)%Z) H1 H2) as (d & E1 & E2 & _).
  split; vm_compute; reflexivity.
Defined.

Lemma object_brackets ext o :
  Grammar.object ext o -> exists body, o = 123%N :: body ++ [125%N].
Proof. intros [w _ | ms _]; eauto. Qed.

(** C9, as amended.  On a successful run standard output holds exactly the
    encoder's serialization of the resulting object, from its opening brace
    to its closing brace with nothing before or after (no trailing
    newline), all of it ASCII.  It is a JSON object with, possibly, the
    literals NaN, Infinity and -Infinity for floats that are not finite,
    and a JSON object proper when the resulting object holds no such
    float. *)
Theorem C9_output_is_the_serialization input clk :
  exit_status (run input clk) = 0%Z ->
  exists d,
    json_loads input = Ok (VDict d)
    /\ stdout (final (run input clk)) = json_dumps (VDict (echoed d (clk O)))
    /\ Grammar.object true (stdout (final (run input clk)))
    /\ (exists body, stdout (final (run input clk)) = 123%N :: body ++ [125%N])
    /\ ascii_text (stdout (final (run input clk)))
    /\ (finite_value (VDict (echoed d (clk O))) = true ->
        Grammar.object false (stdout (final (run input clk)))).
Proof.
  intros H. destruct (run_success input clk H) as (d & Hd & ->).
  exists d. cbn [final stdout]. unfold json_dumps.
  assert (Ho : Grammar.object true (encode (VDict (echoed d (clk O)))))
    by (apply encode_object; discriminate).
  split; [assumption|]. split; [reflexivity|]. split; [assumption|].
  split; [now apply (object_brackets true)|].
  split; [apply encode_ascii|].
  intros Hfin. now apply encode_object.
Qed.

Lemma C9_witness :
  exit_status (run (TQ "{'a': 0.5}") example_clock) = 0%Z
  /\ stdout (final (run (TQ "{'a': 0.5}") example_clock))
     = TQ "{'a': 0.5, 'echoed_by': 'python', 'ts': 1700000000}"
  /\ Grammar.object false (stdout (final (run (TQ "{'a': 0.5}") example_clock))).
Proof.
  assert (H : exit_status (run (TQ "{'a': 0.5}") example_clock) = 0%Z)
    by (vm_compute; reflexivity).
  split; [exact H|].
  destruct (C9_output_is_the_serialization (TQ "{'a': 0.5}") example_clock H)
    as (d & Hd & Hout & _ & _ & _ & Hfin).
  split; [vm_compute; reflexivity|].
  apply Hfin.
  assert (E : d = [(T "a", VFloat (S754_finite false 4503599627370496 (-53)))]).
  { vm_compute in Hd. injection Hd as <-. reflexivity. }
  subst d. vm_compute. reflexivity.
Defined.

(** C9 as stated fails: the JSON object text [{"x": 1e999}] is decoded
    with [x] an infinity, the run succeeds, and what it writes is not
    JSON. *)
Lemma C9_counterexample :
  Grammar.object_text false (TQ "{'x': 1e999}")
  /\ exit_status (run (TQ "{'x': 1e999}") example_clock) = 0%Z
  /\ stdout (final (run (TQ "{'x': 1e999}") example_clock))
     = TQ "{'x': Infinity, 'echoed_by': 'python', 'ts': 1700000000}"
  /\ ~ Grammar.json_text false
         (stdout (final (run (TQ "{'x': 1e999}") example_clock))).
Proof.
  split; [|split; [|split]].
  - apply (decode_sound_object false _ [(T "x", VFloat (S754_infinity false))]).
    + apply unicode_text_check. vm_compute. reflexivity.
    + vm_compute. reflexivity.
  - vm_compute. reflexivity.
  - vm_compute. reflexivity.
  - apply (not_json_text false _ JSONDecodeError). vm_compute. reflexivity.
Qed.

(** C10.  A run that does not exit with status 0 has written nothing to
    standard output and has not read the clock: either [json.load] raised
    an exception, or it returned a value that is not an object and the
    first assignment raised [TypeError]; both happen before anything is
    serialized. *)
Theorem C10_failure_writes_nothing input clk :
  exit_status (run input clk) <> 0%Z ->
  stdout (final (run input clk)) = []
  /\ clock_reads (final (run input clk)) = 0
  /\ ((exists e, json_loads input = Err e
                 /\ uncaught (run input clk) = Some e)
      \/ (exists v, json_loads input = Ok v /\ (forall d, v <> VDict d)
                    /\ uncaught (run input clk) = Some TypeError)).
Proof.
  intros H.
  destruct (run_cases input clk)
    as [(e & He & Hr) | [(v & Hv & Hnd & Hr) | (d & Hd & Hr)]];
    rewrite Hr in *; cbn [failed final stdout clock_reads uncaught exit_status] in *.
  - split; [reflexivity|]. split; [reflexivity|]. left. now exists e.
  - split; [reflexivity|]. split; [reflexivity|]. right. now exists v.
  - now elim H.
Qed.

Lemma C10_witness :
  exit_status (run (TQ "'hello'") example_clock) <> 0%Z
  /\ stdout (final (run (TQ "'hello'") example_clock)) = []
  /\ clock_reads (final (run (TQ "'hello'") example_clock)) = 0.
Proof.
  assert (H : exit_status (run (TQ "'hello'") example_clock) <> 0%Z)
    by (vm_compute; discriminate).
  split; [exact H|].
  destruct (C10_failure_writes_nothing (TQ "'hello'") example_clock H)
    as (H1 & H2 & _).
  split; assumption.
Defined.

(** * More on [main] *)

(** ** Which inputs succeed, and how the others fail *)

(** X1.  A run succeeds only on the object texts of the JSON grammar
    extended with the literals NaN, Infinity and -Infinity; and on such a
    text, once [json.load] has returned a value, the run succeeds. *)
Theorem X1_success_only_on_object_text input clk :
  unicode_text input ->
  (exit_status (run input clk) = 0%Z -> Grammar.object_text true input)
  /\ (Grammar.object_text true input ->
      forall v, json_loads input = Ok v -> exit_status (run input clk) = 0%Z).
Proof.
  intros Hu. split.
  - intros H. destruct (run_success input clk H) as (d & Hd & _).
    now apply (decode_sound_object true input d).
  - intros H v _. apply decode_complete_object in H as (d & Hd).
    now rewrite (run_dict input clk d Hd).
Qed.

Lemma X1_witness :
  unicode_text (TQ "{'a': [NaN, 1]}")
  /\ exit_status (run (TQ "{'a': [NaN, 1]}") example_clock) = 0%Z
  /\ Grammar.object_text true (TQ "{'a': [NaN, 1]}").
Proof.
  assert (H : unicode_text (TQ "{'a': [NaN, 1]}"))
    by (apply unicode_text_check; vm_compute; reflexivity).
  assert (E : exit_status (run (TQ "{'a': [NaN, 1]}") example_clock) = 0%Z)
    by (vm_compute; reflexivity).
  split; [exact H|]. split; [exact E|].
  exact (proj1 (X1_success_only_on_object_text _ example_clock H) E).
Defined.

(** X2.  What the exception of a failing run says of the input: after
    [JSONDecodeError] the input is not a text of the extended grammar, and
    after [TypeError] it is such a text, whose value is not an object. *)
Theorem X2_exception_by_grammar input clk :
  unicode_text input ->
  (uncaught (run input clk) = Some JSONDecodeError ->
   ~ Grammar.json_text true input)
  /\ (uncaught (run input clk) = Some TypeError ->
      Grammar.json_text true input /\ ~ Grammar.object_text true input).
Proof.
  intros Hu.
  destruct (run_cases input clk)
    as [(e & He & Hr) | [(v & Hv & Hnd & Hr) | (d & Hd & Hr)]];
    rewrite Hr; cbn [failed uncaught].
  - pose proof (decode_error _ _ _ He) as ->.
    pose proof (not_json_text true input _ He) as Hn.
    split; [tauto | discriminate].
  - pose proof (decode_sound true input v Hu Hv) as Hj.
    assert (Hno : ~ Grammar.object_text true input).
    { intros Ho. apply decode_complete_object in Ho as (d & Hd).
      unfold json_loads in Hv. rewrite Hd in Hv. injection Hv as <-.
      now elim (Hnd d). }
    split; [discriminate | tauto].
  - split; discriminate.
Qed.

Lemma X2_witness :
  unicode_text (T "[1, 2")
  /\ uncaught (run (T "[1, 2") example_clock) = Some JSONDecodeError
  /\ ~ Grammar.json_text true (T "[1, 2")
  /\ unicode_text (T "[1, 2]")
  /\ uncaught (run (T "[1, 2]") example_clock) = Some TypeError
  /\ Grammar.json_text true (T "[1, 2]").
Proof.
  assert (H1 : unicode_text (T "[1, 2"))
    by (apply unicode_text_check; vm_compute; reflexivity).
  assert (H2 : unicode_text (T "[1, 2]"))
    by (apply unicode_text_check; vm_compute; reflexivity).
  assert (E1 : uncaught (run (T "[1, 2") example_clock) = Some JSONDecodeError)
    by (vm_compute; reflexivity).
  assert (E2 : uncaught (run (T "[1, 2]") example_clock) = Some TypeError)
    by (vm_compute; reflexivity).
  split; [exact H1|]. split; [exact E1|].
  split; [exact (proj1 (X2_exception_by_grammar _ example_clock H1) E1)|].
  split; [exact H2|]. split; [exact E2|].
  exact (proj1 (proj2 (X2_exception_by_grammar _ example_clock H2) E2)).
Defined.

(** ** The order of the keys *)

Lemma has_key_In d k : has_key d k = true <-> In k (dict_keys d).
Proof. apply existsb_key_In. Qed.

Lemma has_key_setitem_ne d k v k' :
  k <> k' -> has_key (dict_setitem d k v) k' = has_key d k'.
Proof.
  intros Hne. apply eq_true_iff_eq. rewrite !has_key_In, In_dict_keys_setitem.
  intuition congruence.
Qed.

(** X3.  The output object lists the input's keys in the input's order,
    then [echoed_by] if the input did not have it, then [ts] if the input
    did not have it. *)
Theorem X3_key_order input clk d :
  json_loads input = Ok (VDict d) ->
  stdout (final (run input clk)) = json_dumps (VDict (echoed d (clk O)))
  /\ dict_keys (echoed d (clk O)) =
     dict_keys d
       ++ (if has_key d (T "echoed_by") then [] else [T "echoed_by"])
       ++ (if has_key d (T "ts") then [] else [T "ts"]).
Proof.
  intros Hd. rewrite (run_dict input clk d Hd). split; [reflexivity|].
  unfold echoed. rewrite dict_keys_setitem.
  fold (has_key (dict_setitem d (T "echoed_by") (VStr (T "python"))) (T "ts")).
  rewrite has_key_setitem_ne by discriminate.
  rewrite dict_keys_setitem. fold (has_key d (T "echoed_by")).
  destruct (has_key d (T "echoed_by")), (has_key d (T "ts"));
    now rewrite ?app_nil_r, <- ?app_assoc.
Qed.

Lemma X3_witness :
  json_loads (TQ "{'ts': 0, 'z': 1}")
  = Ok (VDict [(T "ts", VInt 0); (T "z", VInt 1)])
  /\ dict_keys (echoed [(T "ts", VInt 0); (T "z", VInt 1)] (example_clock O))
     = [T "ts"; T "z"; T "echoed_by"]
  /\ stdout (final (run (TQ "{'ts': 0, 'z': 1}") example_clock))
     = TQ "{'ts': 1700000000, 'z': 1, 'echoed_by': 'python'}".
Proof.
  assert (H : json_loads (TQ "{'ts': 0, 'z': 1}")
              = Ok (VDict [(T "ts", VInt 0); (T "z", VInt 1)]))
    by (vm_compute; reflexivity).
  split; [exact H|].
  destruct (X3_key_order _ example_clock _ H) as (Hout & Hkeys).
  split; [rewrite Hkeys; vm_compute; reflexivity|].
  rewrite Hout. vm_compute. reflexivity.
Defined.

(** ** The output as an input *)

(** X4.  What a successful run writes is accepted as input: a run on it
    succeeds, whatever the clock. *)
Theorem X4_output_is_accepted input clk clk' :
  exit_status (run input clk) = 0%Z ->
  exit_status (run (stdout (final (run input clk))) clk') = 0%Z.
Proof.
  intros H. destruct (run_success input clk H) as (d & _ & ->).
  cbn [final stdout]. unfold json_dumps.
  assert (Ho : Grammar.object_text true (encode (VDict (echoed d (clk O))))).
  { rewrite <- (app_nil_r (encode _)).
    apply (Grammar.object_text_intro true [] _ []); try constructor.
    apply encode_object. discriminate. }
  apply decode_complete_object in Ho as (d' & Hd').
  now rewrite (run_dict _ clk' d' Hd').
Qed.

Lemma X4_witness :
  exit_status (run (TQ "{'x': 1e999}") example_clock) = 0%Z
  /\ exit_status
       (run (stdout (final (run (TQ "{'x': 1e999}") example_clock)))
          example_clock) = 0%Z.
Proof.
  assert (H : exit_status (run (TQ "{'x': 1e999}") example_clock) = 0%Z)
    by (vm_compute; reflexivity).
  split; [exact H|].
  exact (X4_output_is_accepted _ example_clock example_clock H).
Defined.

(** ** One line of printable ASCII *)

Lemma printable_app a b :
  printable_text a -> printable_text b -> printable_text (a ++ b).
Proof. unfold printable_text. rewrite Forall_app. tauto. Qed.

Lemma printable_check t :
  forallb (fun c => N.leb 32 c && N.leb c 126) t = true -> printable_text t.
Proof.
  intros H. apply Forall_forall. intros c Hc.
  rewrite forallb_forall in H. specialize (H c Hc).
  apply andb_true_iff in H. rewrite !N.leb_le in H. exact H.
Qed.

Lemma digits_printable t : Grammar.digits t -> printable_text t.
Proof.
  unfold Grammar.digits, printable_text. apply Forall_impl.
  unfold Grammar.digit. intros c Hc. lia.
Qed.

Lemma number_printable n : Grammar.number n -> printable_text n.
Proof.
  intros [minus i f e Hm Hi Hf He].
  repeat apply printable_app.
  - destruct Hm as [-> | ->]; [constructor | now apply printable_check].
  - apply digits_printable. now apply int_digits.
  - destruct Hf as [|c ds Hc Hds]; [constructor|].
    constructor; [lia|]. apply digits_printable. now constructor.
  - destruct He as [|e0 sg c ds He0 Hsg Hc Hds]; [constructor|].
    constructor; [destruct He0 as [-> | ->]; lia|].
    apply printable_app.
    + destruct Hsg as [-> | [-> | ->]];
        [constructor | now apply printable_check | now apply printable_check].
    + apply digits_printable. now constructor.
Qed.

Lemma hexdigit_printable n : (n < 16)%N -> (32 <= hexdigit n <= 126)%N.
Proof. intros H. unfold hexdigit. destruct (N.ltb_spec n 10); lia. Qed.

Lemma hex4_printable n : printable_text (hex4 n).
Proof.
  unfold hex4. repeat constructor;
    apply hexdigit_printable; apply N.mod_lt; discriminate.
Qed.

Lemma escape_char_printable c : printable_text (escape_char c).
Proof.
  unfold escape_char. norm_ch.
  repeat match goal with
  | |- context [N.eqb c ?k] =>
      destruct (N.eqb_spec c k); [now apply printable_check|]
  end.
  assert (Hu : forall n, printable_text (92%N :: 117%N :: hex4 n)).
  { intros n'. constructor; [lia|]. constructor; [lia | apply hex4_printable]. }
  destruct (N.leb_spec 32 c); cbn [andb].
  - destruct (N.leb_spec c 126); [repeat constructor; lia|].
    destruct (N.ltb_spec c 65536); [apply Hu|].
    apply printable_app; apply Hu.
  - destruct (N.ltb_spec c 65536); [apply Hu|].
    apply printable_app; apply Hu.
Qed.

Lemma encode_string_printable s : printable_text (encode_string s).
Proof.
  unfold encode_string. constructor; [lia|].
  apply printable_app; [|now apply printable_check].
  induction s as [|c s IH]; cbn [flat_map]; [constructor|].
  apply printable_app; [apply escape_char_printable | assumption].
Qed.

Lemma floatstr_printable f : printable_text (floatstr f).
Proof.
  destruct f as [sg|sg| |sg m e].
  - apply number_printable. now apply (float_repr_number (S754_zero sg)).
  - destruct sg; now apply printable_check.
  - now apply printable_check.
  - apply number_printable. now apply (float_repr_number (S754_finite sg m e)).
Qed.

Lemma flat_map_printable {A} (f : A -> text) l :
  Forall (fun x => printable_text (f x)) l -> printable_text (flat_map f l).
Proof.
  induction 1; cbn [flat_map]; [constructor | now apply printable_app].
Qed.

Lemma encode_printable : forall v, printable_text (encode v).
Proof.
  induction v as [ |b|z|f|s|l IH|d IH] using value_induction.
  - now apply printable_check.
  - destruct b; now apply printable_check.
  - apply number_printable, int_repr_number.
  - apply floatstr_printable.
  - apply encode_string_printable.
  - destruct IH as [|x l Hx Hl]; cbn [encode]; [now apply printable_check|].
    norm_ch. constructor; [lia|].
    repeat apply printable_app; try assumption;
      [|now apply printable_check].
    apply flat_map_printable. revert Hl. apply Forall_impl. intros y Hy.
    apply printable_app; [now apply printable_check | assumption].
  - destruct IH as [|[k x] d Hx Hd]; cbn [encode]; [now apply printable_check|].
    norm_ch. cbn [snd] in Hx. constructor; [lia|].
    repeat apply printable_app; try assumption;
      try apply encode_string_printable; try (now apply printable_check).
    apply flat_map_printable. revert Hd. apply Forall_impl. intros [k' y] Hy.
    cbn [fst snd] in *.
    repeat apply printable_app; try assumption;
      try apply encode_string_printable; now apply printable_check.
Qed.

(** X5.  Whatever the input and the clock, standard output holds printable
    ASCII only: every control character and every character beyond ASCII
    that the input had in a string is written as an escape, so the output
    is a single line. *)
Theorem X5_output_is_one_printable_line input clk :
  printable_text (stdout (final (run input clk)))
  /\ ~ In 10%N (stdout (final (run input clk)))
  /\ ~ In 13%N (stdout (final (run input clk))).
Proof.
  assert (H : printable_text (stdout (final (run input clk)))).
  { destruct (run_cases input clk)
      as [(e & _ & ->) | [(v & _ & _ & ->) | (d & _ & ->)]];
      cbn [failed final stdout]; try constructor.
    apply encode_printable. }
  split; [exact H|].
  unfold printable_text in H. rewrite Forall_forall in H.
  split; intros Hin; apply H in Hin; lia.
Qed.

(** ** Strings written and read back *)

Lemma lor_shiftl_add a b k :
  (b < 2 ^ k)%N -> N.lor (N.shiftl a k) b = (a * 2 ^ k + b)%N.
Proof.
  intros Hb.
  assert (Hland : N.land (N.shiftl a k) b = 0%N).
  { apply N.bits_inj. intros i. rewrite N.land_spec, N.bits_0.
    destruct (N.ltb_spec i k) as [Hi|Hi].
    - rewrite N.shiftl_spec_low by assumption. reflexivity.
    - destruct (N.eq_dec b 0) as [->|Hb0]; [now rewrite N.bits_0, andb_false_r|].
      rewrite (N.bits_above_log2 b i), andb_false_r; [reflexivity|].
      apply N.log2_lt_pow2 in Hb; lia. }
  rewrite <- N.lxor_lor by assumption.
  rewrite <- N.add_nocarry_lxor by assumption.
  now rewrite N.shiftl_mul_pow2.
Qed.

Lemma hexval_hexdigit k : (k < 16)%N -> hexval (hexdigit k) = Some k.
Proof.
  intros Hk. unfold hexval, hexdigit, is_digit.
  destruct (N.ltb_spec k 10) as [H10|H10].
  - destruct (N.leb_spec 48 (48 + k)); [|lia].
    destruct (N.leb_spec (48 + k) 57); [|lia].
    cbn [andb]. f_equal. lia.
  - destruct (N.leb_spec 48 (87 + k)); [|lia].
    destruct (N.leb_spec (87 + k) 57); [lia|]. cbn [andb].
    destruct (N.leb_spec 97 (87 + k)); [|lia].
    destruct (N.leb_spec (87 + k) 102); [|lia].
    cbn [andb]. f_equal. lia.
Qed.

Lemma decode_hex4 n :
  (n < 65536)%N ->
  decode_uXXXX (hexdigit (N.shiftr n 12 mod 16)) (hexdigit (N.shiftr n 8 mod 16))
    (hexdigit (N.shiftr n 4 mod 16)) (hexdigit (n mod 16)) = Some n.
Proof.
  intros Hn. unfold decode_uXXXX.
  rewrite !hexval_hexdigit by (apply N.mod_lt; discriminate).
  f_equal. rewrite !N.shiftr_div_pow2.
  change (2 ^ 12)%N with 4096%N. change (2 ^ 8)%N with 256%N.
  change (2 ^ 4)%N with 16%N.
  zify. Z.to_euclidean_division_equations. lia.
Qed.

Lemma high_half_bounds n :
  (55296 <= N.lor 55296 (N.land (N.shiftr n 10) 1023) <= 56319)%N.
Proof.
  assert (E : N.lor 55296 (N.land (N.shiftr n 10) 1023)
              = (55296 + N.shiftr n 10 mod 1024)%N).
  { change 55296%N with (N.shiftl 54 10) at 1.
    change 1023%N with (N.ones 10). rewrite N.land_ones.
    change (2 ^ 10)%N with 1024%N.
    rewrite lor_shiftl_add by (apply N.mod_lt; discriminate). reflexivity. }
  rewrite E. pose proof (N.mod_lt (N.shiftr n 10) 1024 ltac:(discriminate)) as Hm.
  remember (N.shiftr n 10 mod 1024)%N as m eqn:Em. clear Em E. lia.
Qed.

(** The two halves of a character beyond the basic plane. *)
Lemma surrogate_halves c :
  (65536 <= c <= 1114111)%N ->
  let n := (c - 65536)%N in
  let s1 := N.lor 55296 (N.land (N.shiftr n 10) 1023) in
  let s2 := N.lor 56320 (N.land n 1023) in
  (s1 < 65536)%N /\ (s2 < 65536)%N
  /\ is_high_surrogate s1 = true /\ is_low_surrogate s2 = true
  /\ join_surrogates s1 s2 = c.
Proof.
  intros Hc. cbv zeta. remember (c - 65536)%N as n eqn:En.
  assert (Hn : (n < 1048576)%N) by lia.
  assert (B1 : (n / 1024 < 1024)%N)
    by (apply N.Div0.div_lt_upper_bound; lia).
  assert (B2 : (n mod 1024 < 1024)%N) by (apply N.mod_lt; discriminate).
  assert (E1 : N.lor 55296 (N.land (N.shiftr n 10) 1023)
               = (55296 + n / 1024)%N).
  { change 55296%N with (N.shiftl 54 10) at 1.
    change 1023%N with (N.ones 10). rewrite N.land_ones, N.shiftr_div_pow2.
    change (2 ^ 10)%N with 1024%N.
    rewrite lor_shiftl_add by (apply N.mod_lt; discriminate).
    rewrite N.mod_small by assumption. reflexivity. }
  assert (E2 : N.lor 56320 (N.land n 1023) = (56320 + n mod 1024)%N).
  { change 56320%N with (N.shiftl 55 10) at 1.
    change 1023%N with (N.ones 10). rewrite N.land_ones.
    rewrite lor_shiftl_add by (apply N.mod_lt; discriminate).
    reflexivity. }
  rewrite E1, E2. clear E1 E2.
  pose proof (N.div_mod n 1024 ltac:(discriminate)) as E.
  remember (n / 1024)%N as q eqn:Eq. remember (n mod 1024)%N as m eqn:Em.
  clear Eq Em.
  unfold is_high_surrogate, is_low_surrogate, join_surrogates.
  split; [lia|]. split; [lia|].
  split; [apply andb_true_iff; rewrite !N.leb_le; lia|].
  split; [apply andb_true_iff; rewrite !N.leb_le; lia|].
  replace (55296 + q - 55296)%N with q by lia.
  replace (56320 + m - 56320)%N with m by lia.
  rewrite lor_shiftl_add by assumption. change (2 ^ 10)%N with 1024%N. lia.
Qed.

Lemma scanstring_hex4 n rest :
  (n < 65536)%N ->
  scanstring (92%N :: 117%N :: hex4 n ++ rest) =
  if is_high_surrogate n then
    match second_escape rest with
    | Some (None, _) => Err JSONDecodeError
    | Some (Some uni2, s4) =>
        if is_low_surrogate uni2
        then cons_char (join_surrogates n uni2) (scanstring s4)
        else cons_char n (scanstring rest)
    | None => cons_char n (scanstring rest)
    end
  else cons_char n (scanstring rest).
Proof.
  intros Hn. unfold hex4. cbn [app].
  rewrite scanstring_unicode, decode_hex4 by assumption. reflexivity.
Qed.

Lemma second_escape_hex4 n rest :
  (n < 65536)%N ->
  second_escape (92%N :: 117%N :: hex4 n ++ rest) = Some (Some n, rest).
Proof.
  intros Hn. unfold hex4. cbn [app]. unfold second_escape.
  cbn [N.eqb Pos.eqb andb]. now rewrite decode_hex4.
Qed.

(** What the look-ahead sees at the start of an encoded string: either no
    escape, or the escape of a character that is a low surrogate only if
    the first character of the string is one. *)
Lemma second_escape_encoded s r :
  second_escape (flat_map escape_char s ++ 34%N :: r) = None
  \/ exists u2 s4,
       second_escape (flat_map escape_char s ++ 34%N :: r) = Some (Some u2, s4)
       /\ (is_low_surrogate u2 = true ->
           exists c s', s = c :: s' /\ is_low_surrogate c = true).
Proof.
  destruct s as [|c s']; cbn [flat_map app].
  - left. apply second_escape_other. destruct r; [exact I | left; discriminate].
  - rewrite <- app_assoc.
    set (rest := flat_map escape_char s' ++ 34%N :: r).
    unfold escape_char. norm_ch.
    repeat match goal with
    | |- context [N.eqb c ?k] =>
        destruct (N.eqb_spec c k);
        [left; apply second_escape_other; cbn [app]; right; discriminate|]
    end.
    assert (Hu : (c < 65536)%N ->
      second_escape ((92%N :: 117%N :: hex4 c) ++ rest) = None
      \/ exists u2 s4,
           second_escape ((92%N :: 117%N :: hex4 c) ++ rest)
           = Some (Some u2, s4)
           /\ (is_low_surrogate u2 = true ->
               exists c0 s0, c :: s' = c0 :: s0 /\ is_low_surrogate c0 = true)).
    { intros Hc. right. exists c, rest. cbn [app].
      rewrite second_escape_hex4 by assumption. split; [reflexivity|]. eauto. }
    destruct (N.leb_spec 32 c); cbn [andb].
    + destruct (N.leb_spec c 126).
      * left. apply second_escape_other. cbn [app].
        destruct rest as [|u rest']; [exact I | left; assumption].
      * destruct (N.ltb_spec c 65536); [now apply Hu|].
        right.
        set (s1 := N.lor 55296 (N.land (N.shiftr (c - 65536) 10) 1023)).
        set (s2 := N.lor 56320 (N.land (c - 65536) 1023)).
        pose proof (high_half_bounds (c - 65536)) as Hs1. fold s1 in Hs1.
        exists s1, ((92%N :: 117%N :: hex4 s2) ++ rest).
        rewrite <- app_assoc. cbn [app].
        clearbody s1.
        rewrite second_escape_hex4 by lia. split; [reflexivity|].
        intros Hlow. exfalso. unfold is_low_surrogate in Hlow.
        apply andb_true_iff in Hlow. rewrite !N.leb_le in Hlow. lia.
    + destruct (N.ltb_spec c 65536); [now apply Hu | lia].
Qed.

Lemma str_ok_cons c s :
  str_ok (c :: s) = true ->
  (c <= 1114111)%N /\ str_ok s = true
  /\ (is_high_surrogate c = true ->
      forall c' s', s = c' :: s' -> is_low_surrogate c' = false).
Proof.
  unfold str_ok. cbn [forallb no_split_pair]. intros H.
  apply andb_true_iff in H as [H1 H2].
  apply andb_true_iff in H1 as [Hc H1]. apply andb_true_iff in H2 as [Hp H2].
  apply N.leb_le in Hc. split; [assumption|].
  split; [now rewrite H1, H2|].
  intros Hh c' s' ->. rewrite Hh in Hp. cbn [andb] in Hp.
  now destruct (is_low_surrogate c').
Qed.

(** The decoder reads an encoded string back. *)
Lemma scanstring_encoded s :
  str_ok s = true ->
  forall r, scanstring (flat_map escape_char s ++ 34%N :: r) = Ok (s, r).
Proof.
  induction s as [|c s IH]; intros Hok r; [reflexivity|].
  apply str_ok_cons in Hok as (Hc & Hs & Hpair).
  specialize (IH Hs r). cbn [flat_map]. rewrite <- app_assoc.
  pose proof (second_escape_encoded s r) as Hse.
  set (rest := flat_map escape_char s ++ 34%N :: r) in *.
  assert (Hplain : forall n, (n < 65536)%N -> n = c ->
            scanstring (92%N :: 117%N :: hex4 n ++ rest) = Ok (c :: s, r)).
  { intros n Hn ->. rewrite scanstring_hex4 by assumption.
    destruct (is_high_surrogate c) eqn:Hh; [|now rewrite IH].
    destruct Hse as [-> | (u2 & s4 & -> & Hlow)]; [now rewrite IH|].
    destruct (is_low_surrogate u2) eqn:Hl; [|now rewrite IH].
    destruct (Hlow eq_refl) as (c' & s' & E & Hc').
    rewrite (Hpair eq_refl c' s' E) in Hc'. discriminate. }
  unfold escape_char. norm_ch.
  repeat match goal with
  | |- context [N.eqb c ?k] =>
      destruct (N.eqb_spec c k) as [->|?];
      [cbn [app scanstring]; norm_ch; cbn [N.eqb Pos.eqb backslash];
       now rewrite IH|]
  end.
  destruct (N.leb_spec 32 c); cbn [andb].
  - destruct (N.leb_spec c 126).
    + cbn [app scanstring]. norm_ch.
      destruct (N.eqb_spec c 34); [contradiction|].
      destruct (N.eqb_spec c 92); [contradiction|].
      destruct (N.ltb_spec c 32); [lia|]. now rewrite IH.
    + destruct (N.ltb_spec c 65536); [now apply Hplain|].
      destruct (surrogate_halves c ltac:(lia)) as (B1 & B2 & Hh & Hl & Hj).
      rewrite <- app_assoc. cbn [app].
      rewrite scanstring_hex4 by assumption. rewrite Hh.
      rewrite second_escape_hex4 by assumption. rewrite Hl, Hj.
      now rewrite IH.
  - destruct (N.ltb_spec c 65536); [now apply Hplain | lia].
Qed.

(** ** Numbers written and read back *)

Lemma fold_digits_uint_acc u :
  forall acc, (0 < acc)%Z ->
    fold_left (fun a c => (10 * a + digit_val c)%Z) (text_of_uint u) acc
    = Z.pos (Pos.of_uint_acc u (Z.to_pos acc)).
Proof.
  induction u; intros acc Hacc; cbn [text_of_uint fold_left Pos.of_uint_acc];
    try (rewrite IHu by (unfold digit_val; lia); f_equal; f_equal;
         unfold digit_val; lia).
  now rewrite Z2Pos.id.
Qed.

Lemma Z_of_digits_uint u :
  Z_of_digits (text_of_uint u) = Z.of_N (Pos.of_uint u).
Proof.
  unfold Z_of_digits.
  induction u; cbn [text_of_uint fold_left Pos.of_uint]; try exact IHu;
    try reflexivity;
    rewrite fold_digits_uint_acc by (unfold digit_val; lia); reflexivity.
Qed.

Lemma Z_of_digits_pos_repr p : Z_of_digits (pos_repr p) = Z.pos p.
Proof.
  unfold pos_repr. now rewrite Z_of_digits_uint, DecimalPos.Unsigned.of_to.
Qed.

(** [int(repr(z)) == z] *)
Lemma py_int_of_int_repr z : py_int_of_text (int_repr z) = z.
Proof.
  destruct z as [|p|p]; cbn [int_repr].
  - reflexivity.
  - pose proof (Z_of_digits_pos_repr p) as E.
    destruct (pos_repr_int p) as (c & t & Ep & Hc & _). rewrite Ep in *.
    unfold py_int_of_text. norm_ch.
    destruct (N.eqb_spec c 45); [unfold Grammar.digit1_9 in Hc; lia | exact E].
  - unfold py_int_of_text. norm_ch. rewrite N.eqb_refl.
    now rewrite Z_of_digits_pos_repr.
Qed.

(** The value of a number: [parse_int] of the integer part when there is
    neither a fraction nor an exponent, [parse_float] of the whole
    otherwise. *)
Lemma match_number_value minus i f e r :
  minus = [] \/ minus = [45%N] -> Grammar.int i ->
  Grammar.opt_frac f -> Grammar.opt_exp e -> delimited r ->
  match_number ((minus ++ i ++ f ++ e) ++ r) =
  Some (match f, e with
        | [], [] => VInt (py_int_of_text (minus ++ i))
        | _, _ => VFloat (py_float_of_text ((minus ++ i) ++ f ++ e))
        end, r).
Proof.
  intros Hm Hi Hf He Hr.
  pose proof (delimited_no_digit r Hr) as Hnd.
  assert (Hnd_e : no_digit_head (e ++ r)).
  { destruct He as [|e0 sg c ds He0 _ _ _]; [assumption|].
    cbn [app no_digit_head]. unfold is_digit.
    destruct He0 as [-> | ->]; reflexivity. }
  assert (Hnd_f : no_digit_head (f ++ e ++ r)).
  { destruct Hf; [assumption | reflexivity]. }
  unfold match_number.
  replace ((minus ++ i ++ f ++ e) ++ r) with (minus ++ i ++ (f ++ e ++ r))
    by now rewrite <- !app_assoc.
  rewrite (match_integer_complete minus i _ Hm Hi Hnd_f).
  assert (Ef : optional match_frac (f ++ e ++ r) = (f, e ++ r)).
  { unfold optional. destruct f as [|c0 f'].
    - rewrite match_frac_none; [reflexivity|]. cbn [app].
      destruct He as [|e0 sg c ds He0 _ _ _]; cbn [app].
      + destruct r; [exact I | apply Hr].
      + destruct He0 as [-> | ->]; discriminate.
    - rewrite (match_frac_complete _ _ Hf);
        [reflexivity | discriminate | assumption]. }
  rewrite Ef.
  assert (Ee : optional match_exp (e ++ r) = (e, r)).
  { unfold optional. destruct e as [|c0 e'].
    - rewrite match_exp_none; [reflexivity|]. cbn [app].
      destruct r; [exact I | split; apply Hr].
    - rewrite (match_exp_complete _ _ He);
        [reflexivity | discriminate | assumption]. }
  rewrite Ee. destruct f, e; reflexivity.
Qed.

Lemma match_number_int_repr z r :
  delimited r -> match_number (int_repr z ++ r) = Some (VInt z, r).
Proof.
  intros Hr.
  assert (G : forall minus i,
    minus = [] \/ minus = [45%N] -> Grammar.int i ->
    match_number ((minus ++ i) ++ r)
    = Some (VInt (py_int_of_text (minus ++ i)), r)).
  { intros minus i Hm Hi.
    pose proof (match_number_value minus i [] [] r Hm Hi
                  Grammar.frac_none Grammar.exp_none Hr) as E.
    cbn [app] in E. rewrite !app_nil_r in E. exact E. }
  rewrite <- (py_int_of_int_repr z) at 2.
  destruct z as [|p|p]; cbn [int_repr].
  - apply (G [] [48%N]); [now left | constructor].
  - destruct (pos_repr_int p) as (c & t & -> & Hc & Ht).
    apply (G [] (c :: t)); [now left | now constructor].
  - destruct (pos_repr_int p) as (c & t & -> & Hc & Ht). norm_ch.
    apply (G [45%N] (c :: t)); [now right | now constructor].
Qed.

Lemma digits_no_mark ds c :
  Grammar.digits ds -> (c < 48 \/ 57 < c)%N -> ~ In c ds.
Proof.
  intros Hd Hc Hin. unfold Grammar.digits in Hd. rewrite Forall_forall in Hd.
  apply Hd in Hin. unfold Grammar.digit in Hin. lia.
Qed.

(** A number with a point or an exponent letter in it is read as a float. *)
Lemma match_number_float n r :
  Grammar.number n -> In 46%N n \/ In 101%N n -> delimited r ->
  match_number (n ++ r) = Some (VFloat (py_float_of_text n), r).
Proof.
  intros Hn Hmark Hr. destruct Hn as [minus i f e Hm Hi Hf He].
  rewrite (match_number_value minus i f e r Hm Hi Hf He Hr).
  destruct f as [|c0 f'], e as [|c1 e']; try (now rewrite <- app_assoc).
  exfalso. rewrite !app_nil_r in Hmark.
  assert (Hd : Grammar.digits (i)) by (apply int_digits; assumption).
  assert (H46 : ~ In 46%N (minus ++ i)).
  { rewrite in_app_iff. intros [H|H].
    - destruct Hm as [-> | ->]; simpl in H; intuition discriminate.
    - revert H. apply digits_no_mark; [assumption | lia]. }
  assert (H101 : ~ In 101%N (minus ++ i)).
  { rewrite in_app_iff. intros [H|H].
    - destruct Hm as [-> | ->]; simpl in H; intuition discriminate.
    - revert H. apply digits_no_mark; [assumption | lia]. }
  tauto.
Qed.

Lemma format_float_short_mark ds decpt :
  In 46%N (format_float_short ds decpt) \/ In 101%N (format_float_short ds decpt).
Proof.
  unfold format_float_short. norm_ch.
  destruct ((-4 <? decpt)%Z && (decpt <=? 16)%Z).
  - left. destruct (decpt <=? 0)%Z; [simpl; tauto|].
    destruct (_ <=? decpt)%Z; rewrite !in_app_iff; simpl; tauto.
  - right. rewrite !in_app_iff. simpl. tauto.
Qed.

Lemma float_repr_mark x :
  match x with S754_nan | S754_infinity _ => False | _ => True end ->
  In 46%N (float_repr x) \/ In 101%N (float_repr x).
Proof.
  destruct x as [s|s| |s m e]; try contradiction; intros _.
  - destruct s; norm_ch; simpl; tauto.
  - cbn [float_repr]. destruct (shortest_digits 17 m e _ 1) as [D k].
    rewrite !in_app_iff.
    destruct (format_float_short_mark
                (strip_trailing_zeros (pos_repr (Z.to_pos D)))
                (k + Z.of_nat (length (pos_repr (Z.to_pos D))))); tauto.
Qed.

Lemma float_eqb_eq x y : float_eqb x y = true -> x = y.
Proof.
  destruct x as [a|a| |a m e], y as [b|b| |b m' e']; try discriminate;
    cbn [float_eqb]; intros H.
  - now apply Bool.eqb_prop in H as ->.
  - now apply Bool.eqb_prop in H as ->.
  - reflexivity.
  - apply andb_true_iff in H as [H He]. apply andb_true_iff in H as [Ha Hm].
    apply Bool.eqb_prop in Ha as ->. apply Pos.eqb_eq in Hm as ->.
    now apply Z.eqb_eq in He as ->.
Qed.

(** A number is read by the last but one branch of [scan_once]. *)
Lemma scan_once_number ext fuel n r v :
  Grammar.number n -> match_number (n ++ r) = Some (v, r) ->
  scan_once ext (S fuel) (n ++ r) = Ok (v, r).
Proof.
  intros Hn E. destruct (number_head n Hn) as (c & t & -> & Hc).
  cbn [app] in *. cbn [scan_once]. norm_ch.
  assert (Hr : (c = 45 \/ 48 <= c <= 57)%N)
    by (unfold Grammar.digit in Hc; tauto).
  destruct (N.eqb_spec c 34); [lia|].
  destruct (N.eqb_spec c 123); [lia|].
  destruct (N.eqb_spec c 91); [lia|].
  rewrite literal_none by lia. now rewrite E.
Qed.

Lemma scan_once_float fuel f r :
  reads_back f = true -> delimited r ->
  scan_once true (S fuel) (floatstr f ++ r) = Ok (VFloat f, r).
Proof.
  intros Hf Hr.
  assert (Hfin : match f with S754_nan | S754_infinity _ => False | _ => True end ->
            scan_once true (S fuel) (float_repr f ++ r) = Ok (VFloat f, r)).
  { intros Hx. apply scan_once_number; [now apply float_repr_number|].
    rewrite match_number_float;
      [| now apply float_repr_number | now apply float_repr_mark | assumption].
    destruct f; try contradiction; cbn [reads_back] in Hf;
      apply float_eqb_eq in Hf; now rewrite Hf. }
  destruct f as [s|s| |s m e]; cbn [floatstr].
  - now apply Hfin.
  - destruct s; reflexivity.
  - reflexivity.
  - now apply Hfin.
Qed.

(** ** Values written and read back *)

Lemma distinct_NoDup ks : distinct ks = true <-> NoDup ks.
Proof.
  induction ks as [|k ks IH]; cbn [distinct].
  - split; [constructor | reflexivity].
  - rewrite andb_true_iff, negb_true_iff, IH. split.
    + intros [Hk Hks]. constructor; [|assumption].
      intros Hin. apply existsb_key_In in Hin. congruence.
    + intros H. inversion H as [|? ? Hk Hks]; subst. split; [|assumption].
      destruct (existsb _ ks) eqn:E; [|reflexivity].
      apply existsb_key_In in E. contradiction.
Qed.

Lemma fold_setitem_fresh (d acc : dict) :
  NoDup (dict_keys (acc ++ d)) ->
  fold_left (fun a kv => dict_setitem a (fst kv) (snd kv)) d acc = acc ++ d.
Proof.
  revert acc. induction d as [|[k v] d IH]; intros acc H; cbn [fold_left].
  - now rewrite app_nil_r.
  - cbn [fst snd]. rewrite dict_setitem_new.
    + rewrite IH; rewrite <- app_assoc; [reflexivity | exact H].
    + unfold dict_keys in *. rewrite map_app in H. cbn [map fst] in H.
      apply NoDup_remove_2 in H. rewrite in_app_iff in H. tauto.
Qed.

(** [dict(pairs)] keeps pairs with distinct keys as they are. *)
Lemma dict_of_pairs_distinct d :
  NoDup (dict_keys d) -> dict_of_pairs d = d.
Proof. intros H. now apply (fold_setitem_fresh d []). Qed.

Lemma encode_head v :
  exists c t, encode v = c :: t /\ is_ws c = false /\ c <> 93%N.
Proof. apply (value_head_plain true). now apply encode_value. Qed.

Lemma skip_ws_encode v r : skip_ws (encode v ++ r) = encode v ++ r.
Proof.
  destruct (encode_head v) as (c & t & -> & Hc & _). cbn [app].
  now apply skip_ws_id.
Qed.

Lemma more_elements_cons y l :
  more_elements (y :: l) = 44%N :: 32%N :: encode y ++ more_elements l.
Proof. reflexivity. Qed.

Lemma more_members_cons k y d :
  more_members ((k, y) :: d)
  = 44%N :: 32%N :: 34%N :: flat_map escape_char k
      ++ 34%N :: 58%N :: 32%N :: encode y ++ more_members d.
Proof.
  unfold more_members, encode_string. cbn [flat_map fst snd]. norm_ch.
  app_eq.
Qed.

Lemma encode_list_cons x l :
  encode (VList (x :: l)) = 91%N :: encode x ++ more_elements l ++ [93%N].
Proof. reflexivity. Qed.

Lemma encode_dict_cons k x d :
  encode (VDict ((k, x) :: d))
  = 123%N :: 34%N :: flat_map escape_char k
      ++ 34%N :: 58%N :: 32%N :: encode x ++ more_members d ++ [125%N].
Proof.
  cbn [encode]. fold (more_members d). unfold encode_string. norm_ch. app_eq.
Qed.

(** An opening bracket before an encoded value starts the loop of
    [JSONArray]. *)
Lemma scan_once_bracket fuel x rest :
  scan_once true (S fuel) (91%N :: encode x ++ rest)
  = bind (array_loop true fuel (encode x ++ rest))
      (fun p => let (values, r') := p in Ok (VList values, r')).
Proof.
  cbn [scan_once]. norm_ch. cbn [N.eqb Pos.eqb]. rewrite (skip_ws_encode x).
  destruct (encode_head x) as (c & t & -> & _ & Hc). cbn [app].
  destruct (N.eqb_spec c 93); [contradiction | reflexivity].
Qed.

(** The loop of [JSONArray] reads the elements the encoder wrote. *)
Lemma array_loop_encode l :
  Forall (fun v => forall fuel r, delimited r ->
            2 * length (encode v) + 1 <= fuel ->
            scan_once true fuel (encode v ++ r) = Ok (v, r)) l ->
  forall x fuel r,
    (forall fuel r, delimited r -> 2 * length (encode x) + 1 <= fuel ->
       scan_once true fuel (encode x ++ r) = Ok (x, r)) ->
    2 * length (encode x ++ more_elements l) + 2 <= fuel ->
    array_loop true fuel (encode x ++ more_elements l ++ 93%N :: r)
    = Ok (x :: l, r).
Proof.
  induction 1 as [|y l Hy Hl IH]; intros x fuel r Hx Hfuel;
    (destruct fuel as [|fuel]; [lia|]); cbn [array_loop]; norm_ch.
  - cbn [more_elements flat_map app] in *. rewrite app_nil_r in Hfuel.
    rewrite Hx; [| apply delimited_close; tauto | lia].
    cbn [bind skip_ws is_ws N.eqb Pos.eqb orb]. reflexivity.
  - rewrite more_elements_cons in *. norm_len Hfuel. norm_app.
    rewrite Hx; [| apply delimited_close; tauto | lia].
    cbn [bind skip_ws is_ws N.eqb Pos.eqb orb].
    rewrite (skip_ws_encode y).
    rewrite (IH y fuel r Hy); [reflexivity|].
    rewrite length_app. lia.
Qed.

(** The loop of [JSONObject] reads the members the encoder wrote. *)
Lemma object_loop_encode d :
  Forall (fun kv => forall fuel r, delimited r ->
            2 * length (encode (snd kv)) + 1 <= fuel ->
            scan_once true fuel (encode (snd kv) ++ r) = Ok (snd kv, r)) d ->
  forallb (fun kv => str_ok (fst kv)) d = true ->
  forall k x fuel r,
    str_ok k = true ->
    (forall fuel r, delimited r -> 2 * length (encode x) + 1 <= fuel ->
       scan_once true fuel (encode x ++ r) = Ok (x, r)) ->
    2 * length (encode x ++ more_members d) + 2 <= fuel ->
    object_loop true fuel
      (flat_map escape_char k ++ 34%N :: 58%N :: 32%N :: encode x
         ++ more_members d ++ 125%N :: r)
    = Ok ((k, x) :: d, r).
Proof.
  induction 1 as [|[k' y] d Hy Hd IH]; intros Hkeys k x fuel r Hk Hx Hfuel;
    (destruct fuel as [|fuel]; [lia|]); cbn [object_loop];
    rewrite (scanstring_encoded k Hk);
    cbn [bind skip_ws is_ws N.eqb Pos.eqb orb]; norm_ch;
    cbn [N.eqb Pos.eqb]; rewrite (skip_ws_encode x).
  - cbn [more_members flat_map app] in *. rewrite app_nil_r in Hfuel.
    rewrite Hx; [| apply delimited_close; tauto | lia].
    cbn [bind skip_ws is_ws N.eqb Pos.eqb orb]. reflexivity.
  - cbn [forallb fst] in Hkeys. apply andb_true_iff in Hkeys as [Hk' Hkeys].
    rewrite more_members_cons in *. norm_len Hfuel. norm_app.
    rewrite Hx; [| apply delimited_close; tauto | lia].
    cbn [bind skip_ws is_ws N.eqb Pos.eqb orb].
    rewrite (IH Hkeys k' y fuel r Hk' Hy); [reflexivity|].
    rewrite length_app. lia.
Qed.

Lemma portable_dict d :
  portable (VDict d) = true ->
  forallb (fun kv => str_ok (fst kv)) d = true
  /\ Forall (fun kv => portable (snd kv) = true) d
  /\ NoDup (dict_keys d).
Proof.
  cbn [portable]. intros H. apply andb_true_iff in H as [H Hd].
  apply distinct_NoDup in Hd. rewrite forallb_forall in H.
  split; [|split; [|exact Hd]].
  - apply forallb_forall. intros kv Hkv.
    apply H in Hkv. now apply andb_true_iff in Hkv.
  - apply Forall_forall. intros kv Hkv.
    apply H in Hkv. now apply andb_true_iff in Hkv.
Qed.

(** The decoder reads back what the encoder wrote. *)
Theorem scan_once_encode :
  forall v, portable v = true ->
    forall fuel r, delimited r -> 2 * length (encode v) + 1 <= fuel ->
      scan_once true fuel (encode v ++ r) = Ok (v, r).
Proof.
  induction v as [ |b|z|f|s|l IH|d IH] using value_induction;
    intros Hv fuel r Hr Hfuel; (destruct fuel as [|fuel]; [lia|]).
  - reflexivity.
  - destruct b; reflexivity.
  - apply scan_once_number;
      [apply int_repr_number | now apply match_number_int_repr].
  - now apply scan_once_float.
  - cbn [encode portable] in *. unfold encode_string. norm_app.
    cbn [scan_once N.eqb Pos.eqb].
    rewrite (scanstring_encoded s Hv). reflexivity.
  - destruct l as [|x l]; [reflexivity|].
    cbn [portable forallb] in Hv. apply andb_true_iff in Hv as [Hx Hl].
    inversion IH as [|? ? IHx IHl]; subst.
    rewrite encode_list_cons in *. norm_len Hfuel. norm_app.
    rewrite scan_once_bracket. rewrite (array_loop_encode l).
    + reflexivity.
    + rewrite Forall_forall in *. rewrite forallb_forall in Hl.
      intros y Hy. apply IHl; [assumption | now apply Hl].
    + now apply IHx.
    + rewrite length_app. lia.
  - destruct d as [|[k x] d]; [reflexivity|].
    destruct (portable_dict _ Hv) as (Hkeys & Hvals & Hnd).
    cbn [forallb fst] in Hkeys. apply andb_true_iff in Hkeys as [Hk Hkeys].
    inversion Hvals as [|? ? Hx Hd]; subst. cbn [snd] in Hx.
    inversion IH as [|? ? IHx IHd]; subst. cbn [snd] in IHx.
    rewrite encode_dict_cons in *. norm_len Hfuel. norm_app.
    cbn [scan_once N.eqb Pos.eqb skip_ws is_ws orb].
    rewrite (object_loop_encode d).
    + cbn [bind]. now rewrite dict_of_pairs_distinct.
    + rewrite Forall_forall in *. intros kv Hkv.
      apply IHd; [assumption | now apply Hd].
    + assumption.
    + assumption.
    + now apply IHx.
    + rewrite length_app. lia.
Qed.

(** ** [json.loads] after [json.dumps] *)

Lemma encode_not_bom v :
  match encode v with c :: _ => N.eqb c 65279 = false | [] => True end.
Proof.
  destruct (value_head true (encode v)) as (c & t & -> & Hc);
    [now apply encode_value|].
  apply N.eqb_neq. intros ->. destruct Hc as [Hin | Hd].
  - simpl in Hin. intuition discriminate.
  - unfold Grammar.digit in Hd. lia.
Qed.

Lemma json_loads_dumps v :
  portable v = true -> json_loads (json_dumps v) = Ok v.
Proof.
  intros Hv. unfold json_loads, json_dumps.
  assert (Hb : decode true (encode v) = decode_body true (encode v)).
  { rewrite decode_cases. pose proof (encode_not_bom v) as Hb.
    destruct (encode v) as [|c t]; [reflexivity | now rewrite Hb]. }
  rewrite Hb. unfold decode_body.
  pose proof (skip_ws_encode v []) as Hs. rewrite app_nil_r in Hs. rewrite Hs.
  pose proof (scan_once_encode v Hv (2 * length (encode v) + 1) [] I
                (le_n _)) as E.
  rewrite app_nil_r in E. rewrite E. reflexivity.
Qed.

Lemma forallb_setitem (p : text * value -> bool) (d : dict) k v :
  forallb p d = true -> p (k, v) = true ->
  forallb p (dict_setitem d k v) = true.
Proof.
  intros Hd Hkv. induction d as [|[k' v'] d IH]; cbn [dict_setitem forallb].
  - now rewrite Hkv.
  - cbn [forallb] in Hd. apply andb_true_iff in Hd as [H1 H2].
    destruct (text_eqb k' k) eqn:E; cbn [forallb].
    + apply text_eqb_eq in E. subst k'. now rewrite Hkv, H2.
    + now rewrite H1, IH.
Qed.

Lemma portable_setitem d k v :
  portable (VDict d) = true -> str_ok k = true -> portable v = true ->
  portable (VDict (dict_setitem d k v)) = true.
Proof.
  cbn [portable]. intros H Hk Hv. apply andb_true_iff in H as [H Hd].
  apply andb_true_iff. split.
  - apply forallb_setitem; [assumption|]. cbn [fst snd]. now rewrite Hk, Hv.
  - apply distinct_NoDup. apply distinct_NoDup in Hd.
    now apply dict_setitem_NoDup.
Qed.

Lemma portable_echoed d r :
  portable (VDict d) = true -> portable (VDict (echoed d r)) = true.
Proof.
  intros H. unfold echoed.
  apply portable_setitem; [apply portable_setitem | |]; try assumption;
    reflexivity.
Qed.

Lemma dict_setitem_twice (d : dict) k v v' :
  dict_setitem (dict_setitem d k v) k v' = dict_setitem d k v'.
Proof.
  induction d as [|[k0 v0] d IH]; cbn [dict_setitem].
  - now rewrite text_eqb_refl.
  - destruct (text_eqb k0 k) eqn:E; cbn [dict_setitem]; rewrite E;
      [reflexivity | now rewrite IH].
Qed.

(** Assigning the value a key already has changes nothing. *)
Lemma dict_setitem_same (d : dict) k v :
  dict_get d k = Some v -> dict_setitem d k v = d.
Proof.
  induction d as [|[k0 v0] d IH]; cbn [dict_get dict_setitem]; [discriminate|].
  destruct (text_eqb k0 k); intros H.
  - now injection H as ->.
  - now rewrite IH.
Qed.

(** [main] applied to what it produced only renews the time stamp. *)
Lemma echoed_echoed d r r' : echoed (echoed d r) r' = echoed d r'.
Proof.
  unfold echoed at 1.
  rewrite (dict_setitem_same (echoed d r)) by apply echoed_get_echoed_by.
  unfold echoed. apply dict_setitem_twice.
Qed.

(** X7: the text a successful run writes decodes to the object [main]
    built: the input object with the two keys assigned. *)
Theorem X7_output_decodes_to_the_data input clk d :
  json_loads input = Ok (VDict d) -> portable (VDict d) = true ->
  json_loads (stdout (final (run input clk))) = Ok (VDict (echoed d (clk O))).
Proof.
  intros Hd Hp. rewrite (run_dict input clk d Hd). cbn [final stdout].
  apply json_loads_dumps. now apply portable_echoed.
Qed.

Lemma X7_witness :
  let input := TQ "{'a': [0.5, 'x\u00e9'], 'ts': null}" in
  let d := [ (T "a", VList [VFloat (S754_finite false 4503599627370496 (-53));
                            VStr [120%N; 233%N]]);
             (T "ts", VNone) ] in
  json_loads input = Ok (VDict d) /\ portable (VDict d) = true
  /\ json_loads (stdout (final (run input example_clock)))
     = Ok (VDict (echoed d (example_clock O))).
Proof.
  split; [vm_compute; reflexivity|]. split; [vm_compute; reflexivity|].
  apply X7_output_decodes_to_the_data; vm_compute; reflexivity.
Defined.

(** X8: run on its own output, [main] writes what it writes for the
    original input at that time: the second run only renews [ts]. *)
Theorem X8_rerun_on_own_output input clk clk' d :
  json_loads input = Ok (VDict d) -> portable (VDict d) = true ->
  run (stdout (final (run input clk))) clk' = run input clk'.
Proof.
  intros Hd Hp.
  assert (Hout : json_loads (stdout (final (run input clk)))
                 = Ok (VDict (echoed d (clk O)))).
  { rewrite (run_dict input clk d Hd). cbn [final stdout].
    apply json_loads_dumps. now apply portable_echoed. }
  rewrite (run_dict _ clk' _ Hout), (run_dict input clk' d Hd).
  now rewrite echoed_echoed.
Qed.

Lemma X8_witness :
  let input := TQ "{'a': [0.5, 'x\u00e9'], 'ts': null}" in
  let d := [ (T "a", VList [VFloat (S754_finite false 4503599627370496 (-53));
                            VStr [120%N; 233%N]]);
             (T "ts", VNone) ] in
  json_loads input = Ok (VDict d) /\ portable (VDict d) = true
  /\ run (stdout (final (run input (fun _ => (5, 0)%Z)))) example_clock
     = run input example_clock.
Proof.
  split; [vm_compute; reflexivity|]. split; [vm_compute; reflexivity|].
  apply X8_rerun_on_own_output with
    (d := [ (T "a", VList [VFloat (S754_finite false 4503599627370496 (-53));
                           VStr [120%N; 233%N]]);
            (T "ts", VNone) ]); vm_compute; reflexivity.
Defined.

(** ** What the decoder returns is portable, floats apart *)

Lemma hexval_bound c a : hexval c = Some a -> (a < 16)%N.
Proof.
  unfold hexval, is_digit.
  destruct (N.leb_spec 48 c), (N.leb_spec c 57); cbn [andb];
    try (intros E; injection E as <-; lia).
  all: destruct (N.leb_spec 97 c), (N.leb_spec c 102); cbn [andb];
    try (intros E; injection E as <-; lia).
  all: destruct (N.leb_spec 65 c), (N.leb_spec c 70); cbn [andb];
    try (intros E; injection E as <-; lia).
  all: discriminate.
Qed.

Lemma decode_uXXXX_bound h1 h2 h3 h4 u :
  decode_uXXXX h1 h2 h3 h4 = Some u -> (u < 65536)%N.
Proof.
  unfold decode_uXXXX.
  destruct (hexval h1) as [a|] eqn:E1; [|discriminate].
  destruct (hexval h2) as [b|] eqn:E2; [|discriminate].
  destruct (hexval h3) as [c|] eqn:E3; [|discriminate].
  destruct (hexval h4) as [d|] eqn:E4; [|discriminate].
  apply hexval_bound in E1, E2, E3, E4. intros H. injection H as <-. lia.
Qed.

Lemma join_surrogates_bound u u2 :
  is_high_surrogate u = true -> is_low_surrogate u2 = true ->
  (65536 <= join_surrogates u u2 <= 1114111)%N.
Proof.
  unfold is_high_surrogate, is_low_surrogate, join_surrogates.
  rewrite !andb_true_iff, !N.leb_le. intros Hu Hu2.
  rewrite lor_shiftl_add by (change (2 ^ 10)%N with 1024%N; lia).
  change (2 ^ 10)%N with 1024%N. lia.
Qed.

Lemma backslash_value esc c : backslash esc = Some c -> (c < 128)%N.
Proof.
  unfold backslash. norm_ch.
  repeat match goal with
  | |- context [N.eqb esc ?k] =>
      destruct (N.eqb esc k); [intros H; injection H as <-; lia|]
  end.
  discriminate.
Qed.

Lemma surrogate_range c :
  (is_high_surrogate c = true <-> (55296 <= c <= 56319)%N)
  /\ (is_low_surrogate c = true <-> (56320 <= c <= 57343)%N).
Proof.
  unfold is_high_surrogate, is_low_surrogate.
  rewrite !andb_true_iff, !N.leb_le. tauto.
Qed.

Lemma not_high c : (c < 55296 \/ 56319 < c)%N -> is_high_surrogate c = false.
Proof.
  intros H. destruct (is_high_surrogate c) eqn:E; [|reflexivity].
  apply surrogate_range in E. lia.
Qed.

Lemma not_low c : (c < 56320 \/ 57343 < c)%N -> is_low_surrogate c = false.
Proof.
  intros H. destruct (is_low_surrogate c) eqn:E; [|reflexivity].
  apply surrogate_range in E. lia.
Qed.

Lemma str_ok_nil : str_ok [] = true.
Proof. reflexivity. Qed.

Lemma str_ok_intro c s :
  (c <= 1114111)%N -> str_ok s = true ->
  (is_high_surrogate c = true -> starts_low s = false) ->
  str_ok (c :: s) = true.
Proof.
  unfold str_ok. cbn [forallb no_split_pair]. intros Hc Hs Hp.
  apply andb_true_iff in Hs as [H1 H2]. rewrite H1, H2, !andb_true_r.
  apply andb_true_iff. split; [now apply N.leb_le|].
  destruct s as [|c' s']; [reflexivity|]. cbn [starts_low] in Hp.
  destruct (is_high_surrogate c); [now rewrite Hp | reflexivity].
Qed.

Lemma scalar_text_tl c s : scalar_text (c :: s) -> scalar_text s.
Proof. intros H. now inversion H. Qed.

Lemma scalar_text_app_r a b : scalar_text (a ++ b) -> scalar_text b.
Proof. intros H. now apply Forall_app in H. Qed.

Lemma scalar_text_skip_ws s : scalar_text s -> scalar_text (skip_ws s).
Proof.
  intros H. destruct (skip_ws_split s) as (w & _ & E). rewrite E in H.
  now apply scalar_text_app_r in H.
Qed.

Lemma scalar_text_unicode s : scalar_text s -> unicode_text s.
Proof.
  apply Forall_impl. unfold scalar. intros c Hc. lia.
Qed.

(** A decoded string starts with a low surrogate only if the text starts
    with the escape of one. *)
Lemma scanstring_head_low s str r :
  scalar_text s -> scanstring s = Ok (str, r) -> starts_low str = true ->
  exists u2 s4, second_escape s = Some (Some u2, s4)
                /\ is_low_surrogate u2 = true.
Proof.
  intros Hs H Hlow. destruct s as [|c s1]; [discriminate|].
  assert (head : forall x s', cons_char x (scanstring s') = Ok (str, r) ->
            is_low_surrogate x = true).
  { intros x s' Hx. apply cons_char_Ok in Hx as (str' & _ & ->). exact Hlow. }
  destruct (N.eqb_spec c 34) as [->|Hq].
  { cbn [scanstring] in H. cbn [N.eqb Pos.eqb] in H. injection H as <- <-.
    discriminate. }
  destruct (N.eqb_spec c 92) as [->|Hb].
  - destruct s1 as [|esc s2]; [discriminate|].
    destruct (N.eqb_spec esc 117) as [->|Hesc_u].
    + destruct s2 as [|h1 [|h2 [|h3 [|h4 s3]]]]; try discriminate.
      rewrite scanstring_unicode in H.
      destruct (decode_uXXXX h1 h2 h3 h4) as [uni|] eqn:Eu; [|discriminate].
      assert (plain : cons_char uni (scanstring s3) = Ok (str, r) ->
                exists u2 s4,
                  second_escape (92%N :: 117%N :: h1 :: h2 :: h3 :: h4 :: s3)
                  = Some (Some u2, s4) /\ is_low_surrogate u2 = true).
      { intros Hp. apply head in Hp. exists uni, s3.
        unfold second_escape. cbn [N.eqb Pos.eqb andb]. now rewrite Eu. }
      destruct (is_high_surrogate uni) eqn:Hh; [|now apply plain].
      destruct (second_escape s3) as [[[uni2|] s4]|] eqn:E2;
        [|discriminate|now apply plain].
      destruct (is_low_surrogate uni2) eqn:Hl; [|now apply plain].
      apply head in H.
      pose proof (join_surrogates_bound uni uni2 Hh Hl) as Hj.
      rewrite not_low in H by lia. discriminate.
    + cbn [scanstring] in H. norm_ch. cbn [N.eqb Pos.eqb] in H.
      destruct (N.eqb_spec esc 117) as [|_]; [contradiction|].
      destruct (backslash esc) as [c'|] eqn:Eb; [|discriminate].
      apply head in H. apply backslash_value in Eb.
      rewrite not_low in H by lia. discriminate.
  - cbn [scanstring] in H. norm_ch.
    destruct (N.eqb_spec c 34) as [|_]; [contradiction|].
    destruct (N.eqb_spec c 92) as [|_]; [contradiction|].
    destruct (N.ltb_spec c 32) as [|Hge]; [discriminate|].
    apply head in H. inversion Hs as [|? ? Hc _]; subst. unfold scalar in Hc.
    rewrite not_low in H by lia. discriminate.
Qed.

(** The strings the decoder returns for a text of scalar values. *)
Lemma scanstring_str_ok :
  forall n s str r,
    length s <= n -> scalar_text s -> scanstring s = Ok (str, r) ->
    str_ok str = true /\ scalar_text r.
Proof.
  induction n as [|n IH]; intros s str r Hlen Hs H.
  { destruct s; [discriminate | simpl in Hlen; lia]. }
  destruct s as [|c s1]; [discriminate|]. cbn [length] in Hlen.
  pose proof (scalar_text_tl _ _ Hs) as Hs1.
  assert (step : forall x s', length s' <= n -> scalar_text s' ->
            (x <= 1114111)%N ->
            (is_high_surrogate x = true ->
             forall u2 s4, second_escape s' = Some (Some u2, s4) ->
                           is_low_surrogate u2 = false) ->
            cons_char x (scanstring s') = Ok (str, r) ->
            str_ok str = true /\ scalar_text r).
  { intros x s' Hl Hs' Hx Hpair Hc.
    apply cons_char_Ok in Hc as (str' & Hstr' & ->).
    destruct (IH _ _ _ Hl Hs' Hstr') as (Hok & Hr). split; [|assumption].
    apply str_ok_intro; [assumption | assumption |].
    intros Hh. destruct (starts_low str') eqn:Hlow; [|reflexivity].
    destruct (scanstring_head_low _ _ _ Hs' Hstr' Hlow) as (u2 & s4 & E & Hu2).
    rewrite (Hpair Hh _ _ E) in Hu2. discriminate. }
  destruct (N.eqb_spec c 34) as [->|Hq].
  { cbn [scanstring] in H. cbn [N.eqb Pos.eqb] in H. injection H as <- <-.
    now split. }
  destruct (N.eqb_spec c 92) as [->|Hb].
  - destruct s1 as [|esc s2]; [discriminate|]. cbn [length] in Hlen.
    pose proof (scalar_text_tl _ _ Hs1) as Hs2.
    destruct (N.eqb_spec esc 117) as [->|Hesc_u].
    + destruct s2 as [|h1 [|h2 [|h3 [|h4 s3]]]]; try discriminate.
      rewrite scanstring_unicode in H. cbn [length] in Hlen.
      assert (Hs3 : scalar_text s3) by (do 4 apply scalar_text_tl in Hs2; exact Hs2).
      destruct (decode_uXXXX h1 h2 h3 h4) as [uni|] eqn:Eu; [|discriminate].
      apply decode_uXXXX_bound in Eu.
      destruct (is_high_surrogate uni) eqn:Hh.
      * destruct (second_escape s3) as [[[uni2|] s4]|] eqn:E2; [|discriminate|].
        -- destruct (is_low_surrogate uni2) eqn:Hl.
           ++ pose proof (join_surrogates_bound uni uni2 Hh Hl) as Hj.
              apply second_escape_Some in E2 as (g1 & g2 & g3 & g4 & -> & _).
              cbn [length] in Hlen.
              apply (step (join_surrogates uni uni2) s4);
                [lia | do 6 apply scalar_text_tl in Hs3; exact Hs3 | lia | | exact H].
              intros Hjh. rewrite not_high in Hjh by lia. discriminate.
           ++ apply (step uni s3); [lia | assumption | lia | | exact H].
              intros _ u2 s4' E. rewrite E2 in E. injection E as <- <-.
              exact Hl.
        -- apply (step uni s3); [lia | assumption | lia | | exact H].
           intros _ u2 s4' E. rewrite E2 in E. discriminate.
      * apply (step uni s3); [lia | assumption | lia | | exact H].
        intros Hh'. rewrite Hh in Hh'. discriminate.
    + cbn [scanstring] in H. norm_ch. cbn [N.eqb Pos.eqb] in H.
      destruct (N.eqb_spec esc 117) as [|_]; [contradiction|].
      destruct (backslash esc) as [c'|] eqn:Eb; [|discriminate].
      apply backslash_value in Eb.
      apply (step c' s2); [lia | assumption | lia | | exact H].
      intros Hh. rewrite not_high in Hh by lia. discriminate.
  - cbn [scanstring] in H. norm_ch.
    destruct (N.eqb_spec c 34) as [|_]; [contradiction|].
    destruct (N.eqb_spec c 92) as [|_]; [contradiction|].
    destruct (N.ltb_spec c 32) as [|Hge]; [discriminate|].
    inversion Hs as [|? ? Hc _]; subst. unfold scalar in Hc.
    apply (step c s1); [lia | assumption | lia | | exact H].
    intros Hh. rewrite not_high in Hh by lia. discriminate.
Qed.

Lemma In_dict_setitem (d : dict) k v kv :
  In kv (dict_setitem d k v) -> kv = (k, v) \/ In kv d.
Proof.
  induction d as [|[k0 v0] d IH]; cbn [dict_setitem].
  - intros [<- | []]. now left.
  - destruct (text_eqb k0 k) eqn:E.
    + apply text_eqb_eq in E. subst k0. intros [<- | H]; [now left|].
      right. now right.
    + intros [<- | H]; [right; now left|].
      destruct (IH H) as [-> | H']; [now left | right; now right].
Qed.

(** [dict(pairs)] holds pairs of the list only. *)
Lemma In_dict_of_pairs pairs kv :
  In kv (dict_of_pairs pairs) -> In kv pairs.
Proof.
  unfold dict_of_pairs.
  assert (G : forall acc,
    In kv (fold_left (fun d p => dict_setitem d (fst p) (snd p)) pairs acc) ->
    In kv acc \/ In kv pairs).
  { induction pairs as [|[k v] pairs IH]; cbn [fold_left]; intros acc H;
      [now left|].
    destruct (IH _ H) as [H' | H']; [|right; now right].
    cbn [fst snd] in H'. apply In_dict_setitem in H' as [-> | H'];
      [right; now left | now left]. }
  intros H. destruct (G [] H) as [[] | H']. exact H'.
Qed.

Lemma kept_list vs : Forall kept vs -> kept (VList vs).
Proof.
  unfold kept. cbn [exact_floats portable]. rewrite !forallb_forall.
  rewrite Forall_forall. intros H Hf v Hv. apply H; [assumption|].
  now apply Hf.
Qed.

Lemma kept_dict pairs : Forall kept_pair pairs -> kept (VDict (dict_of_pairs pairs)).
Proof.
  unfold kept. cbn [exact_floats portable]. rewrite Forall_forall.
  intros H Hf. rewrite forallb_forall in Hf. apply andb_true_iff. split.
  - apply forallb_forall. intros kv Hkv.
    destruct (H kv (In_dict_of_pairs _ _ Hkv)) as [Hk Hv].
    rewrite Hk. apply Hv. now apply Hf.
  - apply distinct_NoDup. apply dict_of_pairs_NoDup.
Qed.

Lemma kept_scalar v :
  match v with VList _ | VDict _ | VStr _ => False | _ => True end -> kept v.
Proof. unfold kept. destruct v; try contradiction; intros _ H; exact H. Qed.

(** The values the decoder returns for a text of scalar values: strings and
    keys are [str_ok] and no dictionary has a key twice, at any depth. *)
Theorem decoder_kept ext fuel :
  (forall s v r, scalar_text s -> scan_once ext fuel s = Ok (v, r) ->
     kept v /\ scalar_text r)
  /\ (forall s vs r, scalar_text s -> array_loop ext fuel s = Ok (vs, r) ->
        Forall kept vs /\ scalar_text r)
  /\ (forall s ps r, scalar_text s -> object_loop ext fuel s = Ok (ps, r) ->
        Forall kept_pair ps /\ scalar_text r).
Proof.
  induction fuel as [|f (IHv & IHa & IHo)];
    [repeat split; intros; discriminate|].
  split; [|split].
  - (* scan_once *)
    intros s v r Hs H. destruct s as [|c s1]; [discriminate|].
    cbn [scan_once] in H. norm_ch.
    pose proof (scalar_text_tl _ _ Hs) as Hs1.
    destruct (N.eqb_spec c 34) as [->|_].
    { apply bind_Ok in H as ([str r0] & Hstr & H). injection H as <- <-.
      destruct (scanstring_str_ok _ _ _ _ (le_n _) Hs1 Hstr) as (Hok & Hr).
      split; [|assumption]. intros _. exact Hok. }
    destruct (N.eqb_spec c 123) as [->|_].
    { pose proof (scalar_text_skip_ws _ Hs1) as Hs2.
      destruct (skip_ws s1) as [|c1 r1]; [discriminate|].
      apply scalar_text_tl in Hs2.
      destruct (N.eqb_spec c1 125) as [->|_].
      { injection H as <- <-. split; [|assumption]. intros _. reflexivity. }
      destruct (N.eqb_spec c1 34) as [->|_]; [|discriminate].
      apply bind_Ok in H as ([pairs r'] & Ho & H). injection H as <- <-.
      destruct (IHo _ _ _ Hs2 Ho) as (Hp & Hr).
      split; [now apply kept_dict | assumption]. }
    destruct (N.eqb_spec c 91) as [->|_].
    { pose proof (scalar_text_skip_ws _ Hs1) as Hs2.
      destruct (skip_ws s1) as [|c1 r1]; [discriminate|].
      destruct (N.eqb_spec c1 93) as [->|_].
      { injection H as <- <-. apply scalar_text_tl in Hs2.
        split; [|assumption]. intros _. reflexivity. }
      apply bind_Ok in H as ([values r'] & Ha & H). injection H as <- <-.
      destruct (IHa _ _ _ Hs2 Ha) as (Hvs & Hr).
      split; [now apply kept_list | assumption]. }
    destruct (match_literal json_literals (c :: s1)) as [[v0 r0]|] eqn:El.
    { injection H as <- <-.
      apply match_literal_sound in El as (name & Hin & E). rewrite E in Hs.
      split; [|now apply scalar_text_app_r in Hs].
      apply kept_scalar. simpl in Hin.
      destruct Hin as [Hin | [Hin | [Hin | []]]]; injection Hin as _ <-;
        exact I. }
    destruct (match_number (c :: s1)) as [[v0 r0]|] eqn:En.
    { injection H as <- <-.
      split.
      - apply kept_scalar. unfold match_number in En.
        destruct (match_integer (c :: s1)) as [[i r1]|]; [|discriminate].
        destruct (optional match_frac r1) as [fr r2].
        destruct (optional match_exp r2) as [ex r3].
        destruct fr, ex; injection En as <- _; exact I.
      - apply match_number_sound in En as (n & _ & E & _). rewrite E in Hs.
        now apply scalar_text_app_r in Hs. }
    destruct (match_literal nan_constants (c :: s1)) as [[v0 r0]|] eqn:Ec;
      [|discriminate].
    destruct ext; [|discriminate]. injection H as <- <-.
    apply match_literal_sound in Ec as (name & Hin & E). rewrite E in Hs.
    split; [|now apply scalar_text_app_r in Hs].
    apply kept_scalar. simpl in Hin.
    destruct Hin as [Hin | [Hin | [Hin | []]]]; injection Hin as _ <-; exact I.
  - (* array_loop *)
    intros s vs r Hs H. cbn [array_loop] in H. norm_ch.
    apply bind_Ok in H as ([v r0] & Hv & H).
    destruct (IHv _ _ _ Hs Hv) as (Hk & Hr0).
    pose proof (scalar_text_skip_ws _ Hr0) as Hs2.
    destruct (skip_ws r0) as [|c r1]; [discriminate|].
    apply scalar_text_tl in Hs2.
    destruct (N.eqb_spec c 93) as [->|_].
    { injection H as <- <-. split; [now constructor | assumption]. }
    destruct (N.eqb_spec c 44) as [->|_]; [|discriminate].
    apply bind_Ok in H as ([values r2] & Ha & H). injection H as <- <-.
    destruct (IHa _ _ _ (scalar_text_skip_ws _ Hs2) Ha) as (Hvs & Hr).
    split; [now constructor | assumption].
  - (* object_loop *)
    intros s ps r Hs H. cbn [object_loop] in H. norm_ch.
    apply bind_Ok in H as ([key r0] & Hkey & H).
    destruct (scanstring_str_ok _ _ _ _ (le_n _) Hs Hkey) as (Hok & Hr0).
    pose proof (scalar_text_skip_ws _ Hr0) as Hs2.
    destruct (skip_ws r0) as [|c r1]; [discriminate|].
    apply scalar_text_tl in Hs2.
    destruct (N.eqb_spec c 58) as [->|_]; [|discriminate].
    apply bind_Ok in H as ([v r2] & Hv & H).
    destruct (IHv _ _ _ (scalar_text_skip_ws _ Hs2) Hv) as (Hk & Hr2).
    pose proof (scalar_text_skip_ws _ Hr2) as Hs3.
    destruct (skip_ws r2) as [|c2 r3]; [discriminate|].
    apply scalar_text_tl in Hs3.
    assert (Hpair : kept_pair (key, v)) by (split; assumption).
    destruct (N.eqb_spec c2 125) as [->|_].
    { injection H as <- <-. split; [now constructor | assumption]. }
    destruct (N.eqb_spec c2 44) as [->|_]; [|discriminate].
    pose proof (scalar_text_skip_ws _ Hs3) as Hs4.
    destruct (skip_ws r3) as [|q r4]; [discriminate|].
    apply scalar_text_tl in Hs4.
    destruct (N.eqb_spec q 34) as [->|_]; [|discriminate].
    apply bind_Ok in H as ([pairs r5] & Ho & H). injection H as <- <-.
    destruct (IHo _ _ _ Hs4 Ho) as (Hps & Hr).
    split; [now constructor | assumption].
Qed.

Lemma json_loads_kept input v :
  scalar_text input -> json_loads input = Ok v -> kept v.
Proof.
  intros Hs H. unfold json_loads in H. apply decode_Ok in H.
  unfold decode_body in H. apply bind_Ok in H as ([obj r] & Hscan & H).
  destruct (skip_ws r); [|discriminate]. injection H as <-.
  now apply (proj1 (decoder_kept true _) _ _ _ (scalar_text_skip_ws _ Hs) Hscan).
Qed.

Lemma scalar_text_check t :
  forallb (fun c => N.ltb c 55296 || (N.ltb 57343 c && N.leb c 1114111)) t = true ->
  scalar_text t.
Proof.
  intros H. rewrite forallb_forall in H. apply Forall_forall. intros c Hc.
  apply H in Hc. unfold scalar.
  apply orb_true_iff in Hc as [Hc | Hc].
  - apply N.ltb_lt in Hc. lia.
  - apply andb_true_iff in Hc as [H1 H2]. apply N.ltb_lt in H1.
    apply N.leb_le in H2. lia.
Qed.

(** X9: for an input of Unicode scalar values, the object [json.load]
    returns is portable as soon as its floats read back from their [repr]:
    its strings and keys have no split surrogate pair and no code point
    beyond U+10FFFF, and no object in it, at any depth, has a key twice. *)
Theorem X9_decoded_data_is_portable input d :
  scalar_text input -> json_loads input = Ok (VDict d) ->
  exact_floats (VDict d) = true -> portable (VDict d) = true.
Proof.
  intros Hs H Hf. now apply (json_loads_kept input (VDict d) Hs H).
Qed.

Lemma X9_witness :
  let input :=
    TQ "{'a': {'k': 1, 'k': ['\ud83d\ude00 \ud83d', 2.5]}, 'b': '\ude00'}" in
  let d :=
    [ (T "a", VDict [ (T "k", VList
         [ VStr [128512%N; 32%N; 55357%N];
           VFloat (S754_finite false 5629499534213120 (-51)) ]) ]);
      (T "b", VStr [56832%N]) ] in
  scalar_text input /\ json_loads input = Ok (VDict d)
  /\ portable (VDict d) = true.
Proof.
  assert (Hs : scalar_text
    (TQ "{'a': {'k': 1, 'k': ['\ud83d\ude00 \ud83d', 2.5]}, 'b': '\ude00'}"))
    by (apply scalar_text_check; vm_compute; reflexivity).
  split; [exact Hs|]. split; [vm_compute; reflexivity|].
  apply (X9_decoded_data_is_portable _ _ Hs); vm_compute; reflexivity.
Defined.

(** ** The effects of a run *)

(** X10: every run reads standard input to its end; the clock is read
    exactly once in a run that succeeds and never in a run that fails, and
    a run ends without an exception exactly when it exits with status 0,
    with status 1 otherwise. *)
Theorem X10_effects_of_a_run input clk :
  let o := run input clk in
  stdin (final o) = []
  /\ clock (final o) = clk
  /\ clock_reads (final o) = (if (exit_status o =? 0)%Z then 1 else 0)
  /\ (exit_status o = 0%Z /\ uncaught o = None
      \/ exit_status o = 1%Z /\ uncaught o <> None /\ stdout (final o) = []).
Proof.
  cbv zeta.
  destruct (run_cases input clk)
    as [(e & _ & ->) | [(v & _ & _ & ->) | (d & _ & ->)]];
    cbn [failed final exit_status uncaught stdin stdout clock clock_reads Z.eqb];
    (split; [reflexivity|]); (split; [reflexivity|]); (split; [reflexivity|]).
  - right. split; [reflexivity|]. split; [discriminate | reflexivity].
  - right. split; [reflexivity|]. split; [discriminate | reflexivity].
  - left. split; reflexivity.
Qed.

(** ** Whitespace after the text does not change what is read *)

Lemma ws_head_cases c w :
  Grammar.ws (c :: w) -> c = 32%N \/ c = 9%N \/ c = 10%N \/ c = 13%N.
Proof. intros H. inversion H as [|? ? Hc _]; subst. exact Hc. Qed.

Lemma ws_no_digit w : Grammar.ws w -> no_digit_head w.
Proof.
  destruct w as [|c w]; [intros _; exact I|]. intros H.
  apply ws_head_cases in H. cbn [no_digit_head].
  destruct H as [-> | [-> | [-> | ->]]]; reflexivity.
Qed.

Lemma span_digits_frame s w :
  no_digit_head w ->
  span_digits (s ++ w) = (fst (span_digits s), snd (span_digits s) ++ w).
Proof.
  intros Hw. induction s as [|c s IH]; cbn [app span_digits fst snd].
  - destruct w as [|c w]; [reflexivity|]. cbn [span_digits].
    cbn [no_digit_head] in Hw. now rewrite Hw.
  - destruct (is_digit c); [|reflexivity].
    rewrite IH. now destruct (span_digits s).
Qed.

Lemma match_integer_frame s w :
  Grammar.ws w ->
  match_integer (s ++ w) =
  match match_integer s with
  | Some (i, r) => Some (i, r ++ w)
  | None => None
  end.
Proof.
  intros Hw. pose proof (ws_no_digit w Hw) as Hnd.
  assert (G : forall sign s1,
    match s1 ++ w with
    | c :: s2 =>
        if N.eqb c (ch "0") then Some (sign ++ [c], s2)
        else if is_digit c then
          let (d, r) := span_digits s2 in Some (sign ++ c :: d, r)
        else None
    | [] => None
    end =
    match
      match s1 with
      | c :: s2 =>
          if N.eqb c (ch "0") then Some (sign ++ [c], s2)
          else if is_digit c then
            let (d, r) := span_digits s2 in Some (sign ++ c :: d, r)
          else None
      | [] => None
      end
    with
    | Some (i, r) => Some (i, r ++ w)
    | None => None
    end).
  { intros sign s1. norm_ch. destruct s1 as [|c s2]; cbn [app].
    - destruct w as [|c w']; [reflexivity|].
      apply ws_head_cases in Hw.
      destruct Hw as [-> | [-> | [-> | ->]]]; reflexivity.
    - destruct (N.eqb c 48); [reflexivity|].
      destruct (is_digit c); [|reflexivity].
      rewrite (span_digits_frame s2 w Hnd). now destruct (span_digits s2). }
  unfold match_integer. norm_ch. destruct s as [|c s']; cbn [app].
  - destruct w as [|c w']; [reflexivity|].
    pose proof (ws_head_cases _ _ Hw) as Hc.
    destruct Hc as [-> | [-> | [-> | ->]]]; reflexivity.
  - destruct (N.eqb c 45).
    + apply (G [c] s').
    + apply (G [] (c :: s')).
Qed.

Lemma match_frac_frame s w :
  Grammar.ws w ->
  match_frac (s ++ w) =
  match match_frac s with
  | Some (f, r) => Some (f, r ++ w)
  | None => None
  end.
Proof.
  intros Hw. pose proof (ws_no_digit w Hw) as Hnd.
  unfold match_frac. norm_ch. destruct s as [|c s']; cbn [app].
  - destruct w as [|c w']; [reflexivity|].
    apply ws_head_cases in Hw.
    destruct Hw as [-> | [-> | [-> | ->]]]; reflexivity.
  - destruct (N.eqb c 46); [|reflexivity].
    rewrite (span_digits_frame s' w Hnd).
    destruct (span_digits s') as [[|d0 d] r]; reflexivity.
Qed.

Lemma match_exp_frame s w :
  Grammar.ws w ->
  match_exp (s ++ w) =
  match match_exp s with
  | Some (e, r) => Some (e, r ++ w)
  | None => None
  end.
Proof.
  intros Hw. pose proof (ws_no_digit w Hw) as Hnd.
  unfold match_exp. norm_ch. destruct s as [|c s']; cbn [app].
  - destruct w as [|c w']; [reflexivity|].
    apply ws_head_cases in Hw.
    destruct Hw as [-> | [-> | [-> | ->]]]; reflexivity.
  - destruct (N.eqb c 101 || N.eqb c 69); [|reflexivity].
    destruct s' as [|c2 s'']; cbn [app].
    + destruct w as [|c2 w']; [reflexivity|].
      pose proof (ws_head_cases _ _ Hw) as Hc.
      destruct Hc as [-> | [-> | [-> | ->]]]; reflexivity.
    + destruct (N.eqb c2 45 || N.eqb c2 43).
      * rewrite (span_digits_frame s'' w Hnd).
        destruct (span_digits s'') as [[|d0 d] r]; reflexivity.
      * change (c2 :: s'' ++ w) with ((c2 :: s'') ++ w).
        rewrite (span_digits_frame (c2 :: s'') w Hnd).
        destruct (span_digits (c2 :: s'')) as [[|d0 d] r]; reflexivity.
Qed.

Lemma optional_frame (group : text -> option (text * text)) s w :
  (forall s, group (s ++ w) =
             match group s with
             | Some (f, r) => Some (f, r ++ w)
             | None => None
             end) ->
  optional group (s ++ w)
  = (fst (optional group s), snd (optional group s) ++ w).
Proof.
  intros H. unfold optional. rewrite H.
  destruct (group s) as [[f r]|]; reflexivity.
Qed.

Lemma match_number_frame s w :
  Grammar.ws w ->
  match_number (s ++ w) =
  match match_number s with
  | Some (v, r) => Some (v, r ++ w)
  | None => None
  end.
Proof.
  intros Hw. unfold match_number. rewrite (match_integer_frame s w Hw).
  destruct (match_integer s) as [[i r1]|]; [|reflexivity].
  rewrite (optional_frame match_frac r1 w)
    by (intros; now apply match_frac_frame).
  destruct (optional match_frac r1) as [f r2]. cbn [fst snd].
  rewrite (optional_frame match_exp r2 w)
    by (intros; now apply match_exp_frame).
  destruct (optional match_exp r2) as [e r3]. cbn [fst snd].
  destruct f, e; reflexivity.
Qed.

Lemma strip_prefix_frame p s w :
  Grammar.ws w -> forallb (fun c => negb (is_ws c)) p = true ->
  strip_prefix p (s ++ w) =
  match strip_prefix p s with
  | Some r => Some (r ++ w)
  | None => None
  end.
Proof.
  intros Hw. revert s. induction p as [|x p IH]; intros s Hp;
    [reflexivity|].
  cbn [forallb] in Hp. apply andb_true_iff in Hp as [Hx Hp].
  destruct s as [|y s]; cbn [app strip_prefix].
  - destruct w as [|c w']; [reflexivity|]. cbn [strip_prefix].
    destruct (N.eqb_spec x c) as [->|]; [|reflexivity].
    inversion Hw as [|? ? Hc _]; subst. apply is_ws_iff in Hc.
    rewrite Hc in Hx. discriminate.
  - destruct (N.eqb x y); [now apply IH | reflexivity].
Qed.

Lemma match_literal_frame lits s w :
  Grammar.ws w ->
  forallb (fun nv => forallb (fun c => negb (is_ws c)) (fst nv)) lits = true ->
  match_literal lits (s ++ w) =
  match match_literal lits s with
  | Some (v, r) => Some (v, r ++ w)
  | None => None
  end.
Proof.
  intros Hw. induction lits as [|[name v] lits IH]; intros Hl;
    [reflexivity|].
  cbn [forallb fst] in Hl. apply andb_true_iff in Hl as [Hn Hl].
  cbn [match_literal]. rewrite (strip_prefix_frame name s w Hw Hn).
  destruct (strip_prefix name s); [reflexivity | now apply IH].
Qed.

Lemma skip_ws_frame s w c r :
  skip_ws s = c :: r -> skip_ws (s ++ w) = c :: r ++ w.
Proof.
  induction s as [|a s IH]; cbn [skip_ws app]; [discriminate|].
  destruct (is_ws a); [exact IH|]. intros H. injection H as <- <-.
  reflexivity.
Qed.

Lemma skip_ws_frame_nil s w :
  Grammar.ws w -> skip_ws s = [] -> skip_ws (s ++ w) = [].
Proof.
  intros Hw. induction s as [|a s IH]; cbn [skip_ws app].
  - intros _. rewrite <- (app_nil_r w). now apply skip_ws_app.
  - destruct (is_ws a); [exact IH | discriminate].
Qed.

Lemma second_escape_frame s o s4 w :
  second_escape s = Some (o, s4) -> second_escape (s ++ w) = Some (o, s4 ++ w).
Proof.
  intros H. pose proof H as H'.
  apply second_escape_Some in H' as (g1 & g2 & g3 & g4 & -> & ->).
  reflexivity.
Qed.

(** Where the string ends before a second escape could, nothing added
    after it makes one. *)
Lemma second_escape_frame_None s str r w :
  scanstring s = Ok (str, r) -> second_escape s = None ->
  second_escape (s ++ w) = None.
Proof.
  intros H Hn. destruct s as [|b [|u rest]].
  - discriminate.
  - cbn [scanstring] in H. norm_ch.
    destruct (N.eqb_spec b 34) as [->|Hq].
    + cbn [app]. destruct w as [|c w']; [reflexivity|].
      apply second_escape_other. left. discriminate.
    + destruct (N.eqb b 92); [discriminate|].
      destruct (N.ltb b 32); discriminate.
  - destruct (N.eqb_spec b 92) as [->|Hb];
      [|apply second_escape_other; cbn [app]; now left].
    destruct (N.eqb_spec u 117) as [->|Hu];
      [|apply second_escape_other; cbn [app]; now right].
    destruct rest as [|g1 [|g2 [|g3 [|g4 s4]]]]; try discriminate.
Qed.

(** A string is read the same whatever follows its closing quote. *)
Lemma scanstring_frame :
  forall n s str r w,
    length s <= n -> scanstring s = Ok (str, r) ->
    scanstring (s ++ w) = Ok (str, r ++ w).
Proof.
  induction n as [|n IH]; intros s str r w Hlen H.
  { destruct s; [discriminate | simpl in Hlen; lia]. }
  destruct s as [|c s1]; [discriminate|]. cbn [length] in Hlen.
  assert (step : forall x s', length s' <= n ->
            cons_char x (scanstring s') = Ok (str, r) ->
            cons_char x (scanstring (s' ++ w)) = Ok (str, r ++ w)).
  { intros x s' Hl Hx. apply cons_char_Ok in Hx as (str' & Hs' & ->).
    now rewrite (IH _ _ _ w Hl Hs'). }
  destruct (N.eqb_spec c 34) as [->|Hq].
  { cbn [scanstring app] in *. cbn [N.eqb Pos.eqb] in *.
    injection H as <- <-. reflexivity. }
  destruct (N.eqb_spec c 92) as [->|Hb].
  - destruct s1 as [|esc s2]; [discriminate|]. cbn [length] in Hlen.
    destruct (N.eqb_spec esc 117) as [->|Hesc_u].
    + destruct s2 as [|h1 [|h2 [|h3 [|h4 s3]]]]; try discriminate.
      cbn [app]. rewrite scanstring_unicode in *. cbn [length] in Hlen.
      destruct (decode_uXXXX h1 h2 h3 h4) as [uni|]; [|discriminate].
      destruct (is_high_surrogate uni); [|apply step; [lia | exact H]].
      destruct (second_escape s3) as [[[uni2|] s4]|] eqn:E2;
        [|discriminate|].
      * rewrite (second_escape_frame _ _ _ w E2).
        apply second_escape_Some in E2 as (g1 & g2 & g3 & g4 & -> & _).
        cbn [length] in Hlen.
        destruct (is_low_surrogate uni2); apply step;
          solve [lia | exact H | cbn [length]; lia].
      * pose proof H as H'. apply cons_char_Ok in H' as (str' & Hs3 & _).
        rewrite (second_escape_frame_None _ _ _ w Hs3 E2).
        apply step; [lia | exact H].
    + cbn [scanstring app] in *. norm_ch. cbn [N.eqb Pos.eqb] in *.
      destruct (N.eqb_spec esc 117) as [|_]; [contradiction|].
      destruct (backslash esc) as [c'|]; [|discriminate].
      apply step; [lia | exact H].
  - cbn [scanstring app] in *. norm_ch.
    destruct (N.eqb_spec c 34) as [|_]; [contradiction|].
    destruct (N.eqb_spec c 92) as [|_]; [contradiction|].
    destruct (N.ltb_spec c 32) as [|Hge]; [discriminate|].
    apply step; [lia | exact H].
Qed.

Lemma literal_names_no_ws :
  forallb (fun nv => forallb (fun c => negb (is_ws c)) (fst nv))
    json_literals = true
  /\ forallb (fun nv => forallb (fun c => negb (is_ws c)) (fst nv))
       nan_constants = true.
Proof. split; reflexivity. Qed.

Lemma scan_once_nil ext fuel : forall v r, scan_once ext fuel [] <> Ok (v, r).
Proof. destruct fuel; discriminate. Qed.

Lemma array_loop_nil ext fuel : forall vs r, array_loop ext fuel [] <> Ok (vs, r).
Proof.
  destruct fuel as [|[|f]]; try discriminate.
Qed.

(** The decoder reads a value the same with more fuel and with whitespace
    added at the end of the text. *)
Theorem decoder_frame ext w :
  Grammar.ws w ->
  forall fuel,
  (forall s v r fuel', scan_once ext fuel s = Ok (v, r) -> fuel <= fuel' ->
     scan_once ext fuel' (s ++ w) = Ok (v, r ++ w))
  /\ (forall s vs r fuel', array_loop ext fuel s = Ok (vs, r) ->
        fuel <= fuel' ->
        array_loop ext fuel' (s ++ w) = Ok (vs, r ++ w))
  /\ (forall s ps r fuel', object_loop ext fuel s = Ok (ps, r) ->
        fuel <= fuel' ->
        object_loop ext fuel' (s ++ w) = Ok (ps, r ++ w)).
Proof.
  intros Hw. destruct literal_names_no_ws as [Hjl Hnc].
  induction fuel as [|f (IHv & IHa & IHo)];
    [repeat split; intros; discriminate|].
  split; [|split].
  - (* scan_once *)
    intros s v r fuel' H Hfuel.
    destruct fuel' as [|f']; [lia|]. assert (Hf : f <= f') by lia.
    destruct s as [|c s1]; [discriminate|].
    cbn [scan_once app] in *. norm_ch.
    destruct (N.eqb_spec c 34) as [->|_].
    { apply bind_Ok in H as ([str r0] & Hstr & H). injection H as <- <-.
      now rewrite (scanstring_frame _ _ _ _ w (le_n _) Hstr). }
    destruct (N.eqb_spec c 123) as [->|_].
    { destruct (skip_ws s1) as [|c1 r1] eqn:Esk; [discriminate|].
      rewrite (skip_ws_frame _ w _ _ Esk).
      destruct (N.eqb c1 125); [injection H as <- <-; reflexivity|].
      destruct (N.eqb c1 34); [|discriminate].
      apply bind_Ok in H as ([pairs r'] & Ho & H). injection H as <- <-.
      now rewrite (IHo _ _ _ f' Ho Hf). }
    destruct (N.eqb_spec c 91) as [->|_].
    { destruct (skip_ws s1) as [|c1 r1] eqn:Esk; [discriminate|].
      rewrite (skip_ws_frame _ w _ _ Esk).
      destruct (N.eqb c1 93); [injection H as <- <-; reflexivity|].
      apply bind_Ok in H as ([values r'] & Ha & H). injection H as <- <-.
      change (c1 :: r1 ++ w) with ((c1 :: r1) ++ w).
      now rewrite (IHa _ _ _ f' Ha Hf). }
    change (c :: s1 ++ w) with ((c :: s1) ++ w).
    rewrite (match_literal_frame json_literals _ w Hw Hjl).
    destruct (match_literal json_literals (c :: s1)) as [[v0 r0]|].
    { injection H as <- <-. reflexivity. }
    rewrite (match_number_frame _ w Hw).
    destruct (match_number (c :: s1)) as [[v0 r0]|].
    { injection H as <- <-. reflexivity. }
    rewrite (match_literal_frame nan_constants _ w Hw Hnc).
    destruct (match_literal nan_constants (c :: s1)) as [[v0 r0]|];
      [|discriminate].
    destruct ext; [|discriminate]. injection H as <- <-. reflexivity.
  - (* array_loop *)
    intros s vs r fuel' H Hfuel.
    destruct fuel' as [|f']; [lia|]. assert (Hf : f <= f') by lia.
    cbn [array_loop] in *. norm_ch.
    apply bind_Ok in H as ([v r0] & Hv & H).
    rewrite (IHv _ _ _ f' Hv Hf). cbn [bind].
    destruct (skip_ws r0) as [|c r1] eqn:Esk; [discriminate|].
    rewrite (skip_ws_frame _ w _ _ Esk).
    destruct (N.eqb c 93); [injection H as <- <-; reflexivity|].
    destruct (N.eqb c 44); [|discriminate].
    apply bind_Ok in H as ([values r2] & Ha & H). injection H as <- <-.
    destruct (skip_ws r1) as [|c' r'] eqn:Esk1;
      [now apply array_loop_nil in Ha|].
    rewrite (skip_ws_frame _ w _ _ Esk1).
    change (c' :: r' ++ w) with ((c' :: r') ++ w).
    now rewrite (IHa _ _ _ f' Ha Hf).
  - (* object_loop *)
    intros s ps r fuel' H Hfuel.
    destruct fuel' as [|f']; [lia|]. assert (Hf : f <= f') by lia.
    cbn [object_loop] in *. norm_ch.
    apply bind_Ok in H as ([key r0] & Hkey & H).
    rewrite (scanstring_frame _ _ _ _ w (le_n _) Hkey). cbn [bind].
    destruct (skip_ws r0) as [|c r1] eqn:Esk; [discriminate|].
    rewrite (skip_ws_frame _ w _ _ Esk).
    destruct (N.eqb c 58); [|discriminate].
    apply bind_Ok in H as ([v r2] & Hv & H).
    destruct (skip_ws r1) as [|c' r'] eqn:Esk1;
      [now apply scan_once_nil in Hv|].
    rewrite (skip_ws_frame _ w _ _ Esk1).
    change (c' :: r' ++ w) with ((c' :: r') ++ w).
    rewrite (IHv _ _ _ f' Hv Hf). cbn [bind].
    destruct (skip_ws r2) as [|c2 r3] eqn:Esk2; [discriminate|].
    rewrite (skip_ws_frame _ w _ _ Esk2).
    destruct (N.eqb c2 125); [injection H as <- <-; reflexivity|].
    destruct (N.eqb c2 44); [|discriminate].
    destruct (skip_ws r3) as [|q r4] eqn:Esk3; [discriminate|].
    rewrite (skip_ws_frame _ w _ _ Esk3).
    destruct (N.eqb q 34); [|discriminate].
    apply bind_Ok in H as ([pairs r5] & Ho & H). injection H as <- <-.
    now rewrite (IHo _ _ _ f' Ho Hf).
Qed.

(** ** Whitespace around the input *)

Lemma last_app_ne {A} (a b : list A) d : b <> [] -> last (a ++ b) d = last b d.
Proof.
  intros Hb. induction a as [|x a IH]; [reflexivity|].
  cbn [app]. rewrite <- IH. cbn [last].
  destruct (a ++ b) eqn:E; [|reflexivity].
  apply app_eq_nil in E as [_ E]. contradiction.
Qed.

Lemma last_In {A} (l : list A) d : l <> [] -> In (last l d) l.
Proof.
  induction l as [|x l IH]; [congruence|]. intros _.
  destruct l as [|y l]; [now left|].
  right. apply IH. discriminate.
Qed.

Lemma digit_not_ws c : Grammar.digit c -> is_ws c = false.
Proof.
  unfold Grammar.digit, is_ws. intros H.
  repeat (apply orb_false_iff; split); apply N.eqb_neq; lia.
Qed.

Lemma digits_last ds :
  Grammar.digits ds -> ds <> [] -> Grammar.digit (last ds 0%N).
Proof.
  intros Hd Hne. unfold Grammar.digits in Hd. rewrite Forall_forall in Hd.
  apply Hd. now apply last_In.
Qed.

(** A number ends with a digit. *)
Lemma number_last n :
  Grammar.number n -> n <> [] /\ Grammar.digit (last n 0%N).
Proof.
  intros [minus i f e Hm Hi Hf He].
  assert (Hil : i <> [] /\ Grammar.digit (last i 0%N)).
  { destruct (int_digits i Hi) as [Hd Hne]. split; [assumption|].
    now apply digits_last. }
  assert (Hfl : f = [] \/ f <> [] /\ Grammar.digit (last f 0%N)).
  { destruct Hf as [|c ds Hc Hds]; [now left|]. right.
    split; [discriminate|].
    change (46%N :: c :: ds) with ([46%N] ++ c :: ds).
    rewrite last_app_ne by discriminate.
    apply digits_last; [now constructor | discriminate]. }
  assert (Hel : e = [] \/ e <> [] /\ Grammar.digit (last e 0%N)).
  { destruct He as [|e0 sg c ds _ _ Hc Hds]; [now left|]. right.
    split; [discriminate|].
    change (e0 :: sg ++ c :: ds) with ((e0 :: sg) ++ c :: ds).
    rewrite last_app_ne by discriminate.
    apply digits_last; [now constructor | discriminate]. }
  destruct Hil as [Hine Hil].
  assert (Hne : minus ++ i ++ f ++ e <> []).
  { intros E. apply app_eq_nil in E as [_ E].
    apply app_eq_nil in E as [E _]. contradiction. }
  split; [assumption|].
  destruct Hel as [-> | [Hene Hel]].
  - rewrite app_nil_r. destruct Hfl as [-> | [Hfne Hfl]].
    + rewrite app_nil_r. now rewrite last_app_ne.
    + rewrite app_assoc. now rewrite last_app_ne.
  - rewrite !app_assoc. now rewrite last_app_ne.
Qed.

(** A value ends with a character that is not whitespace. *)
Lemma value_last ext t :
  Grammar.value ext t -> t <> [] /\ is_ws (last t 0%N) = false.
Proof.
  assert (closed : forall o x c, is_ws c = false ->
            (o :: x ++ [c]) <> [] /\ is_ws (last (o :: x ++ [c]) 0%N) = false).
  { intros o x c Hc. split; [discriminate|].
    change (o :: x ++ [c]) with ((o :: x) ++ [c]). now rewrite last_last. }
  intros H. destruct H as [| | |n Hn|s Hs|a Ha|o Ho| | |];
    try (split; [discriminate | reflexivity]).
  - destruct (number_last n Hn) as [Hne Hd].
    split; [assumption | now apply digit_not_ws].
  - destruct Hs. now apply closed.
  - destruct Ha; now apply closed.
  - destruct Ho; now apply closed.
Qed.

Lemma ws_suffix_strip x :
  forall b y w2,
    x ++ b = y ++ w2 -> Grammar.ws b -> Grammar.ws w2 ->
    x <> [] -> is_ws (last x 0%N) = false ->
    exists b', Grammar.ws b' /\ y = x ++ b'.
Proof.
  induction x as [|a x0 IH]; intros b y w2 E Hb Hw2 Hne Hlast;
    [congruence|].
  destruct y as [|a' y'].
  - exfalso. cbn [app] in E. rewrite <- E in Hw2.
    assert (Hin : In (last (a :: x0) 0%N) ((a :: x0) ++ b)).
    { apply in_or_app. left. now apply last_In. }
    unfold Grammar.ws in Hw2. rewrite Forall_forall in Hw2.
    apply Hw2 in Hin. apply is_ws_iff in Hin. congruence.
  - cbn [app] in E. injection E as <- E.
    destruct x0 as [|a0 x1].
    + cbn [app] in E. subst b. exists y'. split; [|reflexivity].
      unfold Grammar.ws in *. now apply Forall_app in Hb.
    + destruct (IH b y' w2 E Hb Hw2) as (b' & Hb' & ->);
        [discriminate | exact Hlast|].
      exists b'. split; [assumption | reflexivity].
Qed.

(** Whitespace around a JSON text can be taken away. *)
Lemma json_text_strip ext w1 s w2 :
  Grammar.ws w1 -> Grammar.ws w2 ->
  Grammar.json_text ext (w1 ++ s ++ w2) -> Grammar.json_text ext s.
Proof.
  intros Hw1 Hw2 H. inversion H as [a t b Ha Ht Hb E].
  destruct (value_head_plain _ _ Ht) as (c & t' & Et & Hc & _).
  destruct (value_last _ _ Ht) as (Hne & Hlast).
  assert (Esk : skip_ws (s ++ w2) = t ++ b).
  { rewrite <- (skip_ws_app w1 (s ++ w2) Hw1), <- E.
    rewrite (skip_ws_app a _ Ha). rewrite Et. cbn [app].
    now apply skip_ws_id. }
  destruct (skip_ws_split (s ++ w2)) as (a' & Ha' & E').
  rewrite Esk in E'.
  destruct (ws_suffix_strip (a' ++ t) b s w2) as (b' & Hb' & ->).
  - now rewrite <- app_assoc.
  - assumption.
  - assumption.
  - intros E0. apply app_eq_nil in E0 as [_ E0]. contradiction.
  - now rewrite last_app_ne.
  - rewrite <- app_assoc. now constructor.
Qed.

Lemma ws_unicode w : Grammar.ws w -> unicode_text w.
Proof.
  apply Forall_impl. unfold Grammar.ws_char. intros c Hc. lia.
Qed.

Lemma decode_ws_forward ext w1 s w2 v :
  Grammar.ws w1 -> Grammar.ws w2 -> decode ext s = Ok v ->
  decode ext (w1 ++ s ++ w2) = Ok v.
Proof.
  intros Hw1 Hw2 H.
  assert (Hbom : match s ++ w2 with
                 | c :: _ => N.eqb c 65279 = false | [] => True end).
  { rewrite decode_cases in H. destruct s as [|c0 s']; cbn [app].
    - destruct Hw2 as [|c w Hc _]; [exact I|].
      unfold Grammar.ws_char in Hc. apply N.eqb_neq. lia.
    - destruct (N.eqb c0 65279); [discriminate | reflexivity]. }
  apply (ws_head_not_bom w1 _ Hw1) in Hbom.
  apply decode_Ok in H. unfold decode_body in H.
  apply bind_Ok in H as ([obj r] & Hscan & H).
  destruct (skip_ws r) eqn:Er; [|discriminate]. injection H as ->.
  destruct (skip_ws s) as [|c rr] eqn:Es; [now apply scan_once_nil in Hscan|].
  assert (Hbody : decode_body ext (w1 ++ s ++ w2) = Ok v).
  { unfold decode_body. rewrite (skip_ws_app w1 _ Hw1).
    rewrite (skip_ws_frame s w2 c rr Es).
    change (c :: rr ++ w2) with ((c :: rr) ++ w2).
    rewrite (proj1 (decoder_frame ext w2 Hw2 _) _ _ _
               (2 * length (w1 ++ s ++ w2) + 1) Hscan)
      by (rewrite !length_app; lia).
    cbn [bind]. now rewrite (skip_ws_frame_nil r w2 Hw2 Er). }
  rewrite decode_cases.
  destruct (w1 ++ s ++ w2) as [|c1 s1]; [assumption|].
  now rewrite Hbom.
Qed.

(** [json.loads] does not see the whitespace around the text. *)
Theorem decode_ws ext w1 s w2 :
  unicode_text s -> Grammar.ws w1 -> Grammar.ws w2 ->
  decode ext (w1 ++ s ++ w2) = decode ext s.
Proof.
  intros Hs Hw1 Hw2.
  destruct (decode ext s) as [v|e] eqn:E.
  - now apply decode_ws_forward.
  - pose proof (decode_error _ _ _ E) as ->.
    destruct (decode ext (w1 ++ s ++ w2)) as [v|e] eqn:E';
      [|now apply decode_error in E' as ->].
    exfalso. apply decode_sound in E'.
    + apply json_text_strip in E'; [|assumption|assumption].
      apply decode_complete in E' as (v' & E'). congruence.
    + apply Forall_app. split; [now apply ws_unicode|].
      apply Forall_app. split; [assumption | now apply ws_unicode].
Qed.

Lemma run_ext input input' clk :
  json_loads input = json_loads input' -> run input clk = run input' clk.
Proof.
  intros H. unfold run, main, bindM, json_load_stdin, initial_world.
  cbn [stdin stdout clock clock_reads]. now rewrite H.
Qed.

(** X11: whitespace before and after the input (spaces, tabs, line feeds,
    carriage returns, such as the newline a shell command ends its output
    with) changes nothing in the run. *)
Theorem X11_surrounding_whitespace input w1 w2 clk :
  unicode_text input -> Grammar.ws w1 -> Grammar.ws w2 ->
  run (w1 ++ input ++ w2) clk = run input clk.
Proof.
  intros Hu Hw1 Hw2. apply run_ext. unfold json_loads.
  now apply decode_ws.
Qed.

Lemma X11_witness :
  let input := TQ "{'a': [1, 2.5e3, 'x']}" in
  let w1 := [32%N; 9%N] in
  let w2 := [13%N; 10%N] in
  unicode_text input /\ Grammar.ws w1 /\ Grammar.ws w2
  /\ run (w1 ++ input ++ w2) example_clock = run input example_clock.
Proof.
  assert (Hu : unicode_text (TQ "{'a': [1, 2.5e3, 'x']}"))
    by (apply unicode_text_check; vm_compute; reflexivity).
  assert (Hw1 : Grammar.ws [32%N; 9%N])
    by (repeat constructor; unfold Grammar.ws_char; tauto).
  assert (Hw2 : Grammar.ws [13%N; 10%N])
    by (repeat constructor; unfold Grammar.ws_char; tauto).
  split; [exact Hu|]. split; [exact Hw1|]. split; [exact Hw2|].
  exact (X11_surrounding_whitespace _ _ _ example_clock Hu Hw1 Hw2).
Defined.
